(** * SAT -> 3-CNF -> CLIQUE reduction engine

    Shallow embedding of the formula utilities ([parseFormula],
    [formulaToString], [transformTo3CNF], [validateFormula]) and of the
    graph part of the clique animation ([parseFormulaToGraph],
    [findClique]), with the properties the specification states about
    them; then the submit handler of the custom-formula panel and the
    callbacks that draw the edges and the clique legend, with further
    properties of the whole. *)

From Stdlib Require Import Ascii String DecimalString DecimalNat.
From Stdlib Require Import List NArith ZArith Arith Bool Lia.
From Equations Require Import Equations.
Import ListNotations.

Set Implicit Arguments.

(** ** JavaScript strings

    A JavaScript string is a sequence of UTF-16 code units.  The three
    connectives are single code units of the Basic Multilingual Plane, so
    [substring(1)], [startsWith], [split] and [includes] all work unit by
    unit. *)

Module JS.

Definition char16 := N.
Definition jsstring := list char16.

(** An ASCII literal of the source, as code units. *)
Definition lit (s : string) : jsstring :=
  map N_of_ascii (list_ascii_of_string s).

Definition AND : char16 := 8743%N.   (* U+2227 *)
Definition OR : char16 := 8744%N.    (* U+2228 *)
Definition NOT : char16 := 172%N.    (* U+00AC *)
Definition LPAREN : char16 := 40%N.
Definition RPAREN : char16 := 41%N.
Definition SPACE : char16 := 32%N.

(** [\s] of a regular expression without the [u] flag, which is also the
    set [String.prototype.trim] strips: WhiteSpace and LineTerminator. *)
Definition isWhiteSpace (c : char16) : bool :=
  ((9 <=? c) && (c <=? 13) || (c =? 32) || (c =? 160) || (c =? 5760)
   || (8192 <=? c) && (c <=? 8202) || (c =? 8232) || (c =? 8233)
   || (c =? 8239) || (c =? 8287) || (c =? 12288) || (c =? 65279))%N.

Definition isParen (c : char16) : bool :=
  ((c =? LPAREN) || (c =? RPAREN))%N.

Definition isLetter (c : char16) : bool :=
  ((65 <=? c) && (c <=? 90) || (97 <=? c) && (c <=? 122))%N.

Definition isDigit (c : char16) : bool :=
  ((48 <=? c) && (c <=? 57))%N.

Fixpoint dropWhile (p : char16 -> bool) (s : jsstring) : jsstring :=
  match s with
  | [] => []
  | c :: s' => if p c then dropWhile p s' else s
  end.

(** [s.trim()] *)
Definition trim (s : jsstring) : jsstring :=
  rev (dropWhile isWhiteSpace (rev (dropWhile isWhiteSpace s))).

(** [s.replace(/\s+/g, '')] *)
Definition removeWhiteSpace (s : jsstring) : jsstring :=
  filter (fun c => negb (isWhiteSpace c)) s.

(** [s.replace(/[()]/g, '')] *)
Definition removeParens (s : jsstring) : jsstring :=
  filter (fun c => negb (isParen c)) s.

(** [s.split(sep)] for a separator of one code unit: never the empty
    array, the empty string gives one empty piece. *)
Fixpoint split (sep : char16) (s : jsstring) : list jsstring :=
  match s with
  | [] => [[]]
  | c :: s' =>
      if (c =? sep)%N then [] :: split sep s'
      else match split sep s' with
           | [] => [[c]]
           | piece :: pieces => (c :: piece) :: pieces
           end
  end.

(** [pieces.join(sep)] *)
Fixpoint join (sep : jsstring) (pieces : list jsstring) : jsstring :=
  match pieces with
  | [] => []
  | [piece] => piece
  | piece :: rest => piece ++ sep ++ join sep rest
  end.

(** [s.startsWith(prefix)] *)
Fixpoint startsWith (prefix s : jsstring) : bool :=
  match prefix, s with
  | [], _ => true
  | _ :: _, [] => false
  | p :: prefix', c :: s' => (c =? p)%N && startsWith prefix' s'
  end.

(** [s.includes(sub)] *)
Fixpoint includes (sub s : jsstring) : bool :=
  startsWith sub s ||
  match s with
  | [] => false
  | _ :: s' => includes sub s'
  end.

(** [s.substring(1)] *)
Definition substring1 (s : jsstring) : jsstring := tl s.

(** A string is truthy when it is not empty. *)
Definition truthy (s : jsstring) : bool :=
  match s with [] => false | _ :: _ => true end.

(** [`${n}`] for a non-negative integer below 1e21: its decimal digits. *)
Definition decimal (n : nat) : jsstring :=
  lit (NilEmpty.string_of_uint (Nat.to_uint n)).

Fixpoint eqb (s t : jsstring) : bool :=
  match s, t with
  | [], [] => true
  | c :: s', d :: t' => (c =? d)%N && eqb s' t'
  | _, _ => false
  end.

End JS.

Import JS.

(** ** Formula parser and transformer utilities *)

Record Literal := mkLiteral { variable : jsstring; negated : bool }.

Definition Clause := list Literal.
Definition CNFFormula := list Clause.

(** One iteration of the inner loop of [parseFormula]. *)
Definition parseLiteral (clause : Clause) (litStr : jsstring) : Clause :=
  if truthy (trim litStr) then
    let negated := startsWith [NOT] litStr in
    let variable := if negated then substring1 litStr else litStr in
    clause ++ [mkLiteral variable negated]
  else clause.

(** One iteration of the outer loop of [parseFormula]. *)
Definition parseClause (cnf : CNFFormula) (clauseStr : jsstring) : CNFFormula :=
  let cleaned := removeParens clauseStr in
  let literalStrings := split OR cleaned in
  let clause := fold_left parseLiteral literalStrings [] in
  if 0 <? length clause then cnf ++ [clause] else cnf.

Definition parseFormula (input : jsstring) : CNFFormula :=
  let formula := removeWhiteSpace input in
  let clauseStrings := split AND formula in
  fold_left parseClause clauseStrings [].

Definition literalToString (l : Literal) : jsstring :=
  (if negated l then [NOT] else []) ++ variable l.

Definition clauseToString (clause : Clause) : jsstring :=
  [LPAREN] ++ join [SPACE; OR; SPACE] (map literalToString clause) ++ [RPAREN].

Definition formulaToString (cnf : CNFFormula) : jsstring :=
  join [SPACE; AND; SPACE] (map clauseToString cnf).

(** *** [transformTo3CNF]

    The three local variables of the function, threaded through its loops.
    [fresh] is a ghost field the code does not have: it records, in order,
    the names made from [helperVarCount++]; nothing reads it. *)

Module St.
Record t := mk {
  steps : list jsstring;
  result : CNFFormula;
  helperVarCount : nat;
  fresh : list jsstring
}.
End St.

Module Method.
Inductive t := tseitin | padding | split.
End Method.

Record Transformed := mkTransformed {
  formula : CNFFormula;
  steps : list jsstring
}.

(** [steps.push(s)] *)
Definition pushStep (s : jsstring) (st : St.t) : St.t :=
  St.mk (St.steps st ++ [s]) (St.result st) (St.helperVarCount st) (St.fresh st).

(** [result.push(clause)] *)
Definition pushResult (clause : Clause) (st : St.t) : St.t :=
  St.mk (St.steps st) (St.result st ++ [clause]) (St.helperVarCount st) (St.fresh st).

(** [`${prefix}${helperVarCount++}`] *)
Definition freshVar (prefix : jsstring) (st : St.t) : jsstring * St.t :=
  let name := prefix ++ decimal (St.helperVarCount st) in
  (name,
   St.mk (St.steps st) (St.result st) (S (St.helperVarCount st))
         (St.fresh st ++ [name])).

(** [while (remaining.length > 3) { ... }]: the pattern of the first clause
    is [remaining.length > 3], and [r2 :: r3 :: rest] is
    [remaining.slice(2)]. *)
Equations splitWhile (st : St.t) (remaining : Clause) : St.t * Clause
  by wf (length remaining) lt :=
  splitWhile st (r0 :: r1 :: r2 :: r3 :: rest) :=
    let (helperVar, st1) := freshVar (lit "x") st in
    let newClause := [r0; r1; mkLiteral helperVar false] in
    let st2 := pushResult newClause st1 in
    let st3 :=
      pushStep (lit "Created: " ++ formulaToString [newClause]
                ++ lit " with helper " ++ helperVar) st2 in
    splitWhile st3 (mkLiteral helperVar true :: r2 :: r3 :: rest);
  splitWhile st remaining := (st, remaining).

(** Body of the first loop of the splitting branch. *)
Definition splitClause (st : St.t) (clause : Clause) : St.t :=
  if length clause <=? 3 then
    let st1 := pushResult clause st in
    if length clause <? 3 then
      pushStep (lit "Clause " ++ formulaToString [clause] ++ lit " has "
                ++ decimal (length clause) ++ lit " literals - will pad later") st1
    else st1
  else
    let st1 :=
      pushStep (lit "Clause " ++ formulaToString [clause] ++ lit " has "
                ++ decimal (length clause) ++ lit " literals - splitting...") st in
    let (st2, remaining) := splitWhile st1 clause in
    if 0 <? length remaining then
      pushStep (lit "Final part: " ++ formulaToString [remaining])
               (pushResult remaining st2)
    else st2.

(** Callback of [result.map]: the padded clause is appended to the new
    array, which [St.result] holds during the second pass. *)
Definition padClause (st : St.t) (clause : Clause) : St.t :=
  if length clause =? 1 then
    let (padVar, st1) := freshVar (lit "y") st in
    let padded := clause ++ [mkLiteral padVar false; mkLiteral padVar true] in
    pushResult padded
      (pushStep (lit "Padded " ++ formulaToString [clause] ++ lit " to "
                 ++ formulaToString [padded] ++ lit " using " ++ padVar) st1)
  else if length clause =? 2 then
    let (padVar, st1) := freshVar (lit "z") st in
    let padded := clause ++ [mkLiteral padVar false] in
    pushResult padded
      (pushStep (lit "Padded " ++ formulaToString [clause] ++ lit " to "
                 ++ formulaToString [padded] ++ lit " using " ++ padVar) st1)
  else pushResult clause st.

(** [result = result.map(...)] *)
Definition padPass (st : St.t) : St.t :=
  fold_left padClause (St.result st)
    (St.mk (St.steps st) [] (St.helperVarCount st) (St.fresh st)).

Definition inspect {A : Type} (a : A) : {b : A | a = b} := exist _ a eq_refl.

(** [while (padded.length < 3) { ... }] of the padding branch. *)
Equations? padWhile (st : St.t) (padded : Clause) : St.t * Clause
  by wf (3 - length padded) lt :=
  padWhile st padded with inspect (length padded <? 3) := {
    | exist _ true _ =>
        let (padVar, st1) := freshVar (lit "p") st in
        padWhile (pushStep (lit "Added padding variable " ++ padVar) st1)
                 (padded ++ [mkLiteral padVar false]);
    | exist _ false _ => (st, padded) }.
Proof.
  apply Nat.ltb_lt in e. rewrite length_app. simpl.
  destruct padded as [|a [|b [|c padded]]]; simpl in *; lia.
Qed.

(** Body of the loop of the padding branch. *)
Definition paddingClause (st : St.t) (clause : Clause) : St.t :=
  if length clause =? 3 then pushResult clause st
  else if length clause <? 3 then
    let st1 :=
      pushStep (lit "Padding short clause " ++ formulaToString [clause]
                ++ lit "...") st in
    let (st2, padded) := padWhile st1 clause in
    pushResult padded st2
  else
    pushResult (firstn 3 clause)
      (pushStep (lit "Clause " ++ formulaToString [clause]
                 ++ lit " is too long - using first 3 literals (simplified)") st).

(** The run of [transformTo3CNF] up to its [return]. *)
Definition transformRun (cnf : CNFFormula) (method : Method.t) : St.t :=
  let st0 := St.mk [] [] 1 [] in
  let st1 :=
    match method with
    | Method.tseitin | Method.split =>
        let sta := pushStep (lit "Identifying clauses that need splitting...") st0 in
        let stb := fold_left splitClause cnf sta in
        let stc := pushStep (lit "Padding short clauses to exactly 3 literals...") stb in
        padPass stc
    | Method.padding =>
        let sta := pushStep (lit "Using clause padding method...") st0 in
        fold_left paddingClause cnf sta
    end in
  pushStep (lit "Transformation complete! All clauses now have exactly 3 literals.") st1.

Definition transformTo3CNF (cnf : CNFFormula) (method : Method.t) : Transformed :=
  let st := transformRun cnf method in
  mkTransformed (St.result st) (St.steps st).

(** The fresh names one run of [transformTo3CNF] introduces, in order. *)
Definition freshNames (cnf : CNFFormula) (method : Method.t) : list jsstring :=
  St.fresh (transformRun cnf method).

(** The variable names occurring in a formula. *)
Definition variables (cnf : CNFFormula) : list jsstring :=
  map variable (concat cnf).

(** *** [validateFormula] *)

Record Validation := mkValidation {
  valid : bool;
  error : option jsstring
}.

Definition EmptyInput : jsstring := lit "Formula cannot be empty".
Definition UnbalancedParens : jsstring := lit "Unbalanced parentheses".
Definition InvalidCharacter : jsstring :=
  lit "Invalid characters. Use: letters, " ++ [OR] ++ lit ", " ++ [AND]
  ++ lit ", " ++ [NOT] ++ lit ", parentheses".
Definition ConsecutiveOperators : jsstring :=
  lit "Consecutive operators not allowed".

(** The [for (const char of input)] loop, started at [depth]: [None] when
    the loop returns early, otherwise the depth after the last character.
    The loop iterates code points; a surrogate pair is never a
    parenthesis, so counting code units gives the same depth. *)
Fixpoint depthLoop (depth : Z) (input : jsstring) : option Z :=
  match input with
  | [] => Some depth
  | char :: rest =>
      let depth1 := if (char =? LPAREN)%N then (depth + 1)%Z else depth in
      let depth2 := if (char =? RPAREN)%N then (depth1 - 1)%Z else depth1 in
      if (depth2 <? 0)%Z then None else depthLoop depth2 rest
  end.

(** The character class [[A-Za-z0-9\u2228\u2227\u00ac()\s]]. *)
Definition isValidChar (c : char16) : bool :=
  isLetter c || isDigit c || (c =? OR)%N || (c =? AND)%N || (c =? NOT)%N
  || isParen c || isWhiteSpace c.

(** [validChars.test(input)]: the class, one or more times, from the
    start to the end of the input. *)
Definition validChars (input : jsstring) : bool :=
  truthy input && forallb isValidChar input.

Definition validateFormula (input : jsstring) : Validation :=
  if negb (truthy (trim input)) then mkValidation false (Some EmptyInput)
  else
    match depthLoop 0 input with
    | None => mkValidation false (Some UnbalancedParens)
    | Some depth =>
        if negb (depth =? 0)%Z then mkValidation false (Some UnbalancedParens)
        else if negb (validChars input) then
          mkValidation false (Some InvalidCharacter)
        else if includes [AND; AND] input || includes [OR; OR] input then
          mkValidation false (Some ConsecutiveOperators)
        else mkValidation true None
    end.

(** ** Compatibility graph of the clique animation *)

Module Graph.

Record Position := mkPosition { x : nat; y : nat }.

Record Literal := mkLiteral {
  id : jsstring;
  variable : jsstring;
  negated : bool;
  clauseIndex : nat;
  position : Position
}.

Record Edge := mkEdge { from : jsstring; to : jsstring }.

Record t := mk { literals : list Literal; edges : list Edge }.

(** [xs.forEach((x, idx) => ...)], the index starting at [idx]. *)
Fixpoint forEach {A T : Type} (body : T -> A -> nat -> T) (xs : list A)
    (idx : nat) (s : T) : T :=
  match xs with
  | [] => s
  | x :: xs' => forEach body xs' (S idx) (body s x idx)
  end.

Definition positions : list (list Position) :=
  [ [mkPosition 60 80; mkPosition 100 140; mkPosition 140 80];
    [mkPosition 200 80; mkPosition 200 150; mkPosition 240 220];
    [mkPosition 300 150; mkPosition 340 80; mkPosition 380 140] ].

(** [positions[clauseIdx]?.[litIdx] || { x: 200, y: 150 }] *)
Definition positionOf (clauseIdx litIdx : nat) : Position :=
  match nth_error positions clauseIdx with
  | Some row =>
      match nth_error row litIdx with
      | Some p => p
      | None => mkPosition 200 150
      end
  | None => mkPosition 200 150
  end.

(** [`c${clauseIdx}-l${litIdx}`] *)
Definition vertexId (clauseIdx litIdx : nat) : jsstring :=
  lit "c" ++ decimal clauseIdx ++ lit "-l" ++ decimal litIdx.

(** Body of the inner [forEach]. *)
Definition pushLiteral (clauseIdx : nat) (literals : list Literal)
    (l : jsstring) (litIdx : nat) : list Literal :=
  let negated := startsWith [NOT] l in
  let variable := if negated then substring1 l else l in
  literals ++ [mkLiteral (vertexId clauseIdx litIdx) variable negated clauseIdx
                         (positionOf clauseIdx litIdx)].

(** Body of the outer [forEach]. *)
Definition pushClause (literals : list Literal) (clause : jsstring)
    (clauseIdx : nat) : list Literal :=
  let lits := map trim (split OR clause) in
  forEach (pushLiteral clauseIdx) lits 0 literals.

Definition isContradictory (lit1 lit2 : Literal) : bool :=
  JS.eqb (variable lit1) (variable lit2)
  && negb (Bool.eqb (negated lit1) (negated lit2)).

(** Body of the two nested [for] loops over indices [i < j]. *)
Definition pushEdge (literals : list Literal) (i : nat) (edges : list Edge)
    (j : nat) : list Edge :=
  match nth_error literals i, nth_error literals j with
  | Some lit1, Some lit2 =>
      if negb (clauseIndex lit1 =? clauseIndex lit2) then
        if negb (isContradictory lit1 lit2) then
          edges ++ [mkEdge (id lit1) (id lit2)]
        else edges
      else edges
  | _, _ => edges
  end.

Definition edgeLoop (literals : list Literal) : list Edge :=
  let n := length literals in
  fold_left
    (fun edges i => fold_left (pushEdge literals i) (seq (i + 1) (n - (i + 1))) edges)
    (seq 0 n) [].

Definition parseFormulaToGraph (formula : jsstring) : t :=
  let clauses := map (fun c => removeParens (trim c)) (split AND formula) in
  let literals := forEach pushClause clauses 0 [] in
  mk literals (edgeLoop literals).

(** [edges.some(e => (e.from === a && e.to === b) || (e.from === b && e.to === a))] *)
Definition hasEdge (edges : list Edge) (a b : jsstring) : bool :=
  existsb (fun e => JS.eqb (from e) a && JS.eqb (to e) b
                    || JS.eqb (from e) b && JS.eqb (to e) a) edges.

(** [for (const x of xs) { ... }] whose body may [return]. *)
Fixpoint forOf {A R : Type} (xs : list A) (body : A -> option R) : option R :=
  match xs with
  | [] => None
  | x :: xs' =>
      match body x with
      | Some r => Some r
      | None => forOf xs' body
      end
  end.

Definition clauseGroup (literals : list Literal) (c : nat) : list Literal :=
  filter (fun l => clauseIndex l =? c) literals.

(** [findClique] reads [literals] and [edges] of the component, which are
    those of [parseFormulaToGraph(customInput)]. *)
Definition findClique (g : t) : list jsstring :=
  let clauseGroups :=
    (clauseGroup (literals g) 0, clauseGroup (literals g) 1,
     clauseGroup (literals g) 2) in
  let '(group0, group1, group2) := clauseGroups in
  match
    forOf group0 (fun l1 =>
    forOf group1 (fun l2 =>
    forOf group2 (fun l3 =>
      let hasEdge12 := hasEdge (edges g) (id l1) (id l2) in
      let hasEdge13 := hasEdge (edges g) (id l1) (id l3) in
      let hasEdge23 := hasEdge (edges g) (id l2) (id l3) in
      if hasEdge12 && hasEdge13 && hasEdge23
      then Some [id l1; id l2; id l3] else None)))
  with
  | Some clique => clique
  | None => []
  end.

End Graph.

(** * Specification-side definitions *)

(** ** What the strategies do to one clause *)

Definition pos (v : jsstring) : Literal := mkLiteral v false.
Definition neg (v : jsstring) : Literal := mkLiteral v true.

(** The chain a clause is split into: a clause of at most three literals
    is emitted as it is; a longer one gives its first two literals with a
    fresh positive helper, and the chain of the negated helper followed by
    the other literals. *)
Inductive Chain (fresh : list jsstring) : Clause -> list Clause -> Prop :=
| Chain_short : forall c, length c <= 3 -> Chain fresh c [c]
| Chain_step : forall r0 r1 rest x cs,
    2 <= length rest -> In x fresh ->
    Chain fresh (neg x :: rest) cs ->
    Chain fresh (r0 :: r1 :: rest) ([r0; r1; pos x] :: cs).

(** The second pass of the splitting branch on one clause. *)
Inductive Padded (fresh : list jsstring) : Clause -> Clause -> Prop :=
| Padded_one : forall l v, In v fresh -> Padded fresh [l] [l; pos v; neg v]
| Padded_two : forall l1 l2 v, In v fresh -> Padded fresh [l1; l2] [l1; l2; pos v]
| Padded_other : forall c, length c <> 1 -> length c <> 2 -> Padded fresh c c.

(** The padding branch on one clause. *)
Inductive PaddingOnly (fresh : list jsstring) : Clause -> Clause -> Prop :=
| PaddingOnly_long : forall c, 3 < length c -> PaddingOnly fresh c (firstn 3 c)
| PaddingOnly_short : forall c pad,
    length c <= 3 -> length (c ++ pad) = 3 ->
    Forall (fun l => negated l = false /\ In (variable l) fresh) pad ->
    PaddingOnly fresh c (c ++ pad).

(** ** What a piece of the run does to the state *)

(** Names made from the counter: one of the four prefixes of the source
    followed by the decimal digits of the counter. *)
Definition helperPrefixes : list jsstring := [lit "x"; lit "y"; lit "z"; lit "p"].

Inductive Numbered : nat -> list jsstring -> Prop :=
| Numbered_nil : forall start, Numbered start []
| Numbered_cons : forall start p names,
    In p helperPrefixes -> Numbered (S start) names ->
    Numbered start ((p ++ decimal start) :: names).

(** What one piece of the run does to the state: the clauses it appends to
    [result], and the names it takes from the counter. *)
Record Extends (st st' : St.t) (emitted : list Clause) (names : list jsstring)
  : Prop := mkExtends {
  ext_result : St.result st' = St.result st ++ emitted;
  ext_fresh : St.fresh st' = St.fresh st ++ names;
  ext_count : St.helperVarCount st' = St.helperVarCount st + length names;
  ext_names : Numbered (St.helperVarCount st) names
}.

(** *** Fresh names *)

(** A name of the shape the counter gives: [x], [y], [z] or [p] followed
    by the decimal digits of a number. *)
Definition helperShaped (v : jsstring) : Prop :=
  exists p k, In p helperPrefixes /\ v = p ++ decimal k.

(** ** The validator *)

(** Text with nothing but white space. *)
Definition Blank (input : jsstring) : Prop :=
  Forall (fun c => isWhiteSpace c = true) input.

(** Opening minus closing parentheses. *)
Fixpoint depthOf (s : jsstring) : Z :=
  match s with
  | [] => 0
  | c :: s' =>
      ((if (c =? LPAREN)%N then 1 else 0) - (if (c =? RPAREN)%N then 1 else 0)
       + depthOf s')%Z
  end.

(** No prefix closes more parentheses than it opens, and the whole text
    closes all it opens. *)
Definition Balanced (input : jsstring) : Prop :=
  (forall n, (0 <= depthOf (firstn n input))%Z) /\ depthOf input = 0%Z.

(** Letters, digits, the three connectives, parentheses and white space. *)
Definition Allowed (c : char16) : Prop :=
  isLetter c = true \/ isDigit c = true \/ c = OR \/ c = AND \/ c = NOT
  \/ c = LPAREN \/ c = RPAREN \/ isWhiteSpace c = true.

(** [sub] occurs in [s]. *)
Definition Contains (sub s : jsstring) : Prop :=
  exists l r, s = l ++ sub ++ r.

Definition isConnective (c : char16) : Prop := c = AND \/ c = OR \/ c = NOT.

(** Two connective symbols next to each other. *)
Definition ConsecutiveConnectives (s : jsstring) : Prop :=
  exists l a b r, s = l ++ a :: b :: r /\ isConnective a /\ isConnective b.

Definition invalid (reason : jsstring) : Validation :=
  mkValidation false (Some reason).

(** [(x1 | B | C | D)] *)
Definition collidingFormula : CNFFormula :=
  [[pos (lit "x1"); pos (lit "B"); pos (lit "C"); pos (lit "D")]].

Definition andNotText : jsstring := lit "A" ++ [AND; NOT] ++ lit "B".

Definition doubleAndText : jsstring := lit "A" ++ [AND; AND] ++ lit "B".

(** ** Parsing and rendering *)

(** *** The loops of [parseFormula] as maps and filters *)

Definition literalOf (litStr : jsstring) : Literal :=
  let negated := startsWith [NOT] litStr in
  mkLiteral (if negated then substring1 litStr else litStr) negated.

Definition clauseOf (clauseStr : jsstring) : Clause :=
  map literalOf
      (filter (fun litStr => truthy (trim litStr))
              (split OR (removeParens clauseStr))).

(** *** Variable tokens *)

Definition isAlnum (c : char16) : bool := isLetter c || isDigit c.

(** A name made of letters and digits. *)
Definition NameChars (v : jsstring) : Prop :=
  Forall (fun c => isAlnum c = true) v.

(** A variable name of the data model: a non-empty token of letters and
    digits. *)
Definition Token (v : jsstring) : Prop :=
  v <> [] /\ NameChars v.

(** *** Rendered clauses *)

(** A clause of the data model: not empty, every variable name a token. *)
Definition WellFormedClause (c : Clause) : Prop :=
  c <> [] /\ Forall (fun l => Token (variable l)) c.

Definition compactClause (c : Clause) : jsstring :=
  [LPAREN] ++ join [OR] (map literalToString c) ++ [RPAREN].

(** ** Graph lowering *)

(** [xs.map((x, i) => f(i, x))], the index starting at [i]. *)
Fixpoint mapi {A B : Type} (f : nat -> A -> B) (xs : list A) (i : nat) : list B :=
  match xs with
  | [] => []
  | x :: xs' => f i x :: mapi f xs' (S i)
  end.

(** The vertex of the literal substring [l] at position [litIdx] of clause
    [clauseIdx]. *)
Definition vertexOf (clauseIdx litIdx : nat) (l : jsstring) : Graph.Literal :=
  let negated := startsWith [NOT] l in
  Graph.mkLiteral (Graph.vertexId clauseIdx litIdx)
                  (if negated then substring1 l else l) negated clauseIdx
                  (Graph.positionOf clauseIdx litIdx).

(** The clause substrings and the literal substrings the lowering works on. *)
Definition clausePieces (formula : jsstring) : list jsstring :=
  map (fun c => removeParens (trim c)) (split AND formula).

Definition literalPieces (clause : jsstring) : list jsstring :=
  map trim (split OR clause).

Definition clauseVertices (clauseIdx : nat) (clause : jsstring) : list Graph.Literal :=
  mapi (vertexOf clauseIdx) (literalPieces clause) 0.

(** *** The edge loops *)

(** What one iteration of the inner loop adds. *)
Definition edgeAt (literals : list Graph.Literal) (i j : nat) : list Graph.Edge :=
  match nth_error literals i, nth_error literals j with
  | Some lit1, Some lit2 =>
      if negb (Graph.clauseIndex lit1 =? Graph.clauseIndex lit2)
         && negb (Graph.isContradictory lit1 lit2)
      then [Graph.mkEdge (Graph.id lit1) (Graph.id lit2)] else []
  | _, _ => []
  end.

(** *** The vertices of a lowered graph *)

Definition vertexKeys (clauseIdx : nat) : list (nat * jsstring) :=
  [ (clauseIdx, Graph.vertexId clauseIdx 0);
    (clauseIdx, Graph.vertexId clauseIdx 1);
    (clauseIdx, Graph.vertexId clauseIdx 2) ].

Definition keyOf (v : Graph.Literal) : nat * jsstring :=
  (Graph.clauseIndex v, Graph.id v).

(** *** The invariants of the lowering *)

(** Same variable name, opposite negation flags. *)
Definition Complementary (v1 v2 : Graph.Literal) : Prop :=
  Graph.variable v1 = Graph.variable v2 /\ Graph.negated v1 <> Graph.negated v2.

(** An edge of the graph has the two vertices as its ends. *)
Definition Joined (g : Graph.t) (v1 v2 : Graph.Literal) : Prop :=
  exists e, In e (Graph.edges g)
    /\ (Graph.from e = Graph.id v1 /\ Graph.to e = Graph.id v2
        \/ Graph.from e = Graph.id v2 /\ Graph.to e = Graph.id v1).

(** ** Clique search *)

(** What [findClique] may return: the identifiers of three vertices, of
    clause 0, clause 1 and clause 2, joined two by two; or the empty array,
    when there are no three such vertices. *)
Inductive CliqueResult (g : Graph.t) : list jsstring -> Prop :=
| Clique_found : forall l1 l2 l3,
    In l1 (Graph.literals g) -> In l2 (Graph.literals g) -> In l3 (Graph.literals g) ->
    Graph.clauseIndex l1 = 0 -> Graph.clauseIndex l2 = 1 -> Graph.clauseIndex l3 = 2 ->
    Joined g l1 l2 -> Joined g l1 l3 -> Joined g l2 l3 ->
    CliqueResult g [Graph.id l1; Graph.id l2; Graph.id l3]
| Clique_none :
    (forall l1 l2 l3,
       In l1 (Graph.literals g) -> In l2 (Graph.literals g) -> In l3 (Graph.literals g) ->
       Graph.clauseIndex l1 = 0 -> Graph.clauseIndex l2 = 1 -> Graph.clauseIndex l3 = 2 ->
       ~ (Joined g l1 l2 /\ Joined g l1 l3 /\ Joined g l2 l3)) ->
    CliqueResult g [].

(** Four clauses [(A | B | C)]. *)
Definition fourClauses : jsstring :=
  formulaToString
    (repeat [pos (lit "A"); pos (lit "B"); pos (lit "C")] 4).

Definition fourClauseGraph : Graph.t := Graph.parseFormulaToGraph fourClauses.

(** *** Determinism *)

Definition searchIds (edges : list Graph.Edge) (ids0 ids1 ids2 : list jsstring)
  : option (list jsstring) :=
  Graph.forOf ids0 (fun i1 =>
  Graph.forOf ids1 (fun i2 =>
  Graph.forOf ids2 (fun i3 =>
    if Graph.hasEdge edges i1 i2 && Graph.hasEdge edges i1 i3
       && Graph.hasEdge edges i2 i3
    then Some [i1; i2; i3] else None))).

Definition groupIds (keys : list (nat * jsstring)) (c : nat) : list jsstring :=
  map snd (filter (fun k => fst k =? c) keys).

(** ** The scenarios of the specification, and other texts *)

(** [(A | B) & (~C | D | E | F)] *)
Definition scenarioA : CNFFormula :=
  [ [pos (lit "A"); pos (lit "B")];
    [neg (lit "C"); pos (lit "D"); pos (lit "E"); pos (lit "F")] ].

(** [(A) & (B | C)] *)
Definition scenarioB : CNFFormula :=
  [ [pos (lit "A")]; [pos (lit "B"); pos (lit "C")] ].

(** [(A | B | X) & (~C | D | Y) & (~Y | E | F)] *)
Definition scenarioC : CNFFormula :=
  [ [pos (lit "A"); pos (lit "B"); pos (lit "X")];
    [neg (lit "C"); pos (lit "D"); pos (lit "Y")];
    [neg (lit "Y"); pos (lit "E"); pos (lit "F")] ].

Ltac well_formed :=
  repeat first [ discriminate | reflexivity | split | constructor ].

(** Two texts with different variable names and the same graph shape. *)
Definition upperCase : jsstring :=
  formulaToString
    [ [pos (lit "A"); pos (lit "B"); pos (lit "C")];
      [pos (lit "D"); pos (lit "E"); pos (lit "F")];
      [pos (lit "G"); pos (lit "H"); pos (lit "I")] ].

Definition lowerCase : jsstring :=
  formulaToString
    [ [pos (lit "a"); pos (lit "b"); pos (lit "c")];
      [pos (lit "d"); pos (lit "e"); pos (lit "f")];
      [pos (lit "g"); pos (lit "h"); pos (lit "i")] ].

(** *** Lowering the rendered text of a formula *)

(** No white space at either end. *)
Definition Trimmed (s : jsstring) : Prop :=
  (forall c t, s = c :: t -> isWhiteSpace c = false)
  /\ (forall t c, s = t ++ [c] -> isWhiteSpace c = false).

(** Every clause of arity 3, every variable name of letters and digits. *)
Definition ThreeCNF (f : CNFFormula) : Prop :=
  Forall (fun c => length c = 3 /\ Forall (fun l => NameChars (variable l)) c) f.

(** The vertices of the clause [c] at index [ci]. *)
Definition verticesOfClause (ci : nat) (c : Clause) : list Graph.Literal :=
  mapi (fun li l =>
          Graph.mkLiteral (Graph.vertexId ci li) (variable l) (negated l) ci
                          (Graph.positionOf ci li)) c 0.

(** *** The ghost field is not read *)

(** The part of the state the source has. *)
Definition visible (st : St.t) : list jsstring * CNFFormula * nat :=
  (St.steps st, St.result st, St.helperVarCount st).

(** * Further parts of the program *)

(** ** The custom-formula panel of the formula animation *)

Module Path.

(** [type ReductionPath] *)
Inductive t := tseitin | clausePadding | gadgetConstruction.

End Path.

Definition pathDescriptions (path : Path.t) : jsstring :=
  match path with
  | Path.tseitin =>
      lit "Tseitin Transformation - splits long clauses with helper variables"
  | Path.clausePadding =>
      lit "Clause Padding - adds dummy literals to short clauses"
  | Path.gadgetConstruction =>
      lit "Gadget Construction - creates equivalent 3-SAT gadgets"
  end.

(** [methodMap] of [handleCustomFormulaSubmit]. *)
Definition methodMap (path : Path.t) : Method.t :=
  match path with
  | Path.tseitin => Method.tseitin
  | Path.clausePadding => Method.padding
  | Path.gadgetConstruction => Method.split
  end.

Definition NEWLINE : char16 := 10%N.
Definition CHECKMARK : char16 := 9989%N.   (* U+2705 *)

(** The state cells of [FormulaAnimation]. *)
Module Panel.

Record t := mk {
  currentStep : nat;
  selectedPath : Path.t;
  isAutoPlaying : bool;
  showCustomInput : bool;
  customFormula : jsstring;
  showGadgetGraph : bool
}.

End Panel.

(** [`${validation.error}`]: a missing field is rendered as [undefined]. *)
Definition errorText (validation : Validation) : jsstring :=
  match error validation with
  | Some e => e
  | None => lit "undefined"
  end.

Definition errorMessage (validation : Validation) : jsstring :=
  lit "Error: " ++ errorText validation ++ [NEWLINE; NEWLINE]
  ++ lit "Please check your formula and try again.".

(** [transformSteps.map((step, i) => `${i + 1}. ${step}`).join('\n')] *)
Definition numberedSteps (transformSteps : list jsstring) : jsstring :=
  join [NEWLINE]
       (mapi (fun i step => decimal (i + 1) ++ lit ". " ++ step)
             transformSteps 0).

Definition resultMessage (customFormula : jsstring) (transformed : CNFFormula)
    (transformSteps : list jsstring) (selectedPath : Path.t) : jsstring :=
  trim ([NEWLINE; CHECKMARK] ++ lit " Successfully transformed your formula!"
        ++ [NEWLINE; NEWLINE] ++ lit "Original:" ++ [NEWLINE]
        ++ customFormula
        ++ [NEWLINE; NEWLINE] ++ lit "Transformed to 3-CNF:" ++ [NEWLINE]
        ++ formulaToString transformed
        ++ [NEWLINE; NEWLINE] ++ lit "Transformation Steps:" ++ [NEWLINE]
        ++ numberedSteps transformSteps
        ++ [NEWLINE; NEWLINE] ++ lit "Method used: "
        ++ pathDescriptions selectedPath
        ++ [NEWLINE] ++ lit "        ").

(** The callback of [handleCustomFormulaSubmit], run on the state cells the
    handler closed over: the text handed to [alert], and the cells after the
    two setters.  Nothing in the [try] block throws, and the module import
    is taken to succeed. *)
Definition handleCustomFormulaSubmit (p : Panel.t) : jsstring * Panel.t :=
  let validation := validateFormula (Panel.customFormula p) in
  if negb (valid validation) then (errorMessage validation, p)
  else
    let parsed := parseFormula (Panel.customFormula p) in
    let t := transformTo3CNF parsed (methodMap (Panel.selectedPath p)) in
    (resultMessage (Panel.customFormula p) (formula t) (steps t)
                   (Panel.selectedPath p),
     Panel.mk 0 (Panel.selectedPath p) (Panel.isAutoPlaying p) false
              (Panel.customFormula p) (Panel.showGadgetGraph p)).

(** ** What the clique animation draws *)

(** [literals.find(l => l.id === id)] *)
Definition findById (literals : list Graph.Literal) (id : jsstring)
  : option Graph.Literal :=
  find (fun l => JS.eqb (Graph.id l) id) literals.

(** [cliqueNodes.includes(id)] *)
Definition includesId (cliqueNodes : list jsstring) (id : jsstring) : bool :=
  existsb (fun n => JS.eqb n id) cliqueNodes.

(** The attributes of a drawn edge the callback computes from the graph. *)
Record Line := mkLine {
  lineFrom : Graph.Position;
  lineTo : Graph.Position;
  isCliqueEdge : bool
}.

(** The callback of [edges.slice(0, showEdges).map]: [None] is its
    [return null]. *)
Definition edgeLine (g : Graph.t) (highlightClique : bool)
    (cliqueNodes : list jsstring) (edge : Graph.Edge) : option Line :=
  match findById (Graph.literals g) (Graph.from edge),
        findById (Graph.literals g) (Graph.to edge) with
  | Some fromLit, Some toLit =>
      Some (mkLine (Graph.position fromLit) (Graph.position toLit)
                   (highlightClique
                    && includesId cliqueNodes (Graph.from edge)
                    && includesId cliqueNodes (Graph.to edge)))
  | _, _ => None
  end.

(** [`${lit.negated ? NOT : ''}${lit.variable}`] *)
Definition literalLabel (l : Graph.Literal) : jsstring :=
  (if Graph.negated l then [NOT] else []) ++ Graph.variable l.

(** The list of literals in the clique legend. *)
Definition cliqueLabel (g : Graph.t) (cliqueNodes : list jsstring) : jsstring :=
  join (lit ", ")
       (map (fun id => match findById (Graph.literals g) id with
                       | Some l => literalLabel l
                       | None => []
                       end) cliqueNodes).

(** * Further specification-side definitions *)

(** ** Chains and paddings with the names they take *)

(** [Chain], with the helper names in the order they are taken. *)
Inductive ChainOf : list jsstring -> Clause -> list Clause -> Prop :=
| ChainOf_short : forall c, length c <= 3 -> ChainOf [] c [c]
| ChainOf_step : forall r0 r1 rest x ns cs,
    2 <= length rest ->
    ChainOf ns (neg x :: rest) cs ->
    ChainOf (x :: ns) (r0 :: r1 :: rest) ([r0; r1; pos x] :: cs).

(** [Padded], with the padding name it takes. *)
Inductive PaddedOf : list jsstring -> Clause -> Clause -> Prop :=
| PaddedOf_one : forall l v, PaddedOf [v] [l] [l; pos v; neg v]
| PaddedOf_two : forall l1 l2 v, PaddedOf [v] [l1; l2] [l1; l2; pos v]
| PaddedOf_other : forall c, length c <> 1 -> length c <> 2 -> PaddedOf [] c c.

(** The first loop of the splitting branch on a formula. *)
Inductive ChainsOf : list jsstring -> CNFFormula -> list Clause -> Prop :=
| ChainsOf_nil : ChainsOf [] [] []
| ChainsOf_cons : forall ns c cs ms f out,
    ChainOf ns c cs -> ChainsOf ms f out ->
    ChainsOf (ns ++ ms) (c :: f) (cs ++ out).

(** The second pass of the splitting branch on the clauses of the first. *)
Inductive PaddedAll : list jsstring -> list Clause -> list Clause -> Prop :=
| PaddedAll_nil : PaddedAll [] [] []
| PaddedAll_cons : forall ns c c' ms cs cs',
    PaddedOf ns c c' -> PaddedAll ms cs cs' ->
    PaddedAll (ns ++ ms) (c :: cs) (c' :: cs').

(** ** Truth of a formula under an assignment *)

Definition Assignment := jsstring -> bool.

Definition holds (a : Assignment) (l : Literal) : bool :=
  if negated l then negb (a (variable l)) else a (variable l).

Definition satisfiesClause (a : Assignment) (c : Clause) : bool :=
  existsb (holds a) c.

Definition satisfies (a : Assignment) (f : CNFFormula) : bool :=
  forallb (satisfiesClause a) f.

(** The number of clauses the splitting strategy makes of a clause. *)
Definition chainLength (c : Clause) : nat :=
  if length c <=? 3 then 1 else length c - 2.

(** A clause the second pass pads: one or two literals. *)
Definition needsPadding (c : Clause) : bool :=
  (length c =? 1) || (length c =? 2).

(** The assignment [a] with the value [b] at the name [x]. *)
Definition override (a : Assignment) (x : jsstring) (b : bool) : Assignment :=
  fun v => if JS.eqb v x then b else a v.

(** ** What the parser reads and returns *)

(** The text with white space and parentheses taken out. *)
Definition erase (s : jsstring) : jsstring :=
  removeParens (removeWhiteSpace s).

(** A character that is not white space, a parenthesis, AND or OR. *)
Definition plainChar (c : char16) : Prop :=
  isWhiteSpace c = false /\ isParen c = false /\ c <> AND /\ c <> OR.

(** A literal as the parser makes it: plain characters in the name; when it
    is positive, a name that is not empty and does not start with NOT. *)
Definition ParsedLiteral (l : Literal) : Prop :=
  Forall plainChar (variable l)
  /\ (negated l = false ->
      exists c v, variable l = c :: v /\ c <> NOT).

Definition ParsedClause (c : Clause) : Prop :=
  c <> [] /\ Forall ParsedLiteral c.

(** A name of letters, digits and NOT symbols: the characters of a name in
    a text the validator accepts. *)
Definition SymbolChars (v : jsstring) : Prop :=
  Forall (fun c => isAlnum c = true \/ c = NOT) v.

Definition isBinary (c : char16) : bool := ((c =? AND) || (c =? OR))%N.

(** Every AND and every OR of the text is followed by a space. *)
Fixpoint opsSpaced (s : jsstring) : bool :=
  match s with
  | [] => true
  | c :: t =>
      (if isBinary c
       then match t with d :: _ => (d =? SPACE)%N | [] => false end
       else true)
      && opsSpaced t
  end.

(** The formula the success message of the handler shows. *)
Definition shown (p : Panel.t) : CNFFormula :=
  formula (transformTo3CNF (parseFormula (Panel.customFormula p))
                           (methodMap (Panel.selectedPath p))).


(** ** The reduction, read on assignments *)

(** The assignment that makes exactly the variables of the positive
    literals of [chosen] true. *)
Definition chosenTrue (chosen : list Literal) : Assignment :=
  fun v => existsb (fun l => JS.eqb (variable l) v && negb (negated l)) chosen.

(** The vertex [v] stands for the literal [l] of clause [ci]. *)
Definition StandsFor (f : CNFFormula) (v : Graph.Literal) (ci : nat)
    (l : Literal) : Prop :=
  exists c, nth_error f ci = Some c /\ In l c
    /\ Graph.clauseIndex v = ci
    /\ Graph.variable v = variable l /\ Graph.negated v = negated l.

(** ** Texts and panels for the instances *)

(** Clauses of one, two and five literals:
    [(A) & (B | ~C) & (D | E | F | G | H)]. *)
Definition mixedArities : CNFFormula :=
  [ [pos (lit "A")];
    [pos (lit "B"); neg (lit "C")];
    [pos (lit "D"); pos (lit "E"); pos (lit "F"); pos (lit "G"); pos (lit "H")] ].

(** One clause of four literals: [(~C | D | E | F)]. *)
Definition longClause : CNFFormula :=
  [ [neg (lit "C"); pos (lit "D"); pos (lit "E"); pos (lit "F")] ].

Definition allTrue : Assignment := fun _ => true.
Definition allFalse : Assignment := fun _ => false.

(** The panel as it opens, with the text of the first scenario. *)
Definition openPanel : Panel.t :=
  Panel.mk 2 Path.tseitin false true (formulaToString scenarioA) false.

(** The panel with the text shown for [openPanel], and another path. *)
Definition againPanel : Panel.t :=
  Panel.mk 0 Path.clausePadding false true
           (formulaToString (shown openPanel)) false.

Definition spacedText : jsstring :=
  lit "( A " ++ [OR] ++ lit " B )" ++ [SPACE; AND; SPACE] ++ lit "(C)".
Definition compactText : jsstring :=
  lit "A" ++ [OR] ++ lit "B" ++ [AND] ++ lit "C".

(** * Properties *)

(** ** State bookkeeping *)

Section StateLemmas.

Variable st : St.t.

Lemma result_pushStep s : St.result (pushStep s st) = St.result st.
Proof. reflexivity. Qed.

Lemma result_pushResult c : St.result (pushResult c st) = St.result st ++ [c].
Proof. reflexivity. Qed.

Lemma fresh_pushStep s : St.fresh (pushStep s st) = St.fresh st.
Proof. reflexivity. Qed.

Lemma fresh_pushResult c : St.fresh (pushResult c st) = St.fresh st.
Proof. reflexivity. Qed.

Lemma count_pushStep s : St.helperVarCount (pushStep s st) = St.helperVarCount st.
Proof. reflexivity. Qed.

Lemma count_pushResult c :
  St.helperVarCount (pushResult c st) = St.helperVarCount st.
Proof. reflexivity. Qed.

End StateLemmas.

Lemma Numbered_app start n1 n2 :
  Numbered start n1 -> Numbered (start + length n1) n2 -> Numbered start (n1 ++ n2).
Proof.
  induction 1 as [start | start p names Hp Hn IH]; simpl; intros H2.
  - rewrite Nat.add_0_r in H2. exact H2.
  - constructor; [exact Hp|]. apply IH.
    replace (S start + length names) with (start + S (length names)) by lia.
    exact H2.
Qed.

Lemma Extends_refl st : Extends st st [] [].
Proof. split; simpl; rewrite ?app_nil_r; auto. constructor. Qed.

Lemma Extends_trans st1 st2 st3 e1 e2 n1 n2 :
  Extends st1 st2 e1 n1 -> Extends st2 st3 e2 n2 ->
  Extends st1 st3 (e1 ++ e2) (n1 ++ n2).
Proof.
  intros [r1 f1 c1 m1] [r2 f2 c2 m2]. split.
  - rewrite r2, r1, app_assoc. reflexivity.
  - rewrite f2, f1, app_assoc. reflexivity.
  - rewrite c2, c1, length_app. lia.
  - apply Numbered_app; [exact m1 | rewrite <- c1; exact m2].
Qed.

Lemma Extends_pushStep st s : Extends st (pushStep s st) [] [].
Proof. split; simpl; rewrite ?app_nil_r; auto. constructor. Qed.

Lemma Extends_pushResult st c : Extends st (pushResult c st) [c] [].
Proof. split; simpl; rewrite ?app_nil_r; auto. constructor. Qed.

Lemma Extends_freshVar st p :
  In p helperPrefixes ->
  Extends st (snd (freshVar p st)) [] [fst (freshVar p st)].
Proof.
  intros Hp. split; simpl; rewrite ?app_nil_r; auto; [lia|].
  constructor; [exact Hp | constructor].
Qed.

Lemma Extends_then st1 st2 st3 e1 e2 n1 n2 e n :
  Extends st1 st2 e1 n1 -> Extends st2 st3 e2 n2 ->
  e = e1 ++ e2 -> n = n1 ++ n2 -> Extends st1 st3 e n.
Proof. intros H1 H2 -> ->. eapply Extends_trans; eassumption. Qed.

Lemma in_prefix_x : In (lit "x") helperPrefixes.
Proof. simpl; auto. Qed.
Lemma in_prefix_y : In (lit "y") helperPrefixes.
Proof. simpl; auto. Qed.
Lemma in_prefix_z : In (lit "z") helperPrefixes.
Proof. simpl; auto. Qed.
Lemma in_prefix_p : In (lit "p") helperPrefixes.
Proof. simpl; auto 6. Qed.

(** *** The splitting strategy *)

Lemma splitWhile_short st remaining :
  length remaining <= 3 -> splitWhile st remaining = (st, remaining).
Proof.
  destruct remaining as [|a [|b [|c [|d rest]]]]; simpl; intros; 
    simp splitWhile; auto; lia.
Qed.

Lemma splitWhile_chain remaining : forall st,
  remaining <> [] ->
  exists emitted names,
    Extends st (fst (splitWhile st remaining)) emitted names
    /\ 1 <= length (snd (splitWhile st remaining)) <= 3
    /\ Forall (fun c => length c = 3) emitted
    /\ forall fresh, incl names fresh ->
         Chain fresh remaining (emitted ++ [snd (splitWhile st remaining)]).
Proof.
  remember (length remaining) as n eqn:Hn. revert remaining Hn.
  induction n as [n IH] using lt_wf_ind. intros remaining Hn st Hne.
  destruct remaining as [|r0 [|r1 [|r2 [|r3 rest]]]]; try congruence.
  1-3: exists [], []; rewrite splitWhile_short by (simpl; lia); simpl;
       split; [apply Extends_refl | split; [lia | split; [constructor |]]];
       intros; apply Chain_short; simpl; lia.
  simp splitWhile. simpl.
  set (x := lit "x" ++ decimal (St.helperVarCount st)) in *.
  match goal with |- context [splitWhile ?s ?r] =>
    destruct (IH (length r) ltac:(subst n; simpl; lia) r eq_refl s ltac:(discriminate))
      as (em & nm & Hext & Hlen & Hall & Hch) end.
  exists ([r0; r1; pos x] :: em), (x :: nm).
  split; [|split; [exact Hlen | split; [constructor; auto |]]].
  - eapply Extends_then;
      [ eapply Extends_then;
          [ apply (Extends_freshVar st in_prefix_x)
          | eapply Extends_then;
              [ apply Extends_pushResult | apply Extends_pushStep
              | reflexivity | reflexivity ]
          | reflexivity | reflexivity ]
      | exact Hext | reflexivity | reflexivity ].
  - intros fresh Hincl. simpl. apply Chain_step.
    + simpl. lia.
    + apply Hincl. left. reflexivity.
    + apply Hch. intros v Hv. apply Hincl. right. exact Hv.
Qed.

Lemma Chain_arity fresh c cs :
  Chain fresh c cs -> c <> [] -> Forall (fun c' => 1 <= length c' <= 3) cs.
Proof.
  induction 1 as [c Hc | r0 r1 rest x cs Hrest Hx Hch IH]; intros Hne.
  - constructor; [|constructor]. destruct c; [congruence | simpl in *; lia].
  - constructor; [simpl; lia | apply IH; discriminate].
Qed.

Lemma Chain_mono fresh fresh' c cs :
  incl fresh fresh' -> Chain fresh c cs -> Chain fresh' c cs.
Proof.
  intros Hincl. induction 1; [apply Chain_short | apply Chain_step]; auto.
Qed.

Lemma splitClause_chain st clause :
  exists emitted names,
    Extends st (splitClause st clause) emitted names
    /\ forall fresh, incl names fresh -> Chain fresh clause emitted.
Proof.
  unfold splitClause.
  destruct (length clause <=? 3) eqn:Hle.
  - apply Nat.leb_le in Hle. exists [clause], []. split.
    + destruct (length clause <? 3); [|apply Extends_pushResult].
      eapply Extends_then;
        [apply Extends_pushResult | apply Extends_pushStep | reflexivity | reflexivity].
    + intros. apply Chain_short. exact Hle.
  - apply Nat.leb_gt in Hle.
    assert (Hne : clause <> []) by (destruct clause; simpl in *; [lia | discriminate]).
    match goal with |- context [splitWhile ?s clause] =>
      destruct (@splitWhile_chain clause s Hne) as (em & nm & Hext & Hlen & _ & Hch);
      destruct (splitWhile s clause) as [st2 remaining] eqn:Hsw end.
    simpl in *.
    exists (em ++ [remaining]), nm. split; [|exact Hch].
    replace (0 <? length remaining) with true by (symmetry; apply Nat.ltb_lt; lia).
    eapply Extends_then;
      [ apply Extends_pushStep
      | eapply Extends_then;
          [ exact Hext
          | eapply Extends_then;
              [ apply Extends_pushResult | apply Extends_pushStep
              | reflexivity | reflexivity ]
          | reflexivity | reflexivity ]
      | reflexivity | symmetry; apply app_nil_r ].
Qed.

Lemma splitLoop_chain cnf : forall st,
  exists css names,
    Extends st (fold_left splitClause cnf st) (concat css) names
    /\ forall fresh, incl names fresh -> Forall2 (Chain fresh) cnf css.
Proof.
  induction cnf as [|clause cnf IH]; intros st; simpl.
  - exists [], []. split; [apply Extends_refl | constructor].
  - destruct (splitClause_chain st clause) as (em & nm & Hext & Hch).
    destruct (IH (splitClause st clause)) as (css & nms & Hext' & Hall).
    exists (em :: css), (nm ++ nms). split.
    + simpl. eapply Extends_trans; eassumption.
    + intros fresh Hincl. constructor.
      * apply Hch. intros v Hv. apply Hincl, in_or_app. auto.
      * apply Hall. intros v Hv. apply Hincl, in_or_app. auto.
Qed.

Lemma padClause_padded st clause :
  exists clause' names,
    Extends st (padClause st clause) [clause'] names
    /\ forall fresh, incl names fresh -> Padded fresh clause clause'.
Proof.
  unfold padClause.
  destruct (length clause =? 1) eqn:H1; [|destruct (length clause =? 2) eqn:H2].
  - apply Nat.eqb_eq in H1. destruct clause as [|l [|? ?]]; try discriminate.
    simpl. eexists; eexists (_ :: nil). split.
    + eapply Extends_then;
        [ apply (Extends_freshVar st in_prefix_y)
        | eapply Extends_then;
            [ apply Extends_pushStep | apply Extends_pushResult
            | reflexivity | reflexivity ]
        | reflexivity | reflexivity ].
    + intros fresh Hincl. apply Padded_one. apply Hincl. left. reflexivity.
  - apply Nat.eqb_eq in H2. destruct clause as [|l1 [|l2 [|? ?]]]; try discriminate.
    simpl. eexists; eexists (_ :: nil). split.
    + eapply Extends_then;
        [ apply (Extends_freshVar st in_prefix_z)
        | eapply Extends_then;
            [ apply Extends_pushStep | apply Extends_pushResult
            | reflexivity | reflexivity ]
        | reflexivity | reflexivity ].
    + intros fresh Hincl. apply Padded_two. apply Hincl. left. reflexivity.
  - apply Nat.eqb_neq in H1, H2. exists clause, []. split.
    + apply Extends_pushResult.
    + intros. apply Padded_other; assumption.
Qed.

Lemma padLoop_padded cs : forall st,
  exists cs' names,
    Extends st (fold_left padClause cs st) cs' names
    /\ forall fresh, incl names fresh -> Forall2 (Padded fresh) cs cs'.
Proof.
  induction cs as [|clause cs IH]; intros st; simpl.
  - exists [], []. split; [apply Extends_refl | constructor].
  - destruct (padClause_padded st clause) as (c' & nm & Hext & Hp).
    destruct (IH (padClause st clause)) as (cs' & nms & Hext' & Hall).
    exists (c' :: cs'), (nm ++ nms). split.
    + change (c' :: cs') with ([c'] ++ cs').
      eapply Extends_trans; eassumption.
    + intros fresh Hincl. constructor.
      * apply Hp. intros v Hv. apply Hincl, in_or_app. auto.
      * apply Hall. intros v Hv. apply Hincl, in_or_app. auto.
Qed.

Lemma Padded_arity fresh c c' :
  Padded fresh c c' -> 1 <= length c <= 3 -> length c' = 3.
Proof. destruct 1; simpl; lia. Qed.

Lemma Chain_all_arity fresh f css :
  Forall2 (Chain fresh) f css -> Forall (fun c => c <> []) f ->
  Forall (fun c => 1 <= length c <= 3) (concat css).
Proof.
  induction 1 as [|c cs f' css' H1 H2 IH]; intros Hne; simpl.
  - constructor.
  - inversion Hne; subst. apply Forall_app. split.
    + eapply Chain_arity; eassumption.
    + apply IH. assumption.
Qed.

Lemma Padded_all_arity fresh cs cs' :
  Forall2 (Padded fresh) cs cs' -> Forall (fun c => 1 <= length c <= 3) cs ->
  Forall (fun c => length c = 3) cs'.
Proof.
  induction 1 as [|c c' cs cs' H1 H2 IH]; intros Hmid; constructor.
  - inversion Hmid; subst. eapply Padded_arity; eassumption.
  - apply IH. inversion Hmid; assumption.
Qed.

(** *** The padding-only strategy *)

Lemma padWhile_full st padded :
  3 <= length padded -> padWhile st padded = (st, padded).
Proof.
  intros H. rewrite padWhile_equation_1.
  destruct (inspect (length padded <? 3)) as [[|] e]; simpl.
  - apply Nat.ltb_lt in e. lia.
  - reflexivity.
Qed.

Lemma padWhile_step st padded :
  length padded < 3 ->
  padWhile st padded =
  let (padVar, st1) := freshVar (lit "p") st in
  padWhile (pushStep (lit "Added padding variable " ++ padVar) st1)
           (padded ++ [mkLiteral padVar false]).
Proof.
  intros H. rewrite padWhile_equation_1.
  destruct (inspect (length padded <? 3)) as [[|] e]; simpl.
  - reflexivity.
  - apply Nat.ltb_ge in e. lia.
Qed.

Lemma padWhile_pads padded : forall st,
  length padded <= 3 ->
  exists names,
    Extends st (fst (padWhile st padded)) [] names
    /\ snd (padWhile st padded) = padded ++ map pos names
    /\ length (snd (padWhile st padded)) = 3.
Proof.
  remember (3 - length padded) as n eqn:Hn. revert padded Hn.
  induction n as [|n IH]; intros padded Hn st Hle.
  - rewrite padWhile_full by lia. exists []. simpl.
    rewrite app_nil_r. split; [apply Extends_refl | split; [reflexivity | lia]].
  - rewrite padWhile_step by lia. simpl.
    set (p := lit "p" ++ decimal (St.helperVarCount st)).
    match goal with |- context [padWhile ?s ?q] =>
      assert (Hq : length q = S (length padded))
        by (rewrite length_app; cbn [length]; lia);
      destruct (IH q ltac:(lia) s ltac:(lia)) as (nm & Hext & Hsnd & Hlen) end.
    exists (p :: nm). split; [|split].
    + eapply Extends_then;
        [ eapply Extends_then;
            [ apply (Extends_freshVar st in_prefix_p) | apply Extends_pushStep
            | reflexivity | reflexivity ]
        | exact Hext | reflexivity | reflexivity ].
    + rewrite Hsnd, <- app_assoc. reflexivity.
    + exact Hlen.
Qed.

Lemma paddingClause_spec st clause :
  exists clause' names,
    Extends st (paddingClause st clause) [clause'] names
    /\ forall fresh, incl names fresh -> PaddingOnly fresh clause clause'.
Proof.
  unfold paddingClause.
  destruct (length clause =? 3) eqn:H3; [|destruct (length clause <? 3) eqn:Hlt].
  - apply Nat.eqb_eq in H3. exists clause, []. split.
    + apply Extends_pushResult.
    + intros fresh _. rewrite <- (app_nil_r clause) at 2.
      apply PaddingOnly_short; rewrite ?app_nil_r; auto. lia.
  - apply Nat.ltb_lt in Hlt.
    match goal with |- context [padWhile ?s clause] =>
      destruct (@padWhile_pads clause s ltac:(lia)) as (nm & Hext & Hsnd & Hlen);
      destruct (padWhile s clause) as [st2 padded] eqn:Hpw end.
    simpl in *. subst padded. exists (clause ++ map pos nm), nm. split.
    + eapply Extends_then;
        [ apply Extends_pushStep
        | eapply Extends_then;
            [ exact Hext | apply Extends_pushResult | reflexivity
            | symmetry; apply app_nil_r ]
        | reflexivity | reflexivity ].
    + intros fresh Hincl. apply PaddingOnly_short; [lia | exact Hlen |].
      apply Forall_forall. intros l Hl. apply in_map_iff in Hl.
      destruct Hl as (v & <- & Hv). split; [reflexivity | apply Hincl, Hv].
  - apply Nat.eqb_neq in H3. apply Nat.ltb_ge in Hlt.
    exists (firstn 3 clause), []. split.
    + eapply Extends_then;
        [apply Extends_pushStep | apply Extends_pushResult | reflexivity | reflexivity].
    + intros fresh _. apply PaddingOnly_long. lia.
Qed.

Lemma paddingLoop_spec cnf : forall st,
  exists cs' names,
    Extends st (fold_left paddingClause cnf st) cs' names
    /\ forall fresh, incl names fresh -> Forall2 (PaddingOnly fresh) cnf cs'.
Proof.
  induction cnf as [|clause cnf IH]; intros st; simpl.
  - exists [], []. split; [apply Extends_refl | constructor].
  - destruct (paddingClause_spec st clause) as (c' & nm & Hext & Hp).
    destruct (IH (paddingClause st clause)) as (cs' & nms & Hext' & Hall).
    exists (c' :: cs'), (nm ++ nms). split.
    + change (c' :: cs') with ([c'] ++ cs').
      eapply Extends_trans; eassumption.
    + intros fresh Hincl. constructor.
      * apply Hp. intros v Hv. apply Hincl, in_or_app. auto.
      * apply Hall. intros v Hv. apply Hincl, in_or_app. auto.
Qed.

Lemma PaddingOnly_arity fresh c c' : PaddingOnly fresh c c' -> length c' = 3.
Proof.
  destruct 1 as [c H | c pad H1 H2 H3]; [|exact H2].
  rewrite length_firstn. lia.
Qed.

(** C5. With the padding-only strategy every input clause gives exactly one
    output clause, of arity 3: a clause of more than three literals gives
    its first three literals, in order; a clause of at most three literals
    is kept whole and followed by fresh positive padding literals. *)
Theorem padding_only_arity_three (f : CNFFormula) :
  Forall2 (PaddingOnly (freshNames f Method.padding)) f
          (formula (transformTo3CNF f Method.padding))
  /\ Forall (fun c => length c = 3) (formula (transformTo3CNF f Method.padding)).
Proof.
  unfold transformTo3CNF, freshNames, transformRun. simpl formula.
  rewrite fresh_pushStep.
  set (sta := pushStep _ (St.mk [] [] 1 [])).
  destruct (paddingLoop_spec f sta) as (cs' & nms & [r fr _ _] & Hall).
  simpl in r, fr. rewrite r, fr.
  assert (H : Forall2 (PaddingOnly nms) f cs') by (apply Hall, incl_refl).
  split; [exact H|].
  clear - H. induction H; constructor; eauto using PaddingOnly_arity.
Qed.
(** *** Fresh names *)

Lemma lit_injective s t : lit s = lit t -> s = t.
Proof.
  unfold lit. intros H.
  rewrite <- (string_of_list_ascii_of_string s), <- (string_of_list_ascii_of_string t).
  f_equal. revert H.
  generalize (list_ascii_of_string s) (list_ascii_of_string t).
  induction l as [|a l IH]; intros [|b l']; simpl; intros H; try discriminate; auto.
  injection H as Hab Hl. f_equal; [|apply IH; exact Hl].
  rewrite <- (ascii_N_embedding a), <- (ascii_N_embedding b), Hab. reflexivity.
Qed.

Lemma decimal_injective n k : decimal n = decimal k -> n = k.
Proof.
  unfold decimal. intros H. apply lit_injective in H.
  assert (Hu : Some (Nat.to_uint n) = Some (Nat.to_uint k)).
  { rewrite <- !NilEmpty.usu, H. reflexivity. }
  injection Hu as Hu.
  rewrite <- (Unsigned.of_to n), <- (Unsigned.of_to k), Hu. reflexivity.
Qed.

Lemma helperName_injective p q n k :
  In p helperPrefixes -> In q helperPrefixes ->
  p ++ decimal n = q ++ decimal k -> n = k.
Proof.
  intros Hp Hq H. apply decimal_injective.
  simpl in Hp, Hq.
  repeat (destruct Hp as [<- | Hp]; [|]); try contradiction;
  repeat (destruct Hq as [<- | Hq]; [|]); try contradiction;
  simpl in H; injection H; auto.
Qed.

Lemma Numbered_bounds start names :
  Numbered start names ->
  forall v, In v names ->
    exists p k, In p helperPrefixes /\ start <= k /\ v = p ++ decimal k.
Proof.
  induction 1 as [start | start p names Hp Hn IH]; intros v Hv.
  - contradiction.
  - destruct Hv as [<- | Hv].
    + exists p, start. auto.
    + destruct (IH v Hv) as (q & k & Hq & Hk & ->).
      exists q, k. repeat split; auto. lia.
Qed.

Lemma Numbered_NoDup start names : Numbered start names -> NoDup names.
Proof.
  induction 1 as [start | start p names Hp Hn IH]; constructor; [|exact IH].
  intros Hin.
  destruct (Numbered_bounds Hn _ Hin) as (q & k & Hq & Hk & Heq).
  apply helperName_injective in Heq; auto. lia.
Qed.

Lemma transformRun_numbered f m : Numbered 1 (freshNames f m).
Proof.
  unfold freshNames, transformRun. rewrite fresh_pushStep.
  set (st0 := St.mk [] [] 1 []).
  destruct m.
  2:{ destruct (paddingLoop_spec f (pushStep (lit "Using clause padding method...") st0))
        as (cs' & nms & [_ fr _ Hn] & _).
      rewrite fr. exact Hn. }
  all: unfold padPass;
    match goal with |- context [fold_left splitClause ?g ?s] =>
      destruct (splitLoop_chain g s) as (css & nms & [_ fb cb Hb] & _);
      set (stb := fold_left splitClause g s) in * end;
    match goal with |- context [fold_left padClause ?cs ?s] =>
      destruct (padLoop_padded cs s) as (cs' & nms' & [_ fd _ Hd] & _) end;
    rewrite fd; simpl in *; rewrite fb; simpl;
    apply (@Numbered_app 1 nms nms' Hb); rewrite cb in Hd; exact Hd.
Qed.

(** C6, as the code has it. The fresh names of one run are pairwise
    distinct, and a fresh name differs from every variable name of the input
    that is not itself a letter [x], [y], [z] or [p] followed by the decimal
    digits of a number. *)
Theorem fresh_names_distinct (f : CNFFormula) (m : Method.t) :
  NoDup (freshNames f m)
  /\ Forall helperShaped (freshNames f m)
  /\ forall v, In v (variables f) -> ~ helperShaped v -> ~ In v (freshNames f m).
Proof.
  pose proof (transformRun_numbered f m) as Hn.
  assert (Hshaped : forall v, In v (freshNames f m) -> helperShaped v).
  { intros v Hin. destruct (Numbered_bounds Hn _ Hin) as (p & k & Hp & _ & ->).
    exists p, k. auto. }
  split; [|split].
  - eapply Numbered_NoDup; eassumption.
  - apply Forall_forall, Hshaped.
  - intros v _ Hshape Hin. apply Hshape, Hshaped, Hin.
Qed.

(** The helper [x1] of the split of [(x1 | B | C | D)] is the variable [x1]
    of the input. *)
Lemma fresh_name_collides :
  In (lit "x1") (freshNames collidingFormula Method.split)
  /\ In (lit "x1") (variables collidingFormula)
  /\ ~ (forall v, In v (freshNames collidingFormula Method.split) ->
                  ~ In v (variables collidingFormula)).
Proof.
  assert (H1 : In (lit "x1") (freshNames collidingFormula Method.split))
    by (left; reflexivity).
  assert (H2 : In (lit "x1") (variables collidingFormula))
    by (left; reflexivity).
  split; [exact H1 | split; [exact H2|]].
  intros H. exact (H _ H1 H2).
Qed.

(** C9. The method ['tseitin'] runs the branch of the method ['split']: the
    two calls return the same formula, and the same steps. *)
Theorem tseitin_equals_split (f : CNFFormula) :
  formula (transformTo3CNF f Method.tseitin)
  = formula (transformTo3CNF f Method.split)
  /\ steps (transformTo3CNF f Method.tseitin)
     = steps (transformTo3CNF f Method.split).
Proof. split; reflexivity. Qed.

(** *** The ghost field is not read *)

Lemma visible_inv st st' :
  visible st = visible st' ->
  St.steps st = St.steps st' /\ St.result st = St.result st'
  /\ St.helperVarCount st = St.helperVarCount st'.
Proof. unfold visible. intros E. injection E. auto. Qed.

Lemma visible_pushStep s st st' :
  visible st = visible st' -> visible (pushStep s st) = visible (pushStep s st').
Proof.
  intros E. apply visible_inv in E. destruct E as (E1 & E2 & E3).
  unfold visible, pushStep. simpl. rewrite E1, E2, E3. reflexivity.
Qed.

Lemma visible_pushResult c st st' :
  visible st = visible st' -> visible (pushResult c st) = visible (pushResult c st').
Proof.
  intros E. apply visible_inv in E. destruct E as (E1 & E2 & E3).
  unfold visible, pushResult. simpl. rewrite E1, E2, E3. reflexivity.
Qed.

Lemma visible_freshVar p st st' :
  visible st = visible st' ->
  fst (freshVar p st) = fst (freshVar p st')
  /\ visible (snd (freshVar p st)) = visible (snd (freshVar p st')).
Proof.
  intros E. apply visible_inv in E. destruct E as (E1 & E2 & E3).
  unfold visible, freshVar. simpl. rewrite E1, E2, E3. auto.
Qed.

Lemma visible_splitWhile remaining : forall st st',
  visible st = visible st' ->
  visible (fst (splitWhile st remaining)) = visible (fst (splitWhile st' remaining))
  /\ snd (splitWhile st remaining) = snd (splitWhile st' remaining).
Proof.
  remember (length remaining) as n eqn:Hn. revert remaining Hn.
  induction n as [n IH] using lt_wf_ind. intros remaining Hn st st' E.
  destruct remaining as [|r0 [|r1 [|r2 [|r3 rest]]]];
    try (rewrite !splitWhile_short by (simpl; lia); simpl; auto; fail).
  simp splitWhile.
  destruct (visible_freshVar (lit "x") E) as [Ex Es].
  destruct (freshVar (lit "x") st) as [x st1],
           (freshVar (lit "x") st') as [x' st1']. simpl in Ex, Es. subst x'.
  apply (IH (S (S (S (length rest))))); [subst n; simpl; lia | reflexivity |].
  apply visible_pushStep, visible_pushResult, Es.
Qed.

Lemma visible_splitClause clause st st' :
  visible st = visible st' ->
  visible (splitClause st clause) = visible (splitClause st' clause).
Proof.
  intros E. unfold splitClause.
  destruct (length clause <=? 3).
  - destruct (length clause <? 3); auto using visible_pushStep, visible_pushResult.
  - match goal with |- context [splitWhile (pushStep ?s st) clause] =>
      destruct (@visible_splitWhile clause (pushStep s st) (pushStep s st')
                  (visible_pushStep s E)) as [E1 E2] end.
    destruct (splitWhile _ clause) as [st2 remaining].
    destruct (splitWhile _ clause) as [st2' remaining'].
    simpl in E1, E2. subst remaining'.
    destruct (0 <? length remaining); auto using visible_pushStep, visible_pushResult.
Qed.

Lemma visible_padClause clause st st' :
  visible st = visible st' ->
  visible (padClause st clause) = visible (padClause st' clause).
Proof.
  intros E. unfold padClause.
  destruct (length clause =? 1); [|destruct (length clause =? 2)].
  - destruct (visible_freshVar (lit "y") E) as [Ex Es].
    destruct (freshVar (lit "y") st) as [x st1],
             (freshVar (lit "y") st') as [x' st1']. simpl in Ex, Es. subst x'.
    auto using visible_pushStep, visible_pushResult.
  - destruct (visible_freshVar (lit "z") E) as [Ex Es].
    destruct (freshVar (lit "z") st) as [x st1],
             (freshVar (lit "z") st') as [x' st1']. simpl in Ex, Es. subst x'.
    auto using visible_pushStep, visible_pushResult.
  - auto using visible_pushResult.
Qed.

Lemma visible_padWhile padded : forall st st',
  visible st = visible st' ->
  visible (fst (padWhile st padded)) = visible (fst (padWhile st' padded))
  /\ snd (padWhile st padded) = snd (padWhile st' padded).
Proof.
  remember (3 - length padded) as n eqn:Hn. revert padded Hn.
  induction n as [|n IH]; intros padded Hn st st' E.
  - rewrite !padWhile_full by lia. auto.
  - rewrite !padWhile_step by lia.
    destruct (visible_freshVar (lit "p") E) as [Ex Es].
    destruct (freshVar (lit "p") st) as [x st1],
             (freshVar (lit "p") st') as [x' st1']. simpl in Ex, Es. subst x'.
    apply IH; [rewrite length_app; cbn [length]; lia |].
    apply visible_pushStep, Es.
Qed.

Lemma visible_paddingClause clause st st' :
  visible st = visible st' ->
  visible (paddingClause st clause) = visible (paddingClause st' clause).
Proof.
  intros E. unfold paddingClause.
  destruct (length clause =? 3); [auto using visible_pushResult|].
  destruct (length clause <? 3);
    [|auto using visible_pushStep, visible_pushResult].
  match goal with |- context [padWhile (pushStep ?s st) clause] =>
    destruct (@visible_padWhile clause (pushStep s st) (pushStep s st')
                (visible_pushStep s E)) as [E1 E2] end.
  destruct (padWhile _ clause) as [st2 padded].
  destruct (padWhile _ clause) as [st2' padded'].
  simpl in E1, E2. subst padded'. auto using visible_pushResult.
Qed.

Lemma visible_fold (body : St.t -> Clause -> St.t) cnf :
  (forall c st st', visible st = visible st' ->
                    visible (body st c) = visible (body st' c)) ->
  forall st st', visible st = visible st' ->
    visible (fold_left body cnf st) = visible (fold_left body cnf st').
Proof.
  intros Hbody. induction cnf as [|c cnf IH]; intros st st' E; simpl; auto.
Qed.

(** Two states that differ in the ghost field only are taken to two states
    that differ in the ghost field only, by each branch of the run. *)
Lemma ghost_not_read cnf st st' :
  visible st = visible st' ->
  visible (padPass (fold_left splitClause cnf st))
  = visible (padPass (fold_left splitClause cnf st'))
  /\ visible (fold_left paddingClause cnf st)
     = visible (fold_left paddingClause cnf st').
Proof.
  intros E. split.
  - pose proof (visible_fold splitClause cnf
                  (fun c s s' => @visible_splitClause c s s') E) as E1.
    unfold padPass. destruct (visible_inv E1) as (H1 & H2 & H3). rewrite H2.
    apply (visible_fold padClause); [intros; apply visible_padClause; auto|].
    unfold visible. simpl. rewrite H1, H3. reflexivity.
  - apply (visible_fold paddingClause); [intros; apply visible_paddingClause; auto|].
    exact E.
Qed.

(** ** The validator *)

Lemma dropWhile_nil p s :
  dropWhile p s = [] <-> Forall (fun c => p c = true) s.
Proof.
  induction s as [|c s IH]; simpl.
  - split; auto.
  - destruct (p c) eqn:Hc.
    + rewrite IH. split; intros H; [constructor; auto | inversion H; auto].
    + split; intros H; [discriminate | inversion H; congruence].
Qed.

Lemma dropWhile_head p s c t : dropWhile p s = c :: t -> p c = false.
Proof.
  induction s as [|d s IH]; simpl; [discriminate|].
  destruct (p d) eqn:Hd; [exact IH|]. intros H. injection H as -> _. exact Hd.
Qed.

Lemma trim_blank s : truthy (trim s) = false <-> Blank s.
Proof.
  unfold trim, Blank.
  destruct (dropWhile isWhiteSpace s) as [|c t] eqn:Hd.
  - simpl. rewrite <- dropWhile_nil, Hd. tauto.
  - assert (Hc := dropWhile_head _ _ Hd).
    split; intros H.
    + exfalso.
      destruct (dropWhile isWhiteSpace (rev (c :: t))) as [|d u] eqn:Hr.
      * apply dropWhile_nil in Hr. rewrite Forall_forall in Hr.
        specialize (Hr c). rewrite <- in_rev in Hr.
        rewrite Hr in Hc; [discriminate | left; reflexivity].
      * destruct (rev (d :: u)) eqn:E; [|discriminate].
        apply (f_equal (@length _)) in E. rewrite length_rev in E. discriminate.
    + apply dropWhile_nil in H. congruence.
Qed.

Lemma depthLoop_spec s : forall d0,
  (0 <= d0)%Z ->
  match depthLoop d0 s with
  | Some d => d = (d0 + depthOf s)%Z /\ forall n, (0 <= d0 + depthOf (firstn n s))%Z
  | None => exists n, (d0 + depthOf (firstn n s) < 0)%Z
  end.
Proof.
  induction s as [|c s IH]; intros d0 H0; simpl.
  - split; [lia|]. intros n. rewrite firstn_nil. simpl. lia.
  - set (step := ((if (c =? LPAREN)%N then 1 else 0)
                  - (if (c =? RPAREN)%N then 1 else 0))%Z).
    assert (Hstep :
      (if (c =? RPAREN)%N
       then (if (c =? LPAREN)%N then d0 + 1 else d0) - 1
       else if (c =? LPAREN)%N then d0 + 1 else d0)%Z = (d0 + step)%Z).
    { subst step. destruct (c =? LPAREN)%N, (c =? RPAREN)%N; lia. }
    rewrite Hstep.
    destruct (d0 + step <? 0)%Z eqn:Hneg.
    + apply Z.ltb_lt in Hneg. exists 1. simpl. fold step. lia.
    + apply Z.ltb_ge in Hneg. specialize (IH (d0 + step)%Z Hneg).
      destruct (depthLoop (d0 + step) s) as [d|].
      * destruct IH as [-> Hpre]. split; [lia|].
        intros [|n]; simpl; [lia|]. fold step. specialize (Hpre n). lia.
      * destruct IH as [n Hn]. exists (S n). simpl. fold step. lia.
Qed.

Lemma depthLoop_balanced input :
  (exists d, depthLoop 0 input = Some d /\ (d =? 0)%Z = true) <-> Balanced input.
Proof.
  pose proof (@depthLoop_spec input 0%Z ltac:(lia)) as H. unfold Balanced.
  destruct (depthLoop 0 input) as [d|].
  - destruct H as [-> Hpre]. simpl in *. split.
    + intros (d & Hd & Hz). injection Hd as <-. apply Z.eqb_eq in Hz. auto.
    + intros [_ Hz]. exists (depthOf input). rewrite Hz. auto.
  - destruct H as [n Hn]. simpl in Hn. split.
    + intros (d & Hd & _). discriminate.
    + intros [Hpre _]. specialize (Hpre n). lia.
Qed.

Lemma isValidChar_allowed c : isValidChar c = true <-> Allowed c.
Proof.
  unfold isValidChar, Allowed, isParen.
  rewrite !orb_true_iff, !N.eqb_eq. tauto.
Qed.

Lemma validChars_allowed input :
  validChars input = true <-> input <> [] /\ Forall Allowed input.
Proof.
  unfold validChars. rewrite andb_true_iff, forallb_forall, Forall_forall.
  split; intros [H1 H2]; split.
  - destruct input; [discriminate | discriminate].
  - intros c Hc. apply isValidChar_allowed, H2, Hc.
  - destruct input; [congruence | reflexivity].
  - intros c Hc. apply isValidChar_allowed, H2, Hc.
Qed.

Lemma startsWith_prefix sub s :
  startsWith sub s = true <-> exists r, s = sub ++ r.
Proof.
  revert s. induction sub as [|p sub IH]; intros s; simpl.
  - split; eauto.
  - destruct s as [|c s].
    + split; [discriminate | intros [r Hr]; discriminate].
    + rewrite andb_true_iff, N.eqb_eq, IH. split.
      * intros [-> [r ->]]. eauto.
      * intros [r Hr]. injection Hr as -> ->. eauto.
Qed.

Lemma includes_contains sub s : includes sub s = true <-> Contains sub s.
Proof.
  unfold Contains. induction s as [|c s IH].
  - simpl. rewrite orb_false_r, startsWith_prefix. split.
    + intros [r Hr]. exists [], r. exact Hr.
    + intros (l & r & H). destruct l; [eauto|discriminate].
  - cbn [includes]. rewrite orb_true_iff, IH, startsWith_prefix. split.
    + intros [[r Hr] | (l & r & Hr)].
      * exists [], r. exact Hr.
      * exists (c :: l), r. rewrite Hr. reflexivity.
    + intros ([|d l] & r & Hr).
      * left. eauto.
      * right. injection Hr as _ ->. eauto.
Qed.

Lemma validate_unfold input :
  validateFormula input =
  if negb (truthy (trim input)) then invalid EmptyInput
  else match depthLoop 0 input with
       | None => invalid UnbalancedParens
       | Some depth =>
           if negb (depth =? 0)%Z then invalid UnbalancedParens
           else if negb (validChars input) then invalid InvalidCharacter
           else if includes [AND; AND] input || includes [OR; OR] input
                then invalid ConsecutiveOperators
                else mkValidation true None
       end.
Proof. reflexivity. Qed.

Lemma not_blank_truthy input : ~ Blank input -> truthy (trim input) = true.
Proof.
  intros H. destruct (truthy (trim input)) eqn:E; [reflexivity|].
  apply trim_blank in E. contradiction.
Qed.

Lemma balanced_depthLoop input :
  Balanced input -> depthLoop 0 input = Some 0%Z.
Proof.
  intros H. apply depthLoop_balanced in H. destruct H as (d & Hd & Hz).
  apply Z.eqb_eq in Hz. congruence.
Qed.

Lemma not_blank_allowed input :
  ~ Blank input -> Forall Allowed input -> validChars input = true.
Proof.
  intros Hb Ha. apply validChars_allowed. split; [|exact Ha].
  intros ->. apply Hb. constructor.
Qed.

(** C7, as the code has it. The checks run in this order, the first that
    fails gives the result, and the four reasons are different texts: empty
    after trimming; parentheses not balanced; a character outside the allowed
    set; the same binary connective twice in a row (AND AND, or OR OR). A
    text that passes the first three checks is accepted when each connective
    directly followed by a connective is an AND or an OR followed by a NOT. *)
Theorem validate_checks_in_order (input : jsstring) :
  (Blank input -> validateFormula input = invalid EmptyInput)
  /\ (~ Blank input -> ~ Balanced input ->
      validateFormula input = invalid UnbalancedParens)
  /\ (~ Blank input -> Balanced input -> ~ Forall Allowed input ->
      validateFormula input = invalid InvalidCharacter)
  /\ (~ Blank input -> Balanced input -> Forall Allowed input ->
      Contains [AND; AND] input \/ Contains [OR; OR] input ->
      validateFormula input = invalid ConsecutiveOperators)
  /\ (~ Blank input -> Balanced input -> Forall Allowed input ->
      (forall l a b r, input = l ++ a :: b :: r ->
         isConnective a -> isConnective b -> (a = AND \/ a = OR) /\ b = NOT) ->
      validateFormula input = mkValidation true None)
  /\ NoDup [EmptyInput; UnbalancedParens; InvalidCharacter; ConsecutiveOperators].
Proof.
  rewrite validate_unfold. repeat apply conj.
  - intros H. apply trim_blank in H. rewrite H. reflexivity.
  - intros Hb Hn. rewrite (not_blank_truthy Hb). simpl.
    destruct (depthLoop 0 input) as [d|] eqn:Hd; [|reflexivity].
    destruct (d =? 0)%Z eqn:Hz; [|reflexivity].
    exfalso. apply Hn, depthLoop_balanced. eauto.
  - intros Hb Hbal Hn. rewrite (not_blank_truthy Hb), (balanced_depthLoop Hbal).
    simpl. destruct (validChars input) eqn:Hv; [|reflexivity].
    exfalso. apply Hn. apply validChars_allowed in Hv. tauto.
  - intros Hb Hbal Ha Hc.
    rewrite (not_blank_truthy Hb), (balanced_depthLoop Hbal), (not_blank_allowed Hb Ha).
    simpl.
    replace (includes [AND; AND] input || includes [OR; OR] input) with true;
      [reflexivity|].
    symmetry. apply orb_true_iff.
    destruct Hc as [Hc | Hc]; [left | right]; apply includes_contains, Hc.
  - intros Hb Hbal Ha Hc.
    rewrite (not_blank_truthy Hb), (balanced_depthLoop Hbal), (not_blank_allowed Hb Ha).
    simpl.
    replace (includes [AND; AND] input || includes [OR; OR] input) with false;
      [reflexivity|].
    symmetry. apply orb_false_iff. split.
    + destruct (includes [AND; AND] input) eqn:E; [|reflexivity].
      apply includes_contains in E. destruct E as (l & r & E).
      destruct (Hc l AND AND r E) as [_ H]; unfold isConnective; auto.
      discriminate.
    + destruct (includes [OR; OR] input) eqn:E; [|reflexivity].
      apply includes_contains in E. destruct E as (l & r & E).
      destruct (Hc l OR OR r E) as [_ H]; unfold isConnective; auto.
      discriminate.
  - repeat constructor; simpl; intros H;
      repeat (destruct H as [H | H]; [discriminate H|]); exact H.
Qed.

(** The text [A AND NOT B], with the two connectives next to each other,
    passes the first three checks and is accepted. *)
Lemma validate_accepts_adjacent_connectives :
  ~ Blank andNotText /\ Balanced andNotText /\ Forall Allowed andNotText
  /\ ConsecutiveConnectives andNotText
  /\ validateFormula andNotText = mkValidation true None
  /\ validateFormula andNotText <> invalid ConsecutiveOperators.
Proof.
  refine (conj _ (conj _ (conj _ (conj _ (conj _ _))))).
  - intros H. apply trim_blank in H. discriminate H.
  - apply depthLoop_balanced. exists 0%Z. split; reflexivity.
  - repeat constructor; apply isValidChar_allowed; reflexivity.
  - exists (lit "A"), AND, NOT, (lit "B"). unfold isConnective. auto.
  - reflexivity.
  - discriminate.
Qed.

Lemma validate_checks_in_order_witness :
  ~ Blank doubleAndText /\ Balanced doubleAndText /\ Forall Allowed doubleAndText
  /\ (Contains [AND; AND] doubleAndText \/ Contains [OR; OR] doubleAndText)
  /\ validateFormula doubleAndText = invalid ConsecutiveOperators.
Proof.
  assert (Hb : ~ Blank doubleAndText)
    by (intros H; apply trim_blank in H; discriminate H).
  assert (Hbal : Balanced doubleAndText)
    by (apply depthLoop_balanced; exists 0%Z; split; reflexivity).
  assert (Ha : Forall Allowed doubleAndText)
    by (repeat constructor; apply isValidChar_allowed; reflexivity).
  assert (Hc : Contains [AND; AND] doubleAndText \/ Contains [OR; OR] doubleAndText)
    by (left; exists (lit "A"), (lit "B"); reflexivity).
  refine (conj Hb (conj Hbal (conj Ha (conj Hc _)))).
  exact (proj1 (proj2 (proj2 (proj2 (validate_checks_in_order doubleAndText))))
               Hb Hbal Ha Hc).
Defined.
(** ** Parsing and rendering *)

Section SplitJoin.

Variable sep : char16.

Lemma split_not_nil s : split sep s <> [].
Proof.
  destruct s as [|c s]; simpl; [discriminate|].
  destruct (c =? sep)%N; [discriminate|].
  destruct (split sep s); discriminate.
Qed.

Lemma split_no_sep s : ~ In sep s -> split sep s = [s].
Proof.
  induction s as [|c s IH]; simpl; intros H; [reflexivity|].
  destruct (N.eqb_spec c sep) as [->|Hc]; [exfalso; auto|].
  rewrite IH by auto. reflexivity.
Qed.

Lemma split_app_sep p rest :
  ~ In sep p -> split sep (p ++ sep :: rest) = p :: split sep rest.
Proof.
  induction p as [|c p IH]; simpl; intros H.
  - rewrite N.eqb_refl. reflexivity.
  - destruct (N.eqb_spec c sep) as [->|Hc]; [exfalso; auto|].
    rewrite IH by auto. reflexivity.
Qed.

Lemma split_join pieces :
  pieces <> [] -> Forall (fun p => ~ In sep p) pieces ->
  split sep (join [sep] pieces) = pieces.
Proof.
  induction pieces as [|p pieces IH]; intros Hne Hall; [congruence|].
  inversion Hall as [|? ? Hp Hrest]; subst.
  destruct pieces as [|q pieces].
  - simpl. apply split_no_sep, Hp.
  - change (join [sep] (p :: q :: pieces)) with (p ++ sep :: join [sep] (q :: pieces)).
    rewrite split_app_sep by exact Hp.
    rewrite IH; [reflexivity | discriminate | exact Hrest].
Qed.

End SplitJoin.

Lemma filter_join (keep : char16 -> bool) sep pieces :
  filter keep (join sep pieces) = join (filter keep sep) (map (filter keep) pieces).
Proof.
  induction pieces as [|p pieces IH]; [reflexivity|].
  destruct pieces as [|q pieces]; [reflexivity|].
  change (join sep (p :: q :: pieces)) with (p ++ sep ++ join sep (q :: pieces)).
  rewrite !filter_app, IH. reflexivity.
Qed.

Lemma filter_all (keep : char16 -> bool) s :
  Forall (fun c => keep c = true) s -> filter keep s = s.
Proof.
  induction 1 as [|c s Hc Hs IH]; simpl; [reflexivity|].
  rewrite Hc, IH. reflexivity.
Qed.

(** *** The loops of [parseFormula] as maps and filters *)

Lemma parseLiteral_loop literalStrings : forall clause,
  fold_left parseLiteral literalStrings clause
  = clause ++ map literalOf (filter (fun s => truthy (trim s)) literalStrings).
Proof.
  induction literalStrings as [|s ss IH]; intros clause; simpl.
  - rewrite app_nil_r. reflexivity.
  - rewrite IH. unfold parseLiteral. destruct (truthy (trim s)); simpl.
    + rewrite <- app_assoc. reflexivity.
    + reflexivity.
Qed.

Lemma parseClause_loop clauseStrings : forall cnf,
  fold_left parseClause clauseStrings cnf
  = cnf ++ filter (fun c => 0 <? length c) (map clauseOf clauseStrings).
Proof.
  induction clauseStrings as [|s ss IH]; intros cnf; simpl.
  - rewrite app_nil_r. reflexivity.
  - rewrite IH. unfold parseClause. rewrite parseLiteral_loop. simpl.
    fold (clauseOf s). destruct (0 <? length (clauseOf s)); simpl.
    + rewrite <- app_assoc. reflexivity.
    + reflexivity.
Qed.

Lemma parseFormula_eq input :
  parseFormula input
  = filter (fun c => 0 <? length c)
           (map clauseOf (split AND (removeWhiteSpace input))).
Proof. unfold parseFormula. rewrite parseClause_loop. reflexivity. Qed.

(** [parseFormula] never returns an empty clause. *)
Lemma parseFormula_clauses_not_empty input :
  Forall (fun c => c <> []) (parseFormula input).
Proof.
  rewrite parseFormula_eq. apply Forall_forall. intros c Hc.
  apply filter_In in Hc. destruct Hc as [_ Hc]. intros ->. discriminate.
Qed.

(** *** Variable tokens *)

Lemma alnum_ranges c :
  isAlnum c = true ->
  (65 <= c <= 90 \/ 97 <= c <= 122 \/ 48 <= c <= 57)%N.
Proof.
  unfold isAlnum, isLetter, isDigit.
  rewrite !orb_true_iff, !andb_true_iff, !N.leb_le. tauto.
Qed.

Lemma alnum_not_space c : isAlnum c = true -> isWhiteSpace c = false.
Proof.
  intros H. apply alnum_ranges in H. unfold isWhiteSpace.
  rewrite !orb_false_iff, !andb_false_iff, !N.leb_gt, !N.eqb_neq. lia.
Qed.

Lemma alnum_not_paren c : isAlnum c = true -> isParen c = false.
Proof.
  intros H. apply alnum_ranges in H. unfold isParen, LPAREN, RPAREN.
  rewrite !orb_false_iff, !N.eqb_neq. lia.
Qed.

Lemma alnum_not_connective c :
  isAlnum c = true -> c <> AND /\ c <> OR /\ c <> NOT.
Proof.
  intros H. apply alnum_ranges in H. unfold AND, OR, NOT. lia.
Qed.
Lemma in_join x sep pieces :
  In x (join sep pieces) -> In x sep \/ exists p, In p pieces /\ In x p.
Proof.
  induction pieces as [|p pieces IH]; [contradiction|].
  destruct pieces as [|q pieces].
  - simpl. intros H. right. exists p. auto.
  - change (join sep (p :: q :: pieces)) with (p ++ sep ++ join sep (q :: pieces)).
    rewrite !in_app_iff. intros [H | [H | H]].
    + right. exists p. simpl. auto.
    + left. exact H.
    + destruct (IH H) as [H' | (r & Hr & Hx)]; [left; exact H'|].
      right. exists r. split; [right; exact Hr | exact Hx].
Qed.

(** *** Rendered names *)

Section RenderedName.

Variable l : Literal.
Hypothesis Hl : NameChars (variable l).

Lemma rendered_chars c :
  In c (literalToString l) -> c = NOT \/ isAlnum c = true.
Proof.
  unfold literalToString. rewrite in_app_iff. intros [H | H].
  - destruct (negated l); [|contradiction].
    destruct H as [<- | []]. left. reflexivity.
  - right. unfold NameChars in Hl. rewrite Forall_forall in Hl. auto.
Qed.

Lemma rendered_no_space c :
  In c (literalToString l) -> isWhiteSpace c = false.
Proof.
  intros Hc. destruct (rendered_chars _ Hc) as [-> | H]; [reflexivity|].
  apply alnum_not_space, H.
Qed.

Lemma rendered_trimmed : Trimmed (literalToString l).
Proof.
  split; intros; apply rendered_no_space; rewrite H.
  - left. reflexivity.
  - apply in_or_app. right. left. reflexivity.
Qed.

Lemma rendered_no_or : ~ In OR (literalToString l).
Proof.
  intros Hc. destruct (rendered_chars _ Hc) as [H | H]; [discriminate|].
  apply alnum_not_connective in H. tauto.
Qed.

Lemma rendered_no_and : ~ In AND (literalToString l).
Proof.
  intros Hc. destruct (rendered_chars _ Hc) as [H | H]; [discriminate|].
  apply alnum_not_connective in H. tauto.
Qed.

Lemma rendered_no_paren c : In c (literalToString l) -> isParen c = false.
Proof.
  intros Hc. destruct (rendered_chars _ Hc) as [-> | H]; [reflexivity|].
  apply alnum_not_paren, H.
Qed.

Lemma vertexOf_rendered ci li :
  vertexOf ci li (literalToString l)
  = Graph.mkLiteral (Graph.vertexId ci li) (variable l) (negated l) ci
                    (Graph.positionOf ci li).
Proof.
  unfold vertexOf, literalToString. destruct l as [v [|]]; simpl in *.
  - reflexivity.
  - destruct v as [|c v]; [reflexivity|]. simpl.
    inversion Hl; subst.
    match goal with H : isAlnum c = true |- _ =>
      apply alnum_not_connective in H; destruct H as (_ & _ & Hc) end.
    apply N.eqb_neq in Hc. rewrite Hc. reflexivity.
Qed.

End RenderedName.

(** *** Rendered literals *)

Section RenderedLiteral.

Variable l : Literal.
Hypothesis Hl : Token (variable l).

Lemma literalToString_no_space :
  Forall (fun c => negb (isWhiteSpace c) = true) (literalToString l).
Proof.
  apply Forall_forall. intros c Hc.
  rewrite (@rendered_no_space l (proj2 Hl) _ Hc). reflexivity.
Qed.

Lemma literalToString_no_paren :
  Forall (fun c => negb (isParen c) = true) (literalToString l).
Proof.
  apply Forall_forall. intros c Hc.
  rewrite (@rendered_no_paren l (proj2 Hl) _ Hc). reflexivity.
Qed.

Lemma literalToString_truthy : truthy (trim (literalToString l)) = true.
Proof.
  destruct (truthy (trim (literalToString l))) eqn:E; [reflexivity|].
  apply trim_blank in E. unfold Blank in E.
  pose proof literalToString_no_space as Hn.
  destruct (literalToString l) as [|c s] eqn:Hs.
  - unfold literalToString in Hs. destruct Hl as [Hne _].
    destruct (negated l); [discriminate|]. simpl in Hs. congruence.
  - inversion E; subst. inversion Hn; subst.
    match goal with H : isWhiteSpace c = true |- _ => rewrite H in * end.
    discriminate.
Qed.

Lemma literalOf_literalToString : literalOf (literalToString l) = l.
Proof.
  unfold literalOf, literalToString. destruct l as [v [|]]; simpl in *.
  - reflexivity.
  - destruct Hl as [Hne Hall]. destruct v as [|c v]; [congruence|].
    simpl. inversion Hall; subst.
    match goal with H : isAlnum c = true |- _ =>
      apply alnum_not_connective in H; destruct H as (_ & _ & Hc) end.
    apply N.eqb_neq in Hc. rewrite Hc. reflexivity.
Qed.

End RenderedLiteral.

(** *** Rendered clauses *)

Section RenderedClause.

Variable c : Clause.
Hypothesis Hc : WellFormedClause c.

Lemma removeWhiteSpace_clauseToString :
  removeWhiteSpace (clauseToString c) = compactClause c.
Proof.
  unfold removeWhiteSpace, clauseToString, compactClause.
  rewrite !filter_app, filter_join. simpl. do 3 f_equal.
  rewrite map_map. apply map_ext_in. intros l Hin.
  apply filter_all, literalToString_no_space.
  destruct Hc as [_ Hall]. rewrite Forall_forall in Hall. auto.
Qed.

Lemma removeParens_compactClause :
  removeParens (compactClause c) = join [OR] (map literalToString c).
Proof.
  unfold removeParens, compactClause.
  rewrite !filter_app, filter_join. simpl. rewrite app_nil_r. f_equal.
  rewrite map_map. apply map_ext_in. intros l Hin.
  apply filter_all, literalToString_no_paren.
  destruct Hc as [_ Hall]. rewrite Forall_forall in Hall. auto.
Qed.

Lemma compactClause_no_and : ~ In AND (compactClause c).
Proof.
  unfold compactClause. rewrite !in_app_iff. intros [H | [H | H]].
  - destruct H as [H | []]. discriminate.
  - apply in_join in H. destruct H as [[H | []] | (p & Hp & Hx)]; [discriminate|].
    apply in_map_iff in Hp. destruct Hp as (l & <- & Hin).
    revert Hx. apply rendered_no_and.
    destruct Hc as [_ Hall]. rewrite Forall_forall in Hall. apply Hall, Hin.
  - destruct H as [H | []]. discriminate.
Qed.

Lemma clauseOf_compactClause : clauseOf (compactClause c) = c.
Proof.
  unfold clauseOf. rewrite removeParens_compactClause.
  destruct Hc as [Hne Hall]. rewrite Forall_forall in Hall.
  rewrite split_join.
  - rewrite forallb_filter_id.
    + rewrite map_map. rewrite <- (map_id c) at 2. apply map_ext_in.
      intros l Hin. apply literalOf_literalToString. auto.
    + apply forallb_forall. intros s Hs. apply in_map_iff in Hs.
      destruct Hs as (l & <- & Hin). apply literalToString_truthy. auto.
  - destruct c; [congruence | discriminate].
  - apply Forall_forall. intros s Hs. apply in_map_iff in Hs.
    destruct Hs as (l & <- & Hin). apply rendered_no_or, Hall, Hin.
Qed.

End RenderedClause.

(** C4. Parsing the rendered text of a formula gives the formula back, for
    every formula of the data model: clauses not empty, variable names
    non-empty tokens of letters and digits. *)
Theorem parse_render_roundtrip (f : CNFFormula) :
  Forall WellFormedClause f ->
  parseFormula (formulaToString f) = f.
Proof.
  intros Hf. rewrite parseFormula_eq.
  destruct f as [|c0 f0]; [reflexivity|].
  set (f := c0 :: f0) in *.
  assert (Hws : removeWhiteSpace (formulaToString f) = join [AND] (map compactClause f)).
  { unfold removeWhiteSpace, formulaToString. rewrite filter_join. simpl filter.
    f_equal. rewrite map_map. apply map_ext_in. intros c Hin.
    apply removeWhiteSpace_clauseToString.
    rewrite Forall_forall in Hf. auto. }
  rewrite Hws, split_join.
  - rewrite map_map. rewrite forallb_filter_id.
    + rewrite <- (map_id f) at 2. apply map_ext_in. intros c Hin.
      apply clauseOf_compactClause. rewrite Forall_forall in Hf. auto.
    + apply forallb_forall. intros c Hin. apply in_map_iff in Hin.
      destruct Hin as (c' & <- & Hin). rewrite Forall_forall in Hf.
      rewrite clauseOf_compactClause by auto.
      destruct (Hf c' Hin) as [Hne _]. destruct c'; [congruence | reflexivity].
  - discriminate.
  - apply Forall_forall. intros s Hs. apply in_map_iff in Hs.
    destruct Hs as (c & <- & Hin). apply compactClause_no_and.
    rewrite Forall_forall in Hf. auto.
Qed.
(** The parser skips a literal substring that is empty, so a literal with an
    empty variable name can only come from a substring with the NOT symbol
    and nothing after it. *)
Lemma parseFormula_empty_name input c l :
  In c (parseFormula input) -> In l c -> variable l = [] -> negated l = true.
Proof.
  rewrite parseFormula_eq. intros Hc Hl Hv.
  apply filter_In in Hc. destruct Hc as [Hc _].
  apply in_map_iff in Hc. destruct Hc as (s & <- & _).
  unfold clauseOf in Hl. apply in_map_iff in Hl.
  destruct Hl as (litStr & <- & Hin). apply filter_In in Hin.
  destruct Hin as [_ Ht]. unfold literalOf in *. cbn [variable negated] in *.
  destruct (startsWith [NOT] litStr); [reflexivity|].
  subst litStr. discriminate Ht.
Qed.

(** C10 at the text made of the NOT symbol alone: the validator accepts it,
    and the parser returns one clause whose literal is negated and has the
    empty string as its variable name. *)
Theorem parse_bare_not :
  validateFormula [NOT] = mkValidation true None
  /\ parseFormula [NOT] = [[mkLiteral [] true]]
  /\ ~ Forall (fun c => Forall (fun l => variable l <> []) c) (parseFormula [NOT]).
Proof.
  split; [reflexivity | split; [reflexivity|]].
  intros H. change (parseFormula [NOT]) with [[mkLiteral [] true]] in H.
  inversion H as [|? ? Hc _]; subst. inversion Hc as [|? ? Hl _]; subst.
  apply Hl. reflexivity.
Qed.
(** ** Graph lowering *)

Lemma eqb_eq s t : JS.eqb s t = true <-> s = t.
Proof.
  revert t. induction s as [|c s IH]; intros [|d t]; simpl;
    try (split; [discriminate | discriminate]); [tauto|].
  rewrite andb_true_iff, N.eqb_eq, IH. split.
  - intros [-> ->]. reflexivity.
  - intros H. injection H as -> ->. auto.
Qed.

Lemma eqb_refl s : JS.eqb s s = true.
Proof. apply eqb_eq. reflexivity. Qed.

Lemma length_mapi {A B : Type} (f : nat -> A -> B) xs : forall i,
  length (mapi f xs i) = length xs.
Proof. induction xs as [|x xs IH]; intros i; simpl; [|rewrite IH]; reflexivity. Qed.

Lemma in_mapi {A B : Type} (f : nat -> A -> B) xs y : forall i,
  In y (mapi f xs i) <-> exists n x, nth_error xs n = Some x /\ y = f (i + n) x.
Proof.
  induction xs as [|x xs IH]; intros i; simpl.
  - split; [contradiction | intros (n & x & H & _); destruct n; discriminate].
  - rewrite IH. split.
    + intros [<- | (n & x' & Hn & ->)].
      * exists 0, x. rewrite Nat.add_0_r. auto.
      * exists (S n), x'. rewrite Nat.add_succ_r. auto.
    + intros ([|n] & x' & Hn & ->); simpl in Hn.
      * injection Hn as ->. rewrite Nat.add_0_r. auto.
      * right. exists n, x'. rewrite Nat.add_succ_r. auto.
Qed.

Lemma pushLiteral_loop clauseIdx lits : forall i literals,
  Graph.forEach (Graph.pushLiteral clauseIdx) lits i literals
  = literals ++ mapi (vertexOf clauseIdx) lits i.
Proof.
  induction lits as [|l lits IH]; intros i literals; simpl.
  - rewrite app_nil_r. reflexivity.
  - rewrite IH. unfold Graph.pushLiteral. rewrite <- app_assoc. reflexivity.
Qed.

Lemma pushClause_loop clauses : forall i literals,
  Graph.forEach Graph.pushClause clauses i literals
  = literals ++ concat (mapi clauseVertices clauses i).
Proof.
  induction clauses as [|c clauses IH]; intros i literals; simpl.
  - rewrite app_nil_r. reflexivity.
  - rewrite IH. unfold Graph.pushClause. rewrite pushLiteral_loop, <- app_assoc.
    reflexivity.
Qed.

Lemma literals_eq formula :
  Graph.literals (Graph.parseFormulaToGraph formula)
  = concat (mapi clauseVertices (clausePieces formula) 0).
Proof. unfold Graph.parseFormulaToGraph. simpl. apply pushClause_loop. Qed.

Lemma edges_eq formula :
  Graph.edges (Graph.parseFormulaToGraph formula)
  = Graph.edgeLoop (Graph.literals (Graph.parseFormulaToGraph formula)).
Proof. reflexivity. Qed.

(** *** The edge loops *)

Lemma pushEdge_edgeAt literals i edges j :
  Graph.pushEdge literals i edges j = edges ++ edgeAt literals i j.
Proof.
  unfold Graph.pushEdge, edgeAt.
  destruct (nth_error literals i) as [lit1|], (nth_error literals j) as [lit2|];
    rewrite ?app_nil_r; try reflexivity.
  destruct (negb (Graph.clauseIndex lit1 =? Graph.clauseIndex lit2)),
           (negb (Graph.isContradictory lit1 lit2)); simpl;
    rewrite ?app_nil_r; reflexivity.
Qed.

Lemma fold_left_append {A B : Type} (g : A -> list B) xs : forall acc,
  fold_left (fun acc x => acc ++ g x) xs acc = acc ++ flat_map g xs.
Proof.
  induction xs as [|x xs IH]; intros acc; simpl.
  - rewrite app_nil_r. reflexivity.
  - rewrite IH, app_assoc. reflexivity.
Qed.

Lemma fold_left_same {A B : Type} (f g : A -> B -> A) xs :
  (forall acc x, f acc x = g acc x) ->
  forall acc, fold_left f xs acc = fold_left g xs acc.
Proof.
  intros H. induction xs as [|x xs IH]; intros acc; simpl; [reflexivity|].
  rewrite H. apply IH.
Qed.

Lemma edgeLoop_eq literals :
  Graph.edgeLoop literals
  = flat_map (fun i => flat_map (edgeAt literals i)
                         (seq (i + 1) (length literals - (i + 1))))
             (seq 0 (length literals)).
Proof.
  unfold Graph.edgeLoop.
  rewrite <- (app_nil_l (flat_map _ _)), <- fold_left_append.
  apply fold_left_same. intros edges i.
  rewrite <- fold_left_append. apply fold_left_same. intros edges' j.
  apply pushEdge_edgeAt.
Qed.

Lemma in_edgeLoop literals e :
  In e (Graph.edgeLoop literals) <->
  exists i j lit1 lit2,
    i < j /\ nth_error literals i = Some lit1 /\ nth_error literals j = Some lit2
    /\ Graph.clauseIndex lit1 <> Graph.clauseIndex lit2
    /\ Graph.isContradictory lit1 lit2 = false
    /\ e = Graph.mkEdge (Graph.id lit1) (Graph.id lit2).
Proof.
  rewrite edgeLoop_eq, in_flat_map. split.
  - intros (i & Hi & He). apply in_flat_map in He. destruct He as (j & Hj & He).
    apply in_seq in Hj. unfold edgeAt in He.
    destruct (nth_error literals i) as [lit1|] eqn:H1; [|contradiction].
    destruct (nth_error literals j) as [lit2|] eqn:H2; [|contradiction].
    destruct (Graph.clauseIndex lit1 =? Graph.clauseIndex lit2) eqn:Hc;
      [contradiction|].
    destruct (Graph.isContradictory lit1 lit2) eqn:Hk; [contradiction|].
    destruct He as [<- | []]. apply Nat.eqb_neq in Hc.
    exists i, j, lit1, lit2. repeat split; auto. lia.
  - intros (i & j & lit1 & lit2 & Hij & H1 & H2 & Hc & Hk & ->).
    assert (Hj : j < length literals) by (apply nth_error_Some; congruence).
    exists i. split; [apply in_seq; lia|].
    apply in_flat_map. exists j. split; [apply in_seq; lia|].
    unfold edgeAt. rewrite H1, H2, Hk. apply Nat.eqb_neq in Hc. rewrite Hc.
    left. reflexivity.
Qed.
(** *** Vertex identifiers *)

Lemma decimal_digits n : Forall (fun c => isDigit c = true) (decimal n).
Proof.
  unfold decimal, lit. generalize (Nat.to_uint n) as d.
  induction d; simpl; constructor; auto.
Qed.

Lemma app_sep_unique {A : Type} (x : A) l1 : forall l2 r1 r2,
  ~ In x l1 -> ~ In x l2 -> l1 ++ x :: r1 = l2 ++ x :: r2 -> l1 = l2 /\ r1 = r2.
Proof.
  induction l1 as [|a l1 IH]; intros [|b l2] r1 r2 H1 H2 E; simpl in *.
  - injection E as ->. auto.
  - injection E as <- _. exfalso. auto.
  - injection E as -> _. exfalso. auto.
  - injection E as -> E. destruct (IH l2 r1 r2) as [-> ->]; auto.
Qed.

Lemma vertexId_injective c l c' l' :
  Graph.vertexId c l = Graph.vertexId c' l' -> c = c' /\ l = l'.
Proof.
  unfold Graph.vertexId. change (lit "c") with [99%N].
  change (lit "-l") with [45%N; 108%N]. simpl. intros E. injection E as E.
  assert (Hdash : forall n, ~ In 45%N (decimal n)).
  { intros n Hin. pose proof (decimal_digits n) as Hd.
    rewrite Forall_forall in Hd. specialize (Hd _ Hin). discriminate. }
  apply app_sep_unique in E; auto. destruct E as [Ec El].
  injection El as El. split; apply decimal_injective; assumption.
Qed.

(** *** The vertices of a lowered graph *)

Lemma in_literals formula v :
  In v (Graph.literals (Graph.parseFormulaToGraph formula)) <->
  exists ci li clause l,
    nth_error (clausePieces formula) ci = Some clause
    /\ nth_error (literalPieces clause) li = Some l
    /\ v = vertexOf ci li l.
Proof.
  rewrite literals_eq, in_concat. split.
  - intros (vs & Hvs & Hv). apply in_mapi in Hvs.
    destruct Hvs as (ci & clause & Hc & ->). apply in_mapi in Hv.
    destruct Hv as (li & l & Hl & ->). exists ci, li, clause, l. auto.
  - intros (ci & li & clause & l & Hc & Hl & ->).
    exists (clauseVertices ci clause). split.
    + apply in_mapi. exists ci, clause. auto.
    + apply in_mapi. exists li, l. auto.
Qed.

(** A vertex of a lowered graph is determined by its identifier. *)
Lemma vertex_of_id formula v1 v2 :
  In v1 (Graph.literals (Graph.parseFormulaToGraph formula)) ->
  In v2 (Graph.literals (Graph.parseFormulaToGraph formula)) ->
  Graph.id v1 = Graph.id v2 -> v1 = v2.
Proof.
  rewrite !in_literals.
  intros (c1 & l1 & cl1 & s1 & Hc1 & Hl1 & ->) (c2 & l2 & cl2 & s2 & Hc2 & Hl2 & ->).
  simpl. intros E. apply vertexId_injective in E. destruct E as [-> ->].
  congruence.
Qed.

Lemma keys_of_three clauses : forall i,
  Forall (fun clause => length (literalPieces clause) = 3) clauses ->
  map keyOf (concat (mapi clauseVertices clauses i))
  = flat_map vertexKeys (seq i (length clauses)).
Proof.
  induction clauses as [|c clauses IH]; intros i H; [reflexivity|].
  inversion H as [|? ? Hc Hrest]; subst. simpl.
  rewrite map_app, IH by exact Hrest. f_equal.
  unfold clauseVertices.
  destruct (literalPieces c) as [|a [|b [|d [|? ?]]]]; try discriminate.
  reflexivity.
Qed.

Lemma length_flat_map_keys k : forall i,
  length (flat_map vertexKeys (seq i k)) = 3 * k.
Proof. induction k as [|k IH]; intros i; simpl; [|rewrite IH]; lia. Qed.

Lemma NoDup_keys k : forall i,
  NoDup (map snd (flat_map vertexKeys (seq i k))).
Proof.
  induction k as [|k IH]; intros i; simpl; [constructor|].
  assert (Hlater : forall li x, In x (map snd (flat_map vertexKeys (seq (S i) k))) ->
                                x <> Graph.vertexId i li).
  { intros li x Hx E. subst x. apply in_map_iff in Hx.
    destruct Hx as ([c s] & Hs & Hin). simpl in Hs. subst s.
    apply in_flat_map in Hin. destruct Hin as (ci & Hci & Hin).
    apply in_seq in Hci. simpl in Hin.
    destruct Hin as [Hin | [Hin | [Hin | []]]];
      apply (f_equal snd) in Hin; cbn [snd] in Hin;
      apply vertexId_injective in Hin; lia. }
  repeat constructor; simpl; try apply IH.
  all: intros H; repeat (destruct H as [H | H];
         [apply vertexId_injective in H; lia|]);
       try (eapply Hlater; [exact H | reflexivity]); try contradiction.
Qed.
(** *** The invariants of the lowering *)

Lemma isContradictory_spec v1 v2 :
  Graph.isContradictory v1 v2 = true <-> Complementary v1 v2.
Proof.
  unfold Graph.isContradictory, Complementary.
  rewrite andb_true_iff, eqb_eq, negb_true_iff, eqb_false_iff. tauto.
Qed.

Lemma Complementary_sym v1 v2 : Complementary v1 v2 -> Complementary v2 v1.
Proof. intros [H1 H2]. split; [symmetry; exact H1 | congruence]. Qed.

Lemma not_contradictory v1 v2 :
  Graph.isContradictory v1 v2 = false <-> ~ Complementary v1 v2.
Proof.
  rewrite <- isContradictory_spec.
  destruct (Graph.isContradictory v1 v2); intuition congruence.
Qed.

Section Lowered.

Variable formula : jsstring.
Local Abbreviation g := (Graph.parseFormulaToGraph formula).

Lemma edge_ends e :
  In e (Graph.edges g) ->
  exists v1 v2,
    In v1 (Graph.literals g) /\ In v2 (Graph.literals g)
    /\ Graph.from e = Graph.id v1 /\ Graph.to e = Graph.id v2
    /\ Graph.clauseIndex v1 <> Graph.clauseIndex v2 /\ ~ Complementary v1 v2.
Proof.
  rewrite edges_eq, in_edgeLoop.
  intros (i & j & v1 & v2 & _ & H1 & H2 & Hc & Hk & ->).
  exists v1, v2. apply not_contradictory in Hk.
  repeat split; eauto using nth_error_In.
Qed.

Lemma joined_sound v1 v2 :
  In v1 (Graph.literals g) -> In v2 (Graph.literals g) -> Joined g v1 v2 ->
  Graph.clauseIndex v1 <> Graph.clauseIndex v2 /\ ~ Complementary v1 v2.
Proof.
  intros Hv1 Hv2 (e & He & Hends).
  destruct (edge_ends _ He) as (w1 & w2 & Hw1 & Hw2 & Hf & Ht & Hc & Hk).
  destruct Hends as [[Ef Et] | [Ef Et]]; rewrite Ef in Hf; rewrite Et in Ht.
  - apply (vertex_of_id formula) in Hf; auto.
    apply (vertex_of_id formula) in Ht; auto. subst. auto.
  - apply (vertex_of_id formula) in Hf; auto.
    apply (vertex_of_id formula) in Ht; auto. subst. split; [auto|].
    intros H. apply Hk, Complementary_sym, H.
Qed.

Lemma joined_complete v1 v2 :
  In v1 (Graph.literals g) -> In v2 (Graph.literals g) ->
  Graph.clauseIndex v1 <> Graph.clauseIndex v2 -> ~ Complementary v1 v2 ->
  Joined g v1 v2.
Proof.
  intros Hv1 Hv2 Hc Hk.
  apply In_nth_error in Hv1, Hv2. destruct Hv1 as [i Hi], Hv2 as [j Hj].
  assert (Hij : i <> j) by (intros ->; congruence).
  destruct (Nat.lt_total i j) as [Hlt | [Heq | Hgt]]; [|contradiction|].
  - exists (Graph.mkEdge (Graph.id v1) (Graph.id v2)). split; [|left; auto].
    rewrite edges_eq, in_edgeLoop.
    exists i, j, v1, v2. repeat split; auto. apply not_contradictory, Hk.
  - exists (Graph.mkEdge (Graph.id v2) (Graph.id v1)). split; [|right; auto].
    rewrite edges_eq, in_edgeLoop.
    exists j, i, v2, v1. repeat split; auto.
    apply not_contradictory. intros H. apply Hk, Complementary_sym, H.
Qed.

End Lowered.

(** The lowering works on text. When each of the [k] clause substrings of
    the text has three literal substrings, it makes exactly [3k] vertices,
    one per literal substring, with identifier [c<clause>-l<position>] and
    the clause index of its clause; two vertices joined by an edge are of
    different clauses and not complementary; two vertices of different
    clauses that are not complementary are joined by an edge. *)
Lemma lowering_text_invariants (formula : jsstring) :
  Forall (fun clause => length (literalPieces clause) = 3) (clausePieces formula) ->
  let g := Graph.parseFormulaToGraph formula in
  let k := length (clausePieces formula) in
  length (Graph.literals g) = 3 * k
  /\ Graph.literals g = concat (mapi clauseVertices (clausePieces formula) 0)
  /\ map keyOf (Graph.literals g) = flat_map vertexKeys (seq 0 k)
  /\ NoDup (map Graph.id (Graph.literals g))
  /\ (forall e, In e (Graph.edges g) ->
        exists v1 v2, In v1 (Graph.literals g) /\ In v2 (Graph.literals g)
          /\ Graph.from e = Graph.id v1 /\ Graph.to e = Graph.id v2)
  /\ (forall v1 v2, In v1 (Graph.literals g) -> In v2 (Graph.literals g) ->
        Joined g v1 v2 ->
        Graph.clauseIndex v1 <> Graph.clauseIndex v2 /\ ~ Complementary v1 v2)
  /\ (forall v1 v2, In v1 (Graph.literals g) -> In v2 (Graph.literals g) ->
        Graph.clauseIndex v1 <> Graph.clauseIndex v2 -> ~ Complementary v1 v2 ->
        Joined g v1 v2).
Proof.
  intros H3 g k.
  assert (Hkeys : map keyOf (Graph.literals g) = flat_map vertexKeys (seq 0 k)).
  { unfold g. rewrite literals_eq. apply keys_of_three, H3. }
  refine (conj _ (conj _ (conj Hkeys (conj _ (conj _ (conj _ _)))))).
  - rewrite <- (length_map keyOf), Hkeys. apply length_flat_map_keys.
  - apply literals_eq.
  - replace (map Graph.id (Graph.literals g)) with (map snd (map keyOf (Graph.literals g)))
      by (rewrite map_map; reflexivity).
    rewrite Hkeys. apply NoDup_keys.
  - intros e He. destruct (edge_ends _ _ He) as (v1 & v2 & ? & ? & ? & ? & _).
    exists v1, v2. auto.
  - apply joined_sound.
  - apply joined_complete.
Qed.
(** *** Lowering the rendered text of a formula *)

Lemma dropWhile_blank pre s :
  Blank pre -> dropWhile isWhiteSpace (pre ++ s) = dropWhile isWhiteSpace s.
Proof.
  induction 1 as [|c pre Hc Hpre IH]; simpl; [reflexivity|].
  rewrite Hc. exact IH.
Qed.

Lemma Blank_rev s : Blank s -> Blank (rev s).
Proof. unfold Blank. apply Forall_rev. Qed.

Lemma trim_surrounded pre s post :
  Blank pre -> Blank post -> Trimmed s -> trim (pre ++ s ++ post) = s.
Proof.
  intros Hpre Hpost [Hfirst Hlast]. unfold trim.
  rewrite dropWhile_blank by exact Hpre.
  destruct s as [|c t].
  - simpl. rewrite (proj2 (dropWhile_nil _ _) Hpost). reflexivity.
  - simpl. rewrite (Hfirst c t eq_refl).
    change (c :: t ++ post) with ((c :: t) ++ post). rewrite rev_app_distr.
    rewrite dropWhile_blank by (apply Blank_rev, Hpost).
    destruct (exists_last (l := c :: t) ltac:(discriminate)) as (t' & d & E).
    rewrite E, rev_app_distr. simpl.
    rewrite (Hlast t' d E). simpl. rewrite rev_involutive. reflexivity.
Qed.

Lemma split_spaced_join sep pieces : forall pre,
  sep <> SPACE -> Blank pre -> ~ In sep pre ->
  pieces <> [] ->
  Forall (fun p => Trimmed p /\ ~ In sep p) pieces ->
  map trim (split sep (pre ++ join [SPACE; sep; SPACE] pieces)) = pieces.
Proof.
  induction pieces as [|p pieces IH]; intros pre Hsep Hpre Hnot Hne Hall;
    [congruence|].
  inversion Hall as [|? ? [Hp Hps] Hrest]; subst.
  destruct pieces as [|q pieces].
  - simpl join. rewrite split_no_sep by (rewrite in_app_iff; tauto).
    simpl. rewrite <- (app_nil_r p) at 1.
    rewrite trim_surrounded; auto. constructor.
  - change (join [SPACE; sep; SPACE] (p :: q :: pieces))
      with (p ++ [SPACE] ++ sep :: [SPACE] ++ join [SPACE; sep; SPACE] (q :: pieces)).
    rewrite !app_assoc, <- (app_assoc pre p [SPACE]).
    rewrite split_app_sep.
    + rewrite map_cons, trim_surrounded; auto; [|repeat constructor].
      f_equal. apply (IH [SPACE]); auto; try discriminate.
      * repeat constructor.
      * intros [H | []]. congruence.
    + rewrite !in_app_iff. simpl. intros [H | [H | [H | []]]]; auto.
Qed.

Lemma mapi_map_in {A B C : Type} (h : A -> B) (f : nat -> B -> C)
    (g : nat -> A -> C) xs :
  (forall x, In x xs -> forall i, f i (h x) = g i x) ->
  forall i, mapi f (map h xs) i = mapi g xs i.
Proof.
  induction xs as [|x xs IH]; intros H i; simpl; [reflexivity|].
  rewrite H by (left; reflexivity). f_equal. apply IH.
  intros y Hy. apply H. right. exact Hy.
Qed.

Section RenderedClauseText.

Variable c : Clause.
Hypothesis Hne : c <> [].
Hypothesis Hnames : Forall (fun l => NameChars (variable l)) c.

Lemma clauseToString_trimmed : Trimmed (clauseToString c).
Proof.
  unfold clauseToString. split.
  - intros d t E. injection E as <- _. reflexivity.
  - intros t d E. rewrite app_assoc in E. apply app_inj_tail in E.
    destruct E as [_ <-]. reflexivity.
Qed.

Lemma clauseToString_no_and : ~ In AND (clauseToString c).
Proof.
  unfold clauseToString. rewrite !in_app_iff. intros [H | [H | H]].
  - destruct H as [H | []]. discriminate.
  - apply in_join in H.
    destruct H as [[H | [H | [H | []]]] | (p & Hp & Hx)]; try discriminate.
    apply in_map_iff in Hp. destruct Hp as (l & <- & Hin).
    revert Hx. apply rendered_no_and.
    rewrite Forall_forall in Hnames. auto.
  - destruct H as [H | []]. discriminate.
Qed.

Lemma removeParens_clauseToString :
  removeParens (clauseToString c)
  = join [SPACE; OR; SPACE] (map literalToString c).
Proof.
  unfold removeParens, clauseToString.
  rewrite !filter_app, filter_join. simpl. rewrite app_nil_r. f_equal.
  rewrite map_map. apply map_ext_in. intros l Hin.
  apply filter_all, Forall_forall. intros d Hd.
  rewrite Forall_forall in Hnames.
  rewrite (@rendered_no_paren l (Hnames _ Hin) _ Hd). reflexivity.
Qed.

Lemma literalPieces_clause :
  literalPieces (removeParens (clauseToString c)) = map literalToString c.
Proof.
  unfold literalPieces. rewrite removeParens_clauseToString.
  apply (@split_spaced_join OR (map literalToString c) []).
  - discriminate.
  - constructor.
  - auto.
  - destruct c; [congruence | discriminate].
  - apply Forall_forall. intros p Hp. apply in_map_iff in Hp.
    destruct Hp as (l & <- & Hin). rewrite Forall_forall in Hnames.
    split; [apply rendered_trimmed | apply rendered_no_or]; auto.
Qed.

Lemma clauseVertices_rendered ci :
  clauseVertices ci (removeParens (clauseToString c)) = verticesOfClause ci c.
Proof.
  unfold clauseVertices, verticesOfClause. rewrite literalPieces_clause.
  apply mapi_map_in. intros l Hin li. apply vertexOf_rendered.
  rewrite Forall_forall in Hnames. auto.
Qed.

End RenderedClauseText.

(** The lowering of the rendered text of a formula with at least one clause,
    no clause empty, names of letters and digits: the clause substrings are
    the clauses, and the vertices are the literal occurrences, in order. *)
Lemma lowering_of_rendered (f : CNFFormula) :
  f <> [] ->
  Forall (fun c => c <> [] /\ Forall (fun l => NameChars (variable l)) c) f ->
  clausePieces (formulaToString f)
  = map (fun c => removeParens (clauseToString c)) f
  /\ Graph.literals (Graph.parseFormulaToGraph (formulaToString f))
     = concat (mapi verticesOfClause f 0).
Proof.
  intros Hne Hf.
  assert (Hpieces : clausePieces (formulaToString f)
                    = map (fun c => removeParens (clauseToString c)) f).
  { unfold clausePieces, formulaToString.
    rewrite <- (map_map trim removeParens).
    change (join [SPACE; AND; SPACE] (map clauseToString f))
      with ([] ++ join [SPACE; AND; SPACE] (map clauseToString f)).
    rewrite split_spaced_join.
    - apply map_map.
    - discriminate.
    - constructor.
    - auto.
    - destruct f; [congruence | discriminate].
    - apply Forall_forall. intros p Hp. apply in_map_iff in Hp.
      destruct Hp as (c & <- & Hin). rewrite Forall_forall in Hf.
      destruct (Hf c Hin) as [_ Hn].
      split; [apply clauseToString_trimmed | apply clauseToString_no_and, Hn]. }
  split; [exact Hpieces|].
  rewrite literals_eq, Hpieces. f_equal.
  apply mapi_map_in. intros c Hin ci. rewrite Forall_forall in Hf.
  destruct (Hf c Hin) as [Hc Hn]. apply clauseVertices_rendered; assumption.
Qed.

(** A formula in 3-CNF with names of letters and digits. *)
Lemma ThreeCNF_rendered f :
  ThreeCNF f ->
  Forall (fun c => c <> [] /\ Forall (fun l => NameChars (variable l)) c) f.
Proof.
  apply Forall_impl. intros c [H3 Hn]. split; [|exact Hn].
  intros ->. discriminate H3.
Qed.

(** C2, as the code has it. For a formula in 3-CNF with [k >= 1] clauses
    (names of letters and digits), the lowering of its text makes exactly
    [3k] vertices, one per literal occurrence, keyed by clause index and
    position, with pairwise different identifiers; every edge joins two
    vertices; two vertices joined by an edge are of different clauses and
    not complementary; two vertices of different clauses that are not
    complementary are joined by an edge. *)
Theorem lowering_invariants (f : CNFFormula) :
  f <> [] -> ThreeCNF f ->
  let g := Graph.parseFormulaToGraph (formulaToString f) in
  length (Graph.literals g) = 3 * length f
  /\ Graph.literals g = concat (mapi verticesOfClause f 0)
  /\ NoDup (map Graph.id (Graph.literals g))
  /\ (forall e, In e (Graph.edges g) ->
        exists v1 v2, In v1 (Graph.literals g) /\ In v2 (Graph.literals g)
          /\ Graph.from e = Graph.id v1 /\ Graph.to e = Graph.id v2)
  /\ (forall v1 v2, In v1 (Graph.literals g) -> In v2 (Graph.literals g) ->
        Joined g v1 v2 ->
        Graph.clauseIndex v1 <> Graph.clauseIndex v2 /\ ~ Complementary v1 v2)
  /\ (forall v1 v2, In v1 (Graph.literals g) -> In v2 (Graph.literals g) ->
        Graph.clauseIndex v1 <> Graph.clauseIndex v2 -> ~ Complementary v1 v2 ->
        Joined g v1 v2).
Proof.
  intros Hne H3 g.
  destruct (lowering_of_rendered Hne (ThreeCNF_rendered H3)) as [Hpieces Hlits].
  assert (Htext : Forall (fun clause => length (literalPieces clause) = 3)
                         (clausePieces (formulaToString f))).
  { rewrite Hpieces. apply Forall_forall. intros p Hp. apply in_map_iff in Hp.
    destruct Hp as (c & <- & Hin).
    pose proof (ThreeCNF_rendered H3) as Hr. unfold ThreeCNF in H3.
    rewrite Forall_forall in Hr, H3.
    destruct (Hr c Hin) as [Hc Hn]. destruct (H3 c Hin) as [Hlen _].
    rewrite literalPieces_clause by assumption. rewrite length_map. exact Hlen. }
  destruct (lowering_text_invariants _ Htext)
    as (Hcount & _ & _ & Hnodup & Hends & Hsound & Hcomplete).
  rewrite Hpieces, length_map in Hcount.
  refine (conj Hcount (conj Hlits (conj Hnodup (conj Hends (conj Hsound Hcomplete))))).
Qed.

(** The formula with no clause renders as the empty text, which is one
    clause substring with one literal substring: its graph has one vertex,
    not none. *)
Lemma lowering_empty_formula :
  formulaToString [] = []
  /\ Graph.literals (Graph.parseFormulaToGraph (formulaToString []))
     = [Graph.mkLiteral (Graph.vertexId 0 0) [] false 0 (Graph.mkPosition 60 80)]
  /\ length (Graph.literals (Graph.parseFormulaToGraph (formulaToString [])))
     <> 3 * length (@nil Clause).
Proof. split; [reflexivity | split; [reflexivity | discriminate]]. Qed.
(** ** Clique search *)

Lemma hasEdge_spec edges a b :
  Graph.hasEdge edges a b = true <->
  exists e, In e edges
    /\ (Graph.from e = a /\ Graph.to e = b \/ Graph.from e = b /\ Graph.to e = a).
Proof.
  unfold Graph.hasEdge. rewrite existsb_exists.
  split; intros (e & He & H); exists e; (split; [exact He|]);
    rewrite orb_true_iff, !andb_true_iff, !eqb_eq in *; exact H.
Qed.

Lemma hasEdge_joined g v1 v2 :
  Graph.hasEdge (Graph.edges g) (Graph.id v1) (Graph.id v2) = true <-> Joined g v1 v2.
Proof. apply hasEdge_spec. Qed.

Section ForOf.

Context {A R : Type}.

Lemma forOf_some (xs : list A) (body : A -> option R) r :
  Graph.forOf xs body = Some r -> exists x, In x xs /\ body x = Some r.
Proof.
  induction xs as [|x xs IH]; simpl; [discriminate|].
  destruct (body x) as [r'|] eqn:Hx.
  - intros E. injection E as <-. exists x. auto.
  - intros E. destruct (IH E) as (y & Hy & Hb). exists y. auto.
Qed.

Lemma forOf_none (xs : list A) (body : A -> option R) :
  Graph.forOf xs body = None -> forall x, In x xs -> body x = None.
Proof.
  induction xs as [|x xs IH]; simpl; [contradiction|].
  destruct (body x) as [r'|] eqn:Hx; [discriminate|].
  intros E y [<- | Hy]; auto.
Qed.

Lemma forOf_ext (xs : list A) (f g : A -> option R) :
  (forall x, f x = g x) -> Graph.forOf xs f = Graph.forOf xs g.
Proof.
  intros H. induction xs as [|x xs IH]; simpl; [reflexivity|].
  rewrite H, IH. reflexivity.
Qed.

Lemma forOf_map {B : Type} (h : B -> A) (ys : list B) (body : A -> option R) :
  Graph.forOf (map h ys) body = Graph.forOf ys (fun y => body (h y)).
Proof.
  induction ys as [|y ys IH]; simpl; [reflexivity|].
  rewrite IH. reflexivity.
Qed.

End ForOf.

Lemma in_clauseGroup literals c v :
  In v (Graph.clauseGroup literals c) <-> In v literals /\ Graph.clauseIndex v = c.
Proof. unfold Graph.clauseGroup. rewrite filter_In, Nat.eqb_eq. tauto. Qed.

(** C3, as the code has it. The search looks at clauses 0, 1 and 2 only: it
    returns three vertices, one of each of these clauses and joined two by
    two by an edge, or nothing when no such three vertices exist. For a graph
    of exactly three clauses that is one vertex per clause. *)
Theorem findClique_three_clauses (g : Graph.t) : CliqueResult g (Graph.findClique g).
Proof.
  unfold Graph.findClique.
  match goal with |- CliqueResult g match ?search with _ => _ end =>
    destruct search as [clique|] eqn:Hs end.
  - apply forOf_some in Hs. destruct Hs as (l1 & H1 & Hs).
    apply forOf_some in Hs. destruct Hs as (l2 & H2 & Hs).
    apply forOf_some in Hs. destruct Hs as (l3 & H3 & Hs).
    apply in_clauseGroup in H1, H2, H3.
    destruct H1 as [H1 C1], H2 as [H2 C2], H3 as [H3 C3].
    cbv zeta in Hs.
    destruct (Graph.hasEdge (Graph.edges g) (Graph.id l1) (Graph.id l2)) eqn:E12;
      [|discriminate].
    destruct (Graph.hasEdge (Graph.edges g) (Graph.id l1) (Graph.id l3)) eqn:E13;
      [|discriminate].
    destruct (Graph.hasEdge (Graph.edges g) (Graph.id l2) (Graph.id l3)) eqn:E23;
      [|discriminate].
    injection Hs as <-.
    apply hasEdge_joined in E12, E13, E23. apply Clique_found; assumption.
  - apply Clique_none. intros l1 l2 l3 H1 H2 H3 C1 C2 C3 (J12 & J13 & J23).
    apply hasEdge_joined in J12, J13, J23.
    assert (G1 : In l1 (Graph.clauseGroup (Graph.literals g) 0))
      by (apply in_clauseGroup; auto).
    assert (G2 : In l2 (Graph.clauseGroup (Graph.literals g) 1))
      by (apply in_clauseGroup; auto).
    assert (G3 : In l3 (Graph.clauseGroup (Graph.literals g) 2))
      by (apply in_clauseGroup; auto).
    pose proof (forOf_none _ _ Hs l1 G1) as Hs1. cbv beta in Hs1.
    pose proof (forOf_none _ _ Hs1 l2 G2) as Hs2. cbv beta in Hs2.
    pose proof (forOf_none _ _ Hs2 l3 G3) as Hs3. cbv beta zeta in Hs3.
    rewrite J12, J13, J23 in Hs3. discriminate Hs3.
Qed.

(** On a lowered graph the three vertices found are not complementary two by
    two. *)
Lemma findClique_compatible formula l1 l2 l3 :
  let g := Graph.parseFormulaToGraph formula in
  In l1 (Graph.literals g) -> In l2 (Graph.literals g) -> In l3 (Graph.literals g) ->
  Joined g l1 l2 -> Joined g l1 l3 -> Joined g l2 l3 ->
  ~ Complementary l1 l2 /\ ~ Complementary l1 l3 /\ ~ Complementary l2 l3.
Proof.
  intros g H1 H2 H3 J12 J13 J23.
  repeat split; eapply joined_sound; eassumption.
Qed.

(** The lowered graph of four clauses has vertices of clause index 3, and the
    search returns three vertices, none of them of that clause. *)
Lemma findClique_misses_fourth_clause :
  length (clausePieces fourClauses) = 4
  /\ Graph.findClique fourClauseGraph
     = [Graph.vertexId 0 0; Graph.vertexId 1 0; Graph.vertexId 2 0]
  /\ Exists (fun v => Graph.clauseIndex v = 3) (Graph.literals fourClauseGraph)
  /\ Forall (fun v => Graph.clauseIndex v = 3 ->
                      ~ In (Graph.id v) (Graph.findClique fourClauseGraph))
            (Graph.literals fourClauseGraph).
Proof.
  split; [reflexivity | split; [reflexivity | split]].
  - apply Exists_exists. exists (vertexOf 3 0 (lit "A")). split; [|reflexivity].
    vm_compute. auto 20.
  - apply Forall_forall. intros v Hv H3 Hin.
    assert (E : Graph.findClique fourClauseGraph
                = [Graph.vertexId 0 0; Graph.vertexId 1 0; Graph.vertexId 2 0])
      by reflexivity.
    rewrite E in Hin. clear E.
    apply in_literals in Hv. destruct Hv as (ci & li & clause & l & _ & _ & ->).
    simpl in H3. subst ci. simpl in Hin.
    destruct Hin as [H | [H | [H | []]]];
      apply vertexId_injective in H; destruct H; discriminate.
Qed.

(** *** Determinism *)

Lemma clauseGroup_ids literals c :
  map Graph.id (Graph.clauseGroup literals c) = groupIds (map keyOf literals) c.
Proof.
  unfold Graph.clauseGroup, groupIds.
  induction literals as [|l ls IH]; simpl; [reflexivity|].
  destruct (Graph.clauseIndex l =? c); simpl; rewrite IH; reflexivity.
Qed.

(** The search reads the identifiers and the clause indices of the vertices,
    and the edges, and nothing else. *)
Lemma findClique_by_keys g :
  Graph.findClique g =
  match searchIds (Graph.edges g)
          (groupIds (map keyOf (Graph.literals g)) 0)
          (groupIds (map keyOf (Graph.literals g)) 1)
          (groupIds (map keyOf (Graph.literals g)) 2) with
  | Some clique => clique
  | None => []
  end.
Proof.
  unfold Graph.findClique, searchIds. rewrite <- !clauseGroup_ids.
  match goal with
  | |- match ?a with _ => _ end = match ?b with _ => _ end =>
      replace b with a; [reflexivity|]
  end.
  rewrite forOf_map. apply forOf_ext. intros l1.
  rewrite forOf_map. apply forOf_ext. intros l2.
  rewrite forOf_map. reflexivity.
Qed.

(** C8. Two calls of the search on graphs with the same vertices (identifier
    and clause index of each, in order) and the same edges return the same
    witness, or both return nothing. *)
Theorem findClique_deterministic (g1 g2 : Graph.t) :
  map keyOf (Graph.literals g1) = map keyOf (Graph.literals g2) ->
  Graph.edges g1 = Graph.edges g2 ->
  Graph.findClique g1 = Graph.findClique g2.
Proof.
  intros Hv He. rewrite !findClique_by_keys, Hv, He. reflexivity.
Qed.
(** ** Further properties of the program *)

(** *** The splitting run, with its names *)

Lemma splitWhile_chainOf remaining : forall st,
  exists emitted names,
    Extends st (fst (splitWhile st remaining)) emitted names
    /\ ChainOf names remaining (emitted ++ [snd (splitWhile st remaining)]).
Proof.
  remember (length remaining) as n eqn:Hn. revert remaining Hn.
  induction n as [n IH] using lt_wf_ind. intros remaining Hn st.
  destruct remaining as [|r0 [|r1 [|r2 [|r3 rest]]]].
  1-4: exists [], []; rewrite splitWhile_short by (simpl; lia); simpl;
       split; [apply Extends_refl | apply ChainOf_short; simpl; lia].
  simp splitWhile. simpl.
  set (x := lit "x" ++ decimal (St.helperVarCount st)) in *.
  match goal with |- context [splitWhile ?s ?r] =>
    destruct (IH (length r) ltac:(subst n; simpl; lia) r eq_refl s)
      as (em & nm & Hext & Hch) end.
  exists ([r0; r1; pos x] :: em), (x :: nm). split.
  - eapply Extends_then;
      [ eapply Extends_then;
          [ apply (Extends_freshVar st in_prefix_x)
          | eapply Extends_then;
              [ apply Extends_pushResult | apply Extends_pushStep
              | reflexivity | reflexivity ]
          | reflexivity | reflexivity ]
      | exact Hext | reflexivity | reflexivity ].
  - simpl. apply ChainOf_step; [simpl; lia | exact Hch].
Qed.

Lemma ChainOf_last names c cs :
  ChainOf names c cs -> c <> [] -> forall c', In c' cs -> c' <> [].
Proof.
  induction 1 as [c Hc | r0 r1 rest x ns cs Hrest Hch IH]; intros Hne c' Hin.
  - destruct Hin as [<- | []]. exact Hne.
  - destruct Hin as [<- | Hin]; [discriminate|].
    apply IH; [discriminate | exact Hin].
Qed.

Lemma splitClause_chainOf st clause :
  exists emitted names,
    Extends st (splitClause st clause) emitted names
    /\ ChainOf names clause emitted.
Proof.
  unfold splitClause.
  destruct (length clause <=? 3) eqn:Hle.
  - apply Nat.leb_le in Hle. exists [clause], []. split.
    + destruct (length clause <? 3); [|apply Extends_pushResult].
      eapply Extends_then;
        [apply Extends_pushResult | apply Extends_pushStep | reflexivity | reflexivity].
    + apply ChainOf_short. exact Hle.
  - apply Nat.leb_gt in Hle.
    assert (Hne : clause <> []) by (destruct clause; simpl in *; [lia | discriminate]).
    match goal with |- context [splitWhile ?s clause] =>
      destruct (splitWhile_chainOf clause s) as (em & nm & Hext & Hch);
      destruct (splitWhile s clause) as [st2 remaining] eqn:Hsw end.
    simpl in *.
    exists (em ++ [remaining]), nm. split; [|exact Hch].
    assert (Hlast : remaining <> []).
    { apply (ChainOf_last Hch Hne). apply in_or_app. right. left. reflexivity. }
    replace (0 <? length remaining) with true
      by (symmetry; apply Nat.ltb_lt; destruct remaining; [congruence | simpl; lia]).
    eapply Extends_then;
      [ apply Extends_pushStep
      | eapply Extends_then;
          [ exact Hext
          | eapply Extends_then;
              [ apply Extends_pushResult | apply Extends_pushStep
              | reflexivity | reflexivity ]
          | reflexivity | reflexivity ]
      | reflexivity | symmetry; apply app_nil_r ].
Qed.

Lemma splitLoop_chainsOf cnf : forall st,
  exists out names,
    Extends st (fold_left splitClause cnf st) out names
    /\ ChainsOf names cnf out.
Proof.
  induction cnf as [|clause cnf IH]; intros st; simpl.
  - exists [], []. split; [apply Extends_refl | constructor].
  - destruct (splitClause_chainOf st clause) as (em & nm & Hext & Hch).
    destruct (IH (splitClause st clause)) as (out & nms & Hext' & Hall).
    exists (em ++ out), (nm ++ nms). split.
    + eapply Extends_trans; eassumption.
    + constructor; assumption.
Qed.

Lemma padClause_paddedOf st clause :
  exists clause' names,
    Extends st (padClause st clause) [clause'] names
    /\ PaddedOf names clause clause'.
Proof.
  unfold padClause.
  destruct (length clause =? 1) eqn:H1; [|destruct (length clause =? 2) eqn:H2].
  - apply Nat.eqb_eq in H1. destruct clause as [|l [|? ?]]; try discriminate.
    simpl. eexists; eexists (_ :: nil). split.
    + eapply Extends_then;
        [ apply (Extends_freshVar st in_prefix_y)
        | eapply Extends_then;
            [ apply Extends_pushStep | apply Extends_pushResult
            | reflexivity | reflexivity ]
        | reflexivity | reflexivity ].
    + apply PaddedOf_one.
  - apply Nat.eqb_eq in H2. destruct clause as [|l1 [|l2 [|? ?]]]; try discriminate.
    simpl. eexists; eexists (_ :: nil). split.
    + eapply Extends_then;
        [ apply (Extends_freshVar st in_prefix_z)
        | eapply Extends_then;
            [ apply Extends_pushStep | apply Extends_pushResult
            | reflexivity | reflexivity ]
        | reflexivity | reflexivity ].
    + apply PaddedOf_two.
  - apply Nat.eqb_neq in H1, H2. exists clause, []. split.
    + apply Extends_pushResult.
    + apply PaddedOf_other; assumption.
Qed.

Lemma padLoop_paddedAll cs : forall st,
  exists cs' names,
    Extends st (fold_left padClause cs st) cs' names
    /\ PaddedAll names cs cs'.
Proof.
  induction cs as [|clause cs IH]; intros st; simpl.
  - exists [], []. split; [apply Extends_refl | constructor].
  - destruct (padClause_paddedOf st clause) as (c' & nm & Hext & Hp).
    destruct (IH (padClause st clause)) as (cs' & nms & Hext' & Hall).
    exists (c' :: cs'), (nm ++ nms). split.
    + change (c' :: cs') with ([c'] ++ cs').
      eapply Extends_trans; eassumption.
    + constructor; assumption.
Qed.

Lemma padPass_spec st :
  exists names,
    St.fresh (padPass st) = St.fresh st ++ names
    /\ PaddedAll names (St.result st) (St.result (padPass st)).
Proof.
  unfold padPass.
  destruct (padLoop_paddedAll (St.result st)
              (St.mk (St.steps st) [] (St.helperVarCount st) (St.fresh st)))
    as (cs' & ms & [rd fd _ _] & Hp).
  simpl in rd, fd. exists ms. rewrite rd, fd. auto.
Qed.

Lemma transformRun_split f :
  transformRun f Method.split
  = pushStep (lit "Transformation complete! All clauses now have exactly 3 literals.")
      (padPass
         (pushStep (lit "Padding short clauses to exactly 3 literals...")
            (fold_left splitClause f
               (pushStep (lit "Identifying clauses that need splitting...")
                         (St.mk [] [] 1 []))))).
Proof. reflexivity. Qed.

(** The whole splitting branch: the chains of the input clauses, then the
    padding of the clauses of the chains; the names are numbered from 1. *)
Lemma splitRun_spec f m :
  m <> Method.padding ->
  exists ns ms mid,
    ChainsOf ns f mid
    /\ PaddedAll ms mid (formula (transformTo3CNF f m))
    /\ freshNames f m = ns ++ ms
    /\ Numbered 1 (ns ++ ms).
Proof.
  intros Hm.
  assert (Hrun : transformRun f m = transformRun f Method.split)
    by (destruct m; [reflexivity | congruence | reflexivity]).
  pose proof (transformRun_numbered f m) as Hnum.
  unfold transformTo3CNF, freshNames in *. rewrite Hrun in *. clear Hrun Hm.
  rewrite transformRun_split in *. simpl formula.
  rewrite fresh_pushStep in *. rewrite ?result_pushStep.
  set (sta := pushStep _ (St.mk [] [] 1 [])) in *.
  destruct (splitLoop_chainsOf f sta) as (mid & ns & [rb fb _ _] & Hch).
  simpl in rb, fb.
  set (stc := pushStep _ (fold_left splitClause f sta)) in *.
  destruct (padPass_spec stc) as (ms & fd & Hp).
  unfold stc in fd, Hp. rewrite fresh_pushStep in fd. rewrite result_pushStep in Hp.
  rewrite fb in fd. rewrite rb in Hp. fold stc in fd, Hp.
  exists ns, ms, mid. rewrite fd in *. auto.
Qed.
(** *** Truth under an assignment *)

Lemma satisfiesClause_iff a c :
  satisfiesClause a c = true <-> exists l, In l c /\ holds a l = true.
Proof. apply existsb_exists. Qed.

Lemma satisfies_iff a f :
  satisfies a f = true <-> forall c, In c f -> satisfiesClause a c = true.
Proof. apply forallb_forall. Qed.

Lemma satisfies_app a f g :
  satisfies a (f ++ g) = satisfies a f && satisfies a g.
Proof. apply forallb_app. Qed.

Lemma holds_pos_neg a v : holds a (pos v) = negb (holds a (neg v)).
Proof. unfold holds. simpl. rewrite negb_involutive. reflexivity. Qed.

(** An assignment that satisfies the clauses of a chain satisfies the clause
    the chain was made of. *)
Lemma ChainOf_sound a ns c cs :
  ChainOf ns c cs -> satisfies a cs = true -> satisfiesClause a c = true.
Proof.
  induction 1 as [c Hc | r0 r1 rest x ns cs Hrest Hch IH].
  - simpl. rewrite andb_true_r. auto.
  - change (satisfies a ([r0; r1; pos x] :: cs))
      with ((holds a r0 || (holds a r1 || (holds a (pos x) || false)))
            && satisfies a cs).
    change (satisfiesClause a (r0 :: r1 :: rest))
      with (holds a r0 || (holds a r1 || existsb (holds a) rest)).
    change (satisfiesClause a (neg x :: rest))
      with (holds a (neg x) || existsb (holds a) rest) in IH.
    rewrite holds_pos_neg. intros H. apply andb_true_iff in H.
    destruct H as [H Hcs]. specialize (IH Hcs).
    destruct (holds a r0), (holds a r1), (holds a (neg x));
      simpl in *; try reflexivity; try discriminate; exact IH.
Qed.

Lemma ChainsOf_sound a ns f out :
  ChainsOf ns f out -> satisfies a out = true -> satisfies a f = true.
Proof.
  induction 1 as [|ns c cs ms f out Hc Hf IH]; [reflexivity|].
  rewrite satisfies_app, andb_true_iff. intros [H1 H2]. simpl.
  rewrite (ChainOf_sound a Hc H1), (IH H2). reflexivity.
Qed.

(** Padding keeps the literals of the clause. *)
Lemma PaddedOf_incl ns c c' : PaddedOf ns c c' -> incl c c'.
Proof. destruct 1; intros x Hx; simpl in *; tauto. Qed.

Lemma satisfiesClause_incl a c c' :
  incl c c' -> satisfiesClause a c = true -> satisfiesClause a c' = true.
Proof.
  intros Hincl H. apply satisfiesClause_iff in H. destruct H as (l & Hl & Hh).
  apply satisfiesClause_iff. exists l. auto.
Qed.

(** A padded clause of one literal holds under every assignment. *)
Lemma PaddedOf_unit a ns l c' : PaddedOf ns [l] c' -> satisfiesClause a c' = true.
Proof.
  inversion 1; subst; simpl.
  - rewrite holds_pos_neg. destruct (holds a (neg v)); simpl;
      rewrite ?orb_true_r; reflexivity.
  - simpl in *. congruence.
Qed.

(** *** The shape of chains *)

Lemma ChainOf_length ns c cs :
  ChainOf ns c cs -> length cs = chainLength c /\ length ns = chainLength c - 1.
Proof.
  unfold chainLength.
  induction 1 as [c Hc | r0 r1 rest x ns cs Hrest Hch IH].
  - apply Nat.leb_le in Hc. rewrite Hc. auto.
  - destruct IH as [IH1 IH2]. simpl length in *.
    replace (S (S (length rest)) <=? 3) with false
      by (symmetry; apply Nat.leb_gt; lia).
    destruct (S (length rest) <=? 3) eqn:E.
    + apply Nat.leb_le in E. rewrite IH1, IH2. lia.
    + apply Nat.leb_gt in E. rewrite IH1, IH2. lia.
Qed.

Lemma ChainOf_three ns c cs :
  ChainOf ns c cs -> 3 <= length c -> Forall (fun c' => length c' = 3) cs.
Proof.
  induction 1 as [c Hc | r0 r1 rest x ns cs Hrest Hch IH]; intros H3.
  - constructor; [lia | constructor].
  - constructor; [reflexivity | apply IH; simpl; lia].
Qed.

Lemma ChainOf_keeps ns c cs l :
  ChainOf ns c cs -> In l c -> exists c', In c' cs /\ In l c'.
Proof.
  induction 1 as [c Hc | r0 r1 rest x ns cs Hrest Hch IH]; intros Hl.
  - exists c. simpl. auto.
  - destruct Hl as [<- | [<- | Hl]].
    + eexists. split; [left; reflexivity | simpl; auto].
    + eexists. split; [left; reflexivity | simpl; auto].
    + destruct IH as (c' & Hc' & Hin); [right; exact Hl|].
      exists c'. split; [right; exact Hc' | exact Hin].
Qed.

Lemma ChainsOf_three ns f out :
  ChainsOf ns f out -> Forall (fun c => 3 <= length c) f ->
  Forall (fun c => length c = 3) out.
Proof.
  induction 1 as [|ns c cs ms f out Hc Hf IH]; intros H3; [constructor|].
  inversion H3; subst. apply Forall_app. split.
  - eapply ChainOf_three; eassumption.
  - apply IH. assumption.
Qed.

Lemma ChainsOf_keeps ns f out c l :
  ChainsOf ns f out -> In c f -> In l c -> exists c', In c' out /\ In l c'.
Proof.
  induction 1 as [|ns c0 cs ms f out Hc Hf IH]; intros Hin Hl; [contradiction|].
  destruct Hin as [-> | Hin].
  - destruct (ChainOf_keeps l Hc Hl) as (c' & Hc' & Hl').
    exists c'. split; [apply in_or_app; left; exact Hc' | exact Hl'].
  - destruct (IH Hin Hl) as (c' & Hc' & Hl').
    exists c'. split; [apply in_or_app; right; exact Hc' | exact Hl'].
Qed.

Lemma ChainsOf_length ns f out :
  ChainsOf ns f out -> length out = list_sum (map chainLength f).
Proof.
  induction 1 as [|ns c cs ms f out Hc Hf IH]; [reflexivity|].
  rewrite length_app, IH. simpl. destruct (ChainOf_length Hc) as [-> _].
  reflexivity.
Qed.

Lemma PaddedAll_three ms cs cs' :
  PaddedAll ms cs cs' -> Forall (fun c => length c = 3) cs -> cs' = cs /\ ms = [].
Proof.
  induction 1 as [|ns c c' ms cs cs' Hp Hall IH]; intros H3; [auto|].
  inversion H3 as [|? ? Hc Hrest]; subst. destruct (IH Hrest) as [-> ->].
  inversion Hp; subst; try discriminate. auto.
Qed.

Lemma PaddedAll_length ms cs cs' : PaddedAll ms cs cs' -> length cs' = length cs.
Proof. induction 1; simpl; congruence. Qed.

Lemma PaddedAll_keeps ms cs cs' c l :
  PaddedAll ms cs cs' -> In c cs -> In l c -> exists c', In c' cs' /\ In l c'.
Proof.
  induction 1 as [|ns c0 c0' ms cs cs' Hp Hall IH]; intros Hin Hl; [contradiction|].
  destruct Hin as [-> | Hin].
  - exists c0'. split; [left; reflexivity | apply (PaddedOf_incl Hp), Hl].
  - destruct (IH Hin Hl) as (c' & Hc' & Hl'). exists c'. split; [right|]; auto.
Qed.

Lemma PaddedAll_units a ms cs cs' :
  PaddedAll ms cs cs' -> Forall (fun c => length c = 1) cs ->
  satisfies a cs' = true.
Proof.
  induction 1 as [|ns c c' ms cs cs' Hp Hall IH]; intros H1; [reflexivity|].
  inversion H1 as [|? ? Hc Hrest]; subst. simpl. rewrite (IH Hrest), andb_true_r.
  destruct c as [|l [|? ?]]; try discriminate.
  eapply PaddedOf_unit; eassumption.
Qed.

Lemma ChainsOf_short ns f out :
  ChainsOf ns f out -> Forall (fun c => length c <= 3) f -> out = f /\ ns = [].
Proof.
  induction 1 as [|ns c cs ms f out Hc Hf IH]; intros H3; [auto|].
  inversion H3 as [|? ? Hlen Hrest]; subst. destruct (IH Hrest) as [-> ->].
  inversion Hc; subst; [auto|]. simpl in Hlen. lia.
Qed.
(** *** Arity of the result, from the relations *)

Lemma ChainOf_bounds ns c cs :
  ChainOf ns c cs -> c <> [] -> Forall (fun c' => 1 <= length c' <= 3) cs.
Proof.
  induction 1 as [c Hc | r0 r1 rest x ns cs Hrest Hch IH]; intros Hne.
  - constructor; [|constructor]. destruct c; [congruence | simpl in *; lia].
  - constructor; [simpl; lia | apply IH; discriminate].
Qed.

Lemma ChainsOf_bounds ns f out :
  ChainsOf ns f out -> Forall (fun c => c <> []) f ->
  Forall (fun c => 1 <= length c <= 3) out.
Proof.
  induction 1 as [|ns c cs ms f out Hc Hf IH]; intros Hne; [constructor|].
  inversion Hne; subst. apply Forall_app. split.
  - eapply ChainOf_bounds; eassumption.
  - apply IH. assumption.
Qed.

Lemma PaddedAll_arity ms cs cs' :
  PaddedAll ms cs cs' -> Forall (fun c => 1 <= length c <= 3) cs ->
  Forall (fun c => length c = 3) cs'.
Proof.
  induction 1 as [|ns c c' ms cs cs' Hp Hall IH]; intros Hb; constructor.
  - inversion Hb; subst. inversion Hp; subst; simpl in *; lia.
  - apply IH. inversion Hb; assumption.
Qed.

Lemma paddingRun_spec f :
  Forall2 (PaddingOnly (freshNames f Method.padding)) f
          (formula (transformTo3CNF f Method.padding)).
Proof.
  unfold transformTo3CNF, freshNames, transformRun. simpl formula.
  rewrite fresh_pushStep.
  set (sta := pushStep _ (St.mk [] [] 1 [])).
  destruct (paddingLoop_spec f sta) as (cs' & nms & [r fr _ _] & Hall).
  simpl in r, fr. rewrite r, fr. apply Hall, incl_refl.
Qed.

(** Every clause of the result has three literals: with the padding-only
    method always, with the other two when no clause of the input is
    empty. *)
Lemma transform_arity f m :
  (m <> Method.padding -> Forall (fun c => c <> []) f) ->
  Forall (fun c => length c = 3) (formula (transformTo3CNF f m)).
Proof.
  intros Hne.
  assert (Hcases : m = Method.padding \/ m <> Method.padding)
    by (destruct m; [right | left | right]; congruence).
  destruct Hcases as [-> | Hm].
  - pose proof (paddingRun_spec f) as H.
    induction H; constructor; eauto using PaddingOnly_arity.
  - destruct (splitRun_spec f Hm) as (ns & ms & mid & Hch & Hp & _).
    eapply PaddedAll_arity; [exact Hp|].
    eapply ChainsOf_bounds; [exact Hch | exact (Hne Hm)].
Qed.

(** C1. With the splitting strategy (method ['split'] or ['tseitin']), every
    clause of the returned formula has exactly three literals, for every
    formula whose clauses are non-empty (the data model's clause).  The
    first loop chain-splits each input clause, in order, and every link of
    a chain takes its own helper name: the clause emitted has it positive
    and the rest of the chain starts with its negation.  The second pass
    pads an arity-1 clause with one name and the negation of the same name,
    and an arity-2 clause with one positive name.  The names [ns] of the
    links and [ms] of the paddings are, in the order they are taken, all the
    names of the run; they are made from the counter values 1, 2, 3, ...,
    one value for each name, and no name occurs twice among them. *)
Theorem splitting_arity_three (f : CNFFormula) (m : Method.t) :
  m <> Method.padding ->
  Forall (fun c => c <> []) f ->
  Forall (fun c => length c = 3) (formula (transformTo3CNF f m))
  /\ exists ns ms mid,
       ChainsOf ns f mid
       /\ PaddedAll ms mid (formula (transformTo3CNF f m))
       /\ freshNames f m = ns ++ ms
       /\ Numbered 1 (ns ++ ms)
       /\ NoDup (ns ++ ms).
Proof.
  intros Hm Hne.
  destruct (splitRun_spec f Hm) as (ns & ms & mid & Hch & Hp & Hfresh & Hnum).
  split.
  - eapply PaddedAll_arity; [exact Hp|].
    eapply ChainsOf_bounds; [exact Hch | exact Hne].
  - exists ns, ms, mid.
    refine (conj Hch (conj Hp (conj Hfresh (conj Hnum _)))).
    eapply Numbered_NoDup. exact Hnum.
Qed.

(** *** A formula that is already in 3-CNF *)

Lemma fold_pushResult (body : St.t -> Clause -> St.t) f :
  (forall st c, In c f -> body st c = pushResult c st) ->
  forall st,
    fold_left body f st
    = St.mk (St.steps st) (St.result st ++ f) (St.helperVarCount st) (St.fresh st).
Proof.
  induction f as [|c f IH]; intros Hbody st; simpl.
  - rewrite app_nil_r. destruct st; reflexivity.
  - rewrite Hbody by (left; reflexivity).
    rewrite IH by (intros; apply Hbody; right; assumption).
    unfold pushResult. simpl. rewrite <- app_assoc. reflexivity.
Qed.

Lemma paddingClause_three st c :
  length c = 3 -> paddingClause st c = pushResult c st.
Proof. intros H. unfold paddingClause. rewrite H. reflexivity. Qed.

(** X1. A formula whose clauses all have three literals goes through each of
    the three methods unchanged, and no name is taken from the counter. *)
Theorem three_cnf_unchanged (f : CNFFormula) (m : Method.t) :
  Forall (fun c => length c = 3) f ->
  formula (transformTo3CNF f m) = f /\ freshNames f m = [].
Proof.
  intros H3.
  assert (Hcases : m = Method.padding \/ m <> Method.padding)
    by (destruct m; [right | left | right]; congruence).
  destruct Hcases as [-> | Hm].
  - unfold transformTo3CNF, freshNames, transformRun. simpl formula.
    rewrite fresh_pushStep.
    rewrite (fold_pushResult paddingClause f).
    + simpl. auto.
    + intros st c Hc. apply paddingClause_three.
      rewrite Forall_forall in H3. auto.
  - destruct (splitRun_spec f Hm) as (ns & ms & mid & Hch & Hp & Hfresh & _).
    destruct (ChainsOf_short Hch) as [-> ->].
    { eapply Forall_impl; [|exact H3]. simpl. intros c Hc. lia. }
    destruct (PaddedAll_three Hp H3) as [Hout ->].
    rewrite Hfresh. auto.
Qed.

(** X2. Running a method on the result of a method changes nothing: the
    result of the first run is a fixed point of all three methods. *)
Theorem transform_idempotent (f : CNFFormula) (m m' : Method.t) :
  (m <> Method.padding -> Forall (fun c => c <> []) f) ->
  formula (transformTo3CNF (formula (transformTo3CNF f m)) m')
  = formula (transformTo3CNF f m).
Proof.
  intros Hne.
  pose proof (transform_arity Hne) as H3.
  assert (Hcases : m' = Method.padding \/ m' <> Method.padding)
    by (destruct m'; [right | left | right]; congruence).
  destruct Hcases as [-> | Hm].
  - unfold transformTo3CNF at 1. unfold transformRun. simpl formula.
    rewrite (fold_pushResult paddingClause).
    + reflexivity.
    + intros st c Hc. apply paddingClause_three.
      rewrite Forall_forall in H3. auto.
  - destruct (splitRun_spec (formula (transformTo3CNF f m)) Hm)
      as (ns & ms & mid & Hch & Hp & _).
    destruct (ChainsOf_short Hch) as [-> ->].
    { eapply Forall_impl; [|exact H3]. simpl. intros c Hc. lia. }
    destruct (PaddedAll_three Hp H3) as [Hout _]. exact Hout.
Qed.

(** *** What the splitting strategy keeps and makes *)

Lemma ChainOf_needsPadding ns c cs :
  ChainOf ns c cs ->
  length (filter needsPadding cs) = if needsPadding c then 1 else 0.
Proof.
  induction 1 as [c Hc | r0 r1 rest x ns cs Hrest Hch IH].
  - simpl. destruct (needsPadding c); reflexivity.
  - change (filter needsPadding ([r0; r1; pos x] :: cs))
      with (filter needsPadding cs).
    rewrite IH. unfold needsPadding. simpl length.
    destruct (length rest) as [|[|n]]; [lia | lia | reflexivity].
Qed.

Lemma ChainsOf_counts ns f out :
  ChainsOf ns f out ->
  length ns = list_sum (map (fun c => chainLength c - 1) f)
  /\ length (filter needsPadding out) = length (filter needsPadding f).
Proof.
  induction 1 as [|ns c cs ms f out Hc Hf IH]; [auto|].
  destruct IH as [IH1 IH2]. destruct (ChainOf_length Hc) as [_ Hn].
  split.
  - rewrite length_app, IH1, Hn. reflexivity.
  - rewrite filter_app, length_app, IH2, (ChainOf_needsPadding Hc). simpl.
    destruct (needsPadding c); reflexivity.
Qed.

Lemma PaddedAll_count ms cs cs' :
  PaddedAll ms cs cs' -> length ms = length (filter needsPadding cs).
Proof.
  induction 1 as [|ns c c' ms cs cs' Hp Hall IH]; [reflexivity|].
  rewrite length_app, IH. simpl.
  inversion Hp as [l v | l1 l2 v | c0 H1 H2]; subst; try reflexivity.
  unfold needsPadding. apply Nat.eqb_neq in H1, H2. rewrite H1, H2. reflexivity.
Qed.

(** X3. The splitting strategy drops no literal. It makes one clause of a
    clause of at most three literals and [n - 2] clauses of a clause of
    [n > 3] literals, and takes one name for each clause it adds and one for
    each clause of one or two literals. *)
Theorem splitting_keeps_literals (f : CNFFormula) (m : Method.t) :
  m <> Method.padding ->
  (forall c l, In c f -> In l c ->
     exists c', In c' (formula (transformTo3CNF f m)) /\ In l c')
  /\ length (formula (transformTo3CNF f m)) = list_sum (map chainLength f)
  /\ length (freshNames f m)
     = list_sum (map (fun c => chainLength c - 1) f)
       + length (filter needsPadding f).
Proof.
  intros Hm.
  destruct (splitRun_spec f Hm) as (ns & ms & mid & Hch & Hp & Hfresh & _).
  destruct (ChainsOf_counts Hch) as [Hns Hshort].
  split; [|split].
  - intros c l Hc Hl.
    destruct (ChainsOf_keeps c l Hch Hc Hl) as (c1 & Hc1 & Hl1).
    exact (PaddedAll_keeps c1 l Hp Hc1 Hl1).
  - rewrite (PaddedAll_length Hp). apply (ChainsOf_length Hch).
  - rewrite Hfresh, length_app, Hns, (PaddedAll_count Hp), Hshort. reflexivity.
Qed.

(** *** Satisfiability *)

(** X5. When every clause of the input has at least three literals, an
    assignment that satisfies the result of the splitting strategy
    satisfies the input. *)
Theorem splitting_sound (f : CNFFormula) (m : Method.t) (a : Assignment) :
  m <> Method.padding ->
  Forall (fun c => 3 <= length c) f ->
  satisfies a (formula (transformTo3CNF f m)) = true ->
  satisfies a f = true.
Proof.
  intros Hm H3 Hsat.
  destruct (splitRun_spec f Hm) as (ns & ms & mid & Hch & Hp & _).
  destruct (PaddedAll_three Hp (ChainsOf_three Hch H3)) as [Hout _].
  rewrite Hout in Hsat. eapply ChainsOf_sound; eassumption.
Qed.

(** X7. The second pass turns a clause of one literal into a clause that
    holds under every assignment: the result for a formula of one-literal
    clauses is satisfied by every assignment, whatever the formula says. *)
Theorem splitting_unit_clauses (f : CNFFormula) (m : Method.t) (a : Assignment) :
  m <> Method.padding ->
  Forall (fun c => length c = 1) f ->
  satisfies a (formula (transformTo3CNF f m)) = true.
Proof.
  intros Hm H1.
  destruct (splitRun_spec f Hm) as (ns & ms & mid & Hch & Hp & _).
  destruct (ChainsOf_short Hch) as [-> _].
  { eapply Forall_impl; [|exact H1]. simpl. intros c Hc. lia. }
  eapply PaddedAll_units; eassumption.
Qed.
Lemma PaddingOnly_up fresh c c' :
  PaddingOnly fresh c c' -> length c <= 3 -> incl c c'.
Proof.
  destruct 1 as [c H | c pad H1 H2 H3]; intros Hle; [lia|].
  apply incl_appl, incl_refl.
Qed.

Lemma PaddingOnly_down fresh c c' :
  PaddingOnly fresh c c' -> 3 <= length c -> incl c' c.
Proof.
  destruct 1 as [c H | c pad H1 H2 H3]; intros Hge.
  - intros l Hl. rewrite <- (firstn_skipn 3 c). apply in_or_app. left. exact Hl.
  - rewrite length_app in H2. destruct pad; [|simpl in H2; lia].
    rewrite app_nil_r. apply incl_refl.
Qed.

(** X8. With the padding-only method the same assignment serves both
    formulas in the direction the method allows: when no clause has more
    than three literals, what satisfies the input satisfies the result; when
    every clause has at least three, what satisfies the result satisfies the
    input. *)
Theorem padding_only_semantics (f : CNFFormula) (a : Assignment) :
  (Forall (fun c => length c <= 3) f ->
   satisfies a f = true ->
   satisfies a (formula (transformTo3CNF f Method.padding)) = true)
  /\ (Forall (fun c => 3 <= length c) f ->
      satisfies a (formula (transformTo3CNF f Method.padding)) = true ->
      satisfies a f = true).
Proof.
  pose proof (paddingRun_spec f) as H.
  generalize dependent (formula (transformTo3CNF f Method.padding)).
  generalize (freshNames f Method.padding). intros fresh out H.
  split; intros Hlen; induction H as [|c c' g out Hc Hf IH]; simpl; auto;
    inversion Hlen; subst; rewrite !andb_true_iff; intros [Hs1 Hs2];
    (split; [|apply IH; assumption]).
  - eapply satisfiesClause_incl; [eapply PaddingOnly_up; eassumption | exact Hs1].
  - eapply satisfiesClause_incl; [eapply PaddingOnly_down; eassumption | exact Hs1].
Qed.

(** *** Completeness of the splitting strategy *)

Lemma holds_ext a a' l :
  a' (variable l) = a (variable l) -> holds a' l = holds a l.
Proof. unfold holds. intros ->. reflexivity. Qed.

Lemma satisfiesClause_ext a a' c :
  (forall l, In l c -> a' (variable l) = a (variable l)) ->
  satisfiesClause a' c = satisfiesClause a c.
Proof.
  unfold satisfiesClause. induction c as [|l c IH]; intros H; simpl; [reflexivity|].
  rewrite (holds_ext a a' l) by (apply H; left; reflexivity).
  rewrite IH by (intros; apply H; right; assumption). reflexivity.
Qed.

Lemma satisfies_ext a a' f :
  (forall v, In v (variables f) -> a' v = a v) ->
  satisfies a' f = satisfies a f.
Proof.
  unfold satisfies, variables. induction f as [|c f IH]; intros H; simpl; [reflexivity|].
  rewrite (satisfiesClause_ext a a' c), IH; [reflexivity | |].
  - intros v Hv. apply H. simpl. rewrite map_app. apply in_or_app. right. exact Hv.
  - intros l Hl. apply H. simpl. rewrite map_app. apply in_or_app. left.
    apply in_map, Hl.
Qed.

Lemma override_same a x b : override a x b x = b.
Proof. unfold override. rewrite eqb_refl. reflexivity. Qed.

Lemma override_other a x b v : v <> x -> override a x b v = a v.
Proof.
  intros H. unfold override. destruct (JS.eqb v x) eqn:E; [|reflexivity].
  apply eqb_eq in E. contradiction.
Qed.

(** The variables of a chain are those of its clause and its helpers. *)
Lemma ChainOf_variables ns c cs :
  ChainOf ns c cs ->
  forall v, In v (variables cs) -> In v (map variable c) \/ In v ns.
Proof.
  unfold variables.
  induction 1 as [c Hc | r0 r1 rest x ns cs Hrest Hch IH]; intros v Hv.
  - simpl in Hv. rewrite app_nil_r in Hv. auto.
  - simpl in Hv. destruct Hv as [<- | [<- | [<- | Hv]]]; simpl; auto.
    destruct (IH v Hv) as [[<- | H] | H]; simpl; auto.
Qed.

Lemma ChainOf_complete ns c cs :
  ChainOf ns c cs -> NoDup ns ->
  (forall l, In l c -> ~ In (variable l) ns) ->
  forall a, satisfiesClause a c = true ->
  exists a', (forall v, ~ In v ns -> a' v = a v) /\ satisfies a' cs = true.
Proof.
  induction 1 as [c Hc | r0 r1 rest x ns cs Hrest Hch IH]; intros Hnd Hfresh a Hsat.
  - exists a. simpl. rewrite Hsat. auto.
  - inversion Hnd as [|? ? Hx Hns]; subst.
    set (b := negb (holds a r0 || holds a r1)).
    set (a1 := override a x b).
    assert (Hrest1 : satisfiesClause a1 rest = satisfiesClause a rest).
    { apply satisfiesClause_ext. intros l Hl. apply override_other.
      intros E. apply (Hfresh l); [right; right; exact Hl | left; auto]. }
    assert (Hsat1 : satisfiesClause a1 (neg x :: rest) = true).
    { change (satisfiesClause a1 (neg x :: rest))
        with (holds a1 (neg x) || existsb (holds a1) rest).
      change (satisfiesClause a (r0 :: r1 :: rest))
        with (holds a r0 || (holds a r1 || existsb (holds a) rest)) in Hsat.
      fold (satisfiesClause a1 rest). fold (satisfiesClause a rest) in Hsat.
      rewrite Hrest1. unfold holds at 1. simpl. unfold a1. rewrite override_same. unfold b.
      rewrite negb_involutive.
      destruct (holds a r0), (holds a r1); simpl in *; auto. }
    destruct (IH Hns) with (a := a1) as (a' & Hagree & Hcs); [|exact Hsat1|].
    { intros l [<- | Hl]; [exact Hx|].
      intros Hin. apply (Hfresh l); [right; right; exact Hl | right; exact Hin]. }
    exists a'. split.
    + intros v Hv. rewrite Hagree by (intros Hin; apply Hv; right; exact Hin).
      apply override_other. intros ->. apply Hv. left. reflexivity.
    + change (satisfies a' ([r0; r1; pos x] :: cs))
        with ((holds a' r0 || (holds a' r1 || (holds a' (pos x) || false)))
              && satisfies a' cs).
      rewrite Hcs, andb_true_r.
      assert (H0 : holds a' r0 = holds a r0).
      { apply holds_ext. rewrite Hagree.
        - apply override_other. intros E. apply (Hfresh r0); simpl; auto.
        - intros Hin. apply (Hfresh r0); simpl; auto. }
      assert (H1 : holds a' r1 = holds a r1).
      { apply holds_ext. rewrite Hagree.
        - apply override_other. intros E. apply (Hfresh r1); simpl; auto.
        - intros Hin. apply (Hfresh r1); simpl; auto. }
      assert (Hx' : holds a' (pos x) = b).
      { unfold holds. simpl. rewrite (Hagree x Hx). apply override_same. }
      rewrite H0, H1, Hx'. unfold b.
      destruct (holds a r0), (holds a r1); reflexivity.
Qed.
Lemma variables_cons c f :
  variables (c :: f) = map variable c ++ variables f.
Proof. unfold variables. simpl. apply map_app. Qed.

Lemma variables_app f g : variables (f ++ g) = variables f ++ variables g.
Proof. unfold variables. rewrite concat_app. apply map_app. Qed.

Lemma ChainsOf_variables ns f out :
  ChainsOf ns f out ->
  forall v, In v (variables out) -> In v (variables f) \/ In v ns.
Proof.
  induction 1 as [|ns c cs ms f out Hc Hf IH]; intros v Hv; [contradiction|].
  rewrite variables_app in Hv. rewrite variables_cons, !in_app_iff.
  apply in_app_or in Hv. destruct Hv as [Hv | Hv].
  - destruct (ChainOf_variables Hc _ Hv); auto.
  - destruct (IH v Hv); auto.
Qed.

Lemma ChainsOf_complete ns f out :
  ChainsOf ns f out -> NoDup ns ->
  (forall v, In v (variables f) -> ~ In v ns) ->
  forall a, satisfies a f = true ->
  exists a', (forall v, ~ In v ns -> a' v = a v) /\ satisfies a' out = true.
Proof.
  induction 1 as [|ns c cs ms f out Hc Hf IH]; intros Hnd Hfresh a Hsat.
  - exists a. auto.
  - simpl in Hsat. apply andb_true_iff in Hsat. destruct Hsat as [Hc1 Hf1].
    assert (Hns : NoDup ns) by (eapply NoDup_app_remove_r; exact Hnd).
    assert (Hms : NoDup ms) by (eapply NoDup_app_remove_l; exact Hnd).
    assert (Hdisj : forall v, In v ns -> ~ In v ms).
    { intros v H1 H2. revert H1 H2. clear - Hnd.
      induction ns as [|n ns IHn]; simpl; [tauto|].
      inversion Hnd as [|? ? Hn Hrest]; subst.
      intros [-> | H1] H2; [apply Hn, in_or_app; auto | exact (IHn Hrest H1 H2)]. }
    destruct (ChainOf_complete Hc Hns) with (a := a) as (a1 & Hagree1 & Hcs);
      [|exact Hc1|].
    { intros l Hl Hin. apply (Hfresh (variable l)).
      - rewrite variables_cons. apply in_or_app. left. apply in_map, Hl.
      - apply in_or_app. left. exact Hin. }
    assert (Hf2 : satisfies a1 f = true).
    { rewrite (satisfies_ext a a1 f); [exact Hf1|].
      intros v Hv. apply Hagree1. intros Hin. apply (Hfresh v).
      - rewrite variables_cons. apply in_or_app. right. exact Hv.
      - apply in_or_app. left. exact Hin. }
    destruct (IH Hms) with (a := a1) as (a2 & Hagree2 & Hout); [|exact Hf2|].
    { intros v Hv Hin. apply (Hfresh v).
      - rewrite variables_cons. apply in_or_app. right. exact Hv.
      - apply in_or_app. right. exact Hin. }
    exists a2. split.
    + intros v Hv. rewrite Hagree2, Hagree1; [reflexivity | |];
        intros Hin; apply Hv, in_or_app; auto.
    + rewrite satisfies_app, Hout, andb_true_r.
      rewrite (satisfies_ext a1 a2 cs); [exact Hcs|].
      intros v Hv. apply Hagree2. intros Hin.
      destruct (ChainOf_variables Hc _ Hv) as [H | H].
      * apply (Hfresh v).
        -- rewrite variables_cons. apply in_or_app. left. exact H.
        -- apply in_or_app. right. exact Hin.
      * exact (Hdisj v H Hin).
Qed.

Lemma PaddedAll_sat a ms cs cs' :
  PaddedAll ms cs cs' -> satisfies a cs = true -> satisfies a cs' = true.
Proof.
  induction 1 as [|ns c c' ms cs cs' Hp Hall IH]; [auto|].
  simpl. rewrite !andb_true_iff. intros [H1 H2]. split; [|auto].
  eapply satisfiesClause_incl; [eapply PaddedOf_incl; eassumption | exact H1].
Qed.

(** X6. When no variable of the input has the shape of a helper name, an
    assignment that satisfies the input can be changed on the helper names
    only so that it satisfies the result of the splitting strategy. *)
Theorem splitting_complete (f : CNFFormula) (m : Method.t) (a : Assignment) :
  m <> Method.padding ->
  (forall v, In v (variables f) -> ~ helperShaped v) ->
  satisfies a f = true ->
  exists a',
    satisfies a' (formula (transformTo3CNF f m)) = true
    /\ (forall v, ~ In v (freshNames f m) -> a' v = a v)
    /\ forall v, In v (variables f) -> a' v = a v.
Proof.
  intros Hm Hshape Hsat.
  destruct (splitRun_spec f Hm) as (ns & ms & mid & Hch & Hp & Hfresh & Hnum).
  assert (Hnd : NoDup ns).
  { eapply NoDup_app_remove_r. eapply Numbered_NoDup. exact Hnum. }
  assert (Hnames : forall v, In v (ns ++ ms) -> helperShaped v).
  { intros v Hv. destruct (Numbered_bounds Hnum _ Hv) as (p & k & Hp' & _ & ->).
    exists p, k. auto. }
  assert (Hdisj : forall v, In v (variables f) -> ~ In v (ns ++ ms)).
  { intros v Hv Hin. exact (Hshape v Hv (Hnames v Hin)). }
  destruct (ChainsOf_complete Hch Hnd) with (a := a) as (a' & Hagree & Hmid);
    [|exact Hsat|].
  { intros v Hv Hin. apply (Hdisj v Hv), in_or_app. auto. }
  exists a'. split; [eapply PaddedAll_sat; eassumption | split].
  - intros v Hv. apply Hagree. intros Hin. apply Hv. rewrite Hfresh.
    apply in_or_app. auto.
  - intros v Hv. apply Hagree. intros Hin. apply (Hdisj v Hv), in_or_app. auto.
Qed.
(** ** More on parsing and rendering *)

Lemma split_filter sep (keep : char16 -> bool) s :
  keep sep = true ->
  split sep (filter keep s) = map (filter keep) (split sep s).
Proof.
  intros Hsep. induction s as [|c s IH]; [reflexivity|].
  simpl. destruct (N.eqb_spec c sep) as [-> | Hc].
  - rewrite Hsep. simpl. rewrite N.eqb_refl, IH. reflexivity.
  - pose proof (split_not_nil sep s) as Hne.
    destruct (keep c) eqn:Hk.
    + simpl. destruct (N.eqb_spec c sep) as [E | _]; [contradiction|].
      rewrite IH. destruct (split sep s) as [|p ps]; [congruence|].
      simpl. rewrite Hk. reflexivity.
    + rewrite IH. destruct (split sep s) as [|p ps]; [congruence|].
      simpl. rewrite Hk. reflexivity.
Qed.

Lemma filter_filter_comm {A : Type} (p q : A -> bool) l :
  filter p (filter q l) = filter q (filter p l).
Proof.
  induction l as [|x l IH]; [reflexivity|]. simpl.
  destruct (p x) eqn:Hp, (q x) eqn:Hq; simpl; rewrite ?Hp, ?Hq, IH; reflexivity.
Qed.

Lemma filter_idem {A : Type} (p : A -> bool) l :
  filter p (filter p l) = filter p l.
Proof.
  induction l as [|x l IH]; [reflexivity|]. simpl.
  destruct (p x) eqn:Hp; simpl; rewrite ?Hp, IH; reflexivity.
Qed.

Lemma clauseOf_removeParens s : clauseOf (removeParens s) = clauseOf s.
Proof. unfold clauseOf, removeParens. rewrite filter_idem. reflexivity. Qed.

Lemma parseFormula_erase s : parseFormula (erase s) = parseFormula s.
Proof.
  rewrite !parseFormula_eq.
  assert (E : removeWhiteSpace (erase s) = removeParens (removeWhiteSpace s)).
  { unfold erase, removeWhiteSpace, removeParens.
    rewrite filter_filter_comm, filter_idem. reflexivity. }
  rewrite E. unfold removeParens at 1. rewrite split_filter by reflexivity.
  rewrite map_map. f_equal. apply map_ext. intros p.
  apply clauseOf_removeParens.
Qed.

(** X9. The parser reads the text with white space and parentheses taken out
    and nothing else: two texts that differ in white space and parentheses
    only give the same formula. *)
Theorem parse_ignores_space_and_parens (s t : jsstring) :
  erase s = erase t -> parseFormula s = parseFormula t.
Proof.
  intros E. rewrite <- (parseFormula_erase s), <- (parseFormula_erase t), E.
  reflexivity.
Qed.

(** *** The pieces of a split *)

Lemma split_pieces sep s p :
  In p (split sep s) -> ~ In sep p /\ incl p s.
Proof.
  revert p. induction s as [|c s IH]; intros p; simpl.
  - intros [<- | []]. split; [tauto | apply incl_refl].
  - destruct (N.eqb_spec c sep) as [-> | Hc].
    + intros [<- | H].
      * split; [tauto | intros x []].
      * destruct (IH p H) as [H1 H2]. split; [exact H1|].
        apply incl_tl, H2.
    + pose proof (split_not_nil sep s) as Hne.
      destruct (split sep s) as [|q qs]; [congruence|].
      intros [<- | H].
      * destruct (IH q (or_introl eq_refl)) as [H1 H2]. split.
        -- intros [E | E]; [congruence | exact (H1 E)].
        -- intros x [<- | Hx]; [left; reflexivity | right; apply H2, Hx].
      * destruct (IH p (or_intror H)) as [H1 H2]. split; [exact H1|].
        apply incl_tl, H2.
Qed.

Lemma in_removeWhiteSpace c s :
  In c (removeWhiteSpace s) -> isWhiteSpace c = false.
Proof.
  unfold removeWhiteSpace. intros H. apply filter_In in H.
  destruct H as [_ H]. apply negb_true_iff in H. exact H.
Qed.

Lemma in_removeParens c s :
  In c (removeParens s) -> isParen c = false /\ In c s.
Proof.
  unfold removeParens. intros H. apply filter_In in H.
  destruct H as [Hin H]. apply negb_true_iff in H. auto.
Qed.

(** *** The shape of what the parser returns *)

Lemma literalOf_parsed litStr :
  litStr <> [] -> Forall plainChar litStr -> ParsedLiteral (literalOf litStr).
Proof.
  intros Hne Hplain. unfold ParsedLiteral, literalOf. simpl.
  destruct litStr as [|c v]; [congruence|]. simpl.
  inversion Hplain; subst.
  destruct (N.eqb_spec c NOT) as [-> | Hc]; simpl.
  - split; [assumption | discriminate].
  - split; [exact Hplain|]. intros _. exists c, v. auto.
Qed.

Lemma parseFormula_parsed input : Forall ParsedClause (parseFormula input).
Proof.
  rewrite parseFormula_eq. apply Forall_forall. intros c Hc.
  apply filter_In in Hc. destruct Hc as [Hc Hlen].
  split; [intros ->; discriminate|].
  apply in_map_iff in Hc. destruct Hc as (clauseStr & <- & Hcl).
  apply Forall_forall. intros l Hl. unfold clauseOf in Hl.
  apply in_map_iff in Hl. destruct Hl as (litStr & <- & Hlit).
  apply filter_In in Hlit. destruct Hlit as [Hlit Ht].
  destruct (split_pieces _ _ _ Hcl) as [Hand Hsub].
  destruct (split_pieces _ _ _ Hlit) as [Hor Hsub'].
  apply literalOf_parsed.
  - intros ->. discriminate Ht.
  - apply Forall_forall. intros x Hx.
    destruct (in_removeParens _ _ (Hsub' x Hx)) as [Hparen Hx'].
    pose proof (in_removeWhiteSpace _ _ (Hsub x Hx')) as Hws.
    repeat split; auto.
    + intros ->. exact (Hand Hx').
    + intros ->. exact (Hor Hx).
Qed.

(** X10. What the parser returns, for every text: no clause is empty; no
    variable name holds white space, a parenthesis, AND or OR; the name of a
    positive literal is not empty and does not start with NOT. *)
Theorem parse_output_shape (input : jsstring) :
  Forall ParsedClause (parseFormula input).
Proof. apply parseFormula_parsed. Qed.
(** *** Rendering what the parser returns *)

Lemma NOT_plain : plainChar NOT.
Proof. repeat split; discriminate. Qed.

Section ParsedLiteralText.

Variable l : Literal.
Hypothesis Hl : ParsedLiteral l.

Lemma parsed_chars c : In c (literalToString l) -> plainChar c.
Proof.
  unfold literalToString. rewrite in_app_iff. intros [H | H].
  - destruct (negated l); [|contradiction].
    destruct H as [<- | []]. apply NOT_plain.
  - destruct Hl as [Hall _]. rewrite Forall_forall in Hall. auto.
Qed.

Lemma parsed_not_empty : literalToString l <> [].
Proof.
  unfold literalToString. destruct Hl as [_ Hpos].
  destruct (negated l); [discriminate|].
  destruct (Hpos eq_refl) as (c & v & -> & _). discriminate.
Qed.

Lemma parsed_truthy : truthy (trim (literalToString l)) = true.
Proof.
  destruct (truthy (trim (literalToString l))) eqn:E; [reflexivity|].
  apply trim_blank in E. unfold Blank in E.
  pose proof parsed_not_empty as Hne.
  destruct (literalToString l) as [|c s] eqn:Hs; [congruence|].
  inversion E as [|? ? Hc _]; subst.
  destruct (parsed_chars c) as (Hws & _); [rewrite Hs; left; reflexivity|].
  congruence.
Qed.

Lemma parsed_literalOf : literalOf (literalToString l) = l.
Proof.
  unfold literalOf, literalToString. destruct Hl as [_ Hpos].
  destruct l as [v [|]]; simpl in *.
  - reflexivity.
  - destruct (Hpos eq_refl) as (c & w & -> & Hc). simpl.
    apply N.eqb_neq in Hc. rewrite Hc. reflexivity.
Qed.

End ParsedLiteralText.

Section ParsedClauseText.

Variable c : Clause.
Hypothesis Hc : ParsedClause c.

Lemma parsed_removeWhiteSpace :
  removeWhiteSpace (clauseToString c) = compactClause c.
Proof.
  unfold removeWhiteSpace, clauseToString, compactClause.
  rewrite !filter_app, filter_join. simpl. do 3 f_equal.
  rewrite map_map. apply map_ext_in. intros l Hin.
  apply filter_all, Forall_forall. intros x Hx.
  destruct Hc as [_ Hall]. rewrite Forall_forall in Hall.
  destruct (parsed_chars (Hall l Hin) x Hx) as (Hws & _).
  rewrite Hws. reflexivity.
Qed.

Lemma parsed_removeParens :
  removeParens (compactClause c) = join [OR] (map literalToString c).
Proof.
  unfold removeParens, compactClause.
  rewrite !filter_app, filter_join. simpl. rewrite app_nil_r. f_equal.
  rewrite map_map. apply map_ext_in. intros l Hin.
  apply filter_all, Forall_forall. intros x Hx.
  destruct Hc as [_ Hall]. rewrite Forall_forall in Hall.
  destruct (parsed_chars (Hall l Hin) x Hx) as (_ & Hp & _).
  rewrite Hp. reflexivity.
Qed.

Lemma parsed_no_and : ~ In AND (compactClause c).
Proof.
  unfold compactClause. rewrite !in_app_iff. intros [H | [H | H]].
  - destruct H as [H | []]. discriminate.
  - apply in_join in H. destruct H as [[H | []] | (p & Hp & Hx)]; [discriminate|].
    apply in_map_iff in Hp. destruct Hp as (l & <- & Hin).
    destruct Hc as [_ Hall]. rewrite Forall_forall in Hall.
    destruct (parsed_chars (Hall l Hin) AND Hx) as (_ & _ & Hand & _).
    congruence.
  - destruct H as [H | []]. discriminate.
Qed.

Lemma parsed_clauseOf : clauseOf (compactClause c) = c.
Proof.
  unfold clauseOf. rewrite parsed_removeParens.
  destruct Hc as [Hne Hall]. rewrite Forall_forall in Hall.
  rewrite split_join.
  - rewrite forallb_filter_id.
    + rewrite map_map. rewrite <- (map_id c) at 2. apply map_ext_in.
      intros l Hin. apply parsed_literalOf. auto.
    + apply forallb_forall. intros s Hs. apply in_map_iff in Hs.
      destruct Hs as (l & <- & Hin). apply parsed_truthy. auto.
  - destruct c; [congruence | discriminate].
  - apply Forall_forall. intros s Hs. apply in_map_iff in Hs.
    destruct Hs as (l & <- & Hin). intros Hx.
    destruct (parsed_chars (Hall l Hin) OR Hx) as (_ & _ & _ & Hor).
    congruence.
Qed.

End ParsedClauseText.

(** Rendering and parsing gives back every formula of the shape the parser
    returns. *)
Lemma roundtrip_parsed (f : CNFFormula) :
  Forall ParsedClause f -> parseFormula (formulaToString f) = f.
Proof.
  intros Hf. rewrite parseFormula_eq.
  destruct f as [|c0 f0]; [reflexivity|].
  set (f := c0 :: f0) in *.
  assert (Hws : removeWhiteSpace (formulaToString f) = join [AND] (map compactClause f)).
  { unfold removeWhiteSpace, formulaToString. rewrite filter_join. simpl filter.
    f_equal. rewrite map_map. apply map_ext_in. intros c Hin.
    apply parsed_removeWhiteSpace.
    rewrite Forall_forall in Hf. auto. }
  rewrite Hws, split_join.
  - rewrite map_map. rewrite forallb_filter_id.
    + rewrite <- (map_id f) at 2. apply map_ext_in. intros c Hin.
      apply parsed_clauseOf. rewrite Forall_forall in Hf. auto.
    + apply forallb_forall. intros c Hin. apply in_map_iff in Hin.
      destruct Hin as (c' & <- & Hin). rewrite Forall_forall in Hf.
      rewrite parsed_clauseOf by auto.
      destruct (Hf c' Hin) as [Hne _]. destruct c'; [congruence | reflexivity].
  - discriminate.
  - apply Forall_forall. intros s Hs. apply in_map_iff in Hs.
    destruct Hs as (c & <- & Hin). apply parsed_no_and.
    rewrite Forall_forall in Hf. auto.
Qed.

(** X11. Rendering the formula the parser returns and parsing it again gives
    the same formula, for every text. *)
Theorem parse_render_parse (input : jsstring) :
  parseFormula (formulaToString (parseFormula input)) = parseFormula input.
Proof. apply roundtrip_parsed, parseFormula_parsed. Qed.
(** *** The names of the counter in a formula *)

Lemma alnum_plain c : isAlnum c = true -> plainChar c.
Proof.
  intros H. destruct (alnum_not_connective _ H) as (Ha & Ho & _).
  repeat split; auto using alnum_not_space, alnum_not_paren.
Qed.

Lemma digit_alnum c : isDigit c = true -> isAlnum c = true.
Proof. unfold isAlnum. intros ->. apply orb_true_r. Qed.

Lemma helperShaped_chars v :
  helperShaped v ->
  Forall (fun c => isAlnum c = true) v /\ exists c w, v = c :: w /\ c <> NOT.
Proof.
  intros (p & k & Hp & ->). pose proof (decimal_digits k) as Hd.
  assert (Hdigits : Forall (fun c => isAlnum c = true) (decimal k)).
  { eapply Forall_impl; [|exact Hd]. apply digit_alnum. }
  simpl in Hp.
  destruct Hp as [<- | [<- | [<- | [<- | []]]]]; simpl;
    (split; [constructor; [reflexivity | exact Hdigits]
            | eexists; eexists; split; [reflexivity | discriminate]]).
Qed.

Lemma helper_parsed v b : helperShaped v -> ParsedLiteral (mkLiteral v b).
Proof.
  intros H. destruct (helperShaped_chars H) as [Hall Hhd]. split; simpl.
  - eapply Forall_impl; [|exact Hall]. apply alnum_plain.
  - intros _. exact Hhd.
Qed.

Section KeepsShape.

Variable P : Literal -> Prop.
Variable fresh : list jsstring.
Hypothesis Hfresh : forall v b, In v fresh -> P (mkLiteral v b).

Lemma ChainOf_all ns c cs :
  ChainOf ns c cs -> incl ns fresh -> Forall P c ->
  forall c', In c' cs -> Forall P c'.
Proof.
  induction 1 as [c Hc | r0 r1 rest x ns cs Hrest Hch IH]; intros Hns Hall c' Hin.
  - destruct Hin as [<- | []]. exact Hall.
  - inversion Hall as [|? ? H0 Hall1]; subst.
    inversion Hall1 as [|? ? H1 Hall2]; subst.
    assert (Hx : In x fresh) by (apply Hns; left; reflexivity).
    destruct Hin as [<- | Hin].
    + repeat constructor; auto. apply Hfresh, Hx.
    + apply IH; auto.
      * intros v Hv. apply Hns. right. exact Hv.
      * constructor; [apply Hfresh, Hx | exact Hall2].
Qed.

Lemma ChainsOf_all ns f out :
  ChainsOf ns f out -> incl ns fresh -> Forall (Forall P) f ->
  Forall (Forall P) out.
Proof.
  induction 1 as [|ns c cs ms f out Hc Hf IH]; intros Hns Hall; [constructor|].
  inversion Hall; subst. apply Forall_app. split.
  - apply Forall_forall. intros c' Hin. eapply ChainOf_all; eauto.
    intros v Hv. apply Hns, in_or_app. auto.
  - apply IH; auto. intros v Hv. apply Hns, in_or_app. auto.
Qed.

Lemma PaddedAll_all ms cs cs' :
  PaddedAll ms cs cs' -> incl ms fresh -> Forall (Forall P) cs ->
  Forall (Forall P) cs'.
Proof.
  induction 1 as [|ns c c' ms cs cs' Hp Hrest IH]; intros Hms Hall; [constructor|].
  inversion Hall as [|? ? Hc Hcs]; subst. constructor.
  - assert (Hns : incl ns fresh) by (intros v Hv; apply Hms, in_or_app; auto).
    inversion Hp; subst; auto.
    + inversion Hc; subst. repeat constructor; auto; apply Hfresh, Hns; left; auto.
    + inversion Hc as [|? ? H1 Hc']; subst. inversion Hc'; subst.
      repeat constructor; auto; apply Hfresh, Hns; left; auto.
  - apply IH; auto. intros v Hv. apply Hms, in_or_app. auto.
Qed.

Lemma PaddingOnly_all c c' :
  PaddingOnly fresh c c' -> Forall P c -> Forall P c'.
Proof.
  destruct 1 as [c H | c pad H1 H2 H3]; intros Hall.
  - rewrite <- (firstn_skipn 3 c) in Hall. apply Forall_app in Hall. tauto.
  - apply Forall_app. split; [exact Hall|].
    eapply Forall_impl; [|exact H3]. intros [v b] [Hb Hv]. simpl in *.
    apply Hfresh, Hv.
Qed.

Lemma PaddingOnly_all2 f out :
  Forall2 (PaddingOnly fresh) f out -> Forall (Forall P) f ->
  Forall (Forall P) out.
Proof.
  induction 1 as [|c c' g out Hc Hg IH]; intros Hall; [constructor|].
  inversion Hall; subst. constructor; [|apply IH; assumption].
  eapply PaddingOnly_all; eauto.
Qed.

End KeepsShape.

(** The literals of the result are literals of the input and literals made
    of names of the counter. *)
Lemma transform_all (P : Literal -> Prop) f m :
  (forall v b, helperShaped v -> P (mkLiteral v b)) ->
  Forall (Forall P) f -> Forall (Forall P) (formula (transformTo3CNF f m)).
Proof.
  intros HP Hf.
  assert (Hnames : forall v b, In v (freshNames f m) -> P (mkLiteral v b)).
  { intros v b Hv. apply HP.
    destruct (Numbered_bounds (transformRun_numbered f m) _ Hv)
      as (p & k & Hp & _ & ->).
    exists p, k. auto. }
  assert (Hcases : m = Method.padding \/ m <> Method.padding)
    by (destruct m; [right | left | right]; congruence).
  destruct Hcases as [-> | Hm].
  - exact (PaddingOnly_all2 Hnames (paddingRun_spec f) Hf).
  - destruct (splitRun_spec f Hm) as (ns & ms & mid & Hch & Hp & Hfresh & _).
    rewrite Hfresh in Hnames.
    eapply (PaddedAll_all Hnames Hp); [apply incl_appr, incl_refl|].
    eapply (ChainsOf_all Hnames Hch); [apply incl_appl, incl_refl | exact Hf].
Qed.

Lemma ParsedClause_split f :
  Forall ParsedClause f <->
  Forall (fun c => c <> []) f /\ Forall (Forall ParsedLiteral) f.
Proof.
  unfold ParsedClause. rewrite !Forall_forall. split.
  - intros H. split; intros c Hc.
    + apply (H c Hc).
    + apply Forall_forall. destruct (H c Hc) as [_ Hall].
      rewrite Forall_forall in Hall. exact Hall.
  - intros [H1 H2] c Hc. split; [auto|]. apply Forall_forall.
    specialize (H2 c Hc). rewrite Forall_forall in H2. exact H2.
Qed.

Lemma transform_parsed f m :
  Forall ParsedClause f -> Forall ParsedClause (formula (transformTo3CNF f m)).
Proof.
  intros Hf. apply ParsedClause_split in Hf. destruct Hf as [Hne Hall].
  apply ParsedClause_split. split.
  - pose proof (@transform_arity f m (fun _ => Hne)) as H3.
    eapply Forall_impl; [|exact H3]. simpl. intros c Hc ->. discriminate.
  - apply transform_all; [|exact Hall]. intros v b. apply helper_parsed.
Qed.

(** X12. The three methods keep the shape of what the parser returns, so the
    result of a method on such a formula is given back by rendering and
    parsing. *)
Theorem transform_render_parse (f : CNFFormula) (m : Method.t) :
  Forall ParsedClause f ->
  Forall ParsedClause (formula (transformTo3CNF f m))
  /\ parseFormula (formulaToString (formula (transformTo3CNF f m)))
     = formula (transformTo3CNF f m).
Proof.
  intros Hf. pose proof (transform_parsed m Hf) as H.
  split; [exact H | apply roundtrip_parsed, H].
Qed.
(** ** The validator on rendered formulas *)

Lemma depthLoop_app s t : forall d,
  depthLoop d (s ++ t)
  = match depthLoop d s with Some d' => depthLoop d' t | None => None end.
Proof.
  induction s as [|c s IH]; intros d; [reflexivity|]. simpl.
  match goal with |- context [if ?b then None else _] => destruct b end;
    [reflexivity | apply IH].
Qed.

Lemma depthLoop_no_paren s : forall d,
  (0 <= d)%Z -> Forall (fun c => isParen c = false) s -> depthLoop d s = Some d.
Proof.
  induction s as [|c s IH]; intros d Hd Hall; [reflexivity|].
  inversion Hall as [|? ? Hc Hs]; subst. simpl.
  unfold isParen in Hc. apply orb_false_iff in Hc. destruct Hc as [H1 H2].
  rewrite H1, H2. replace (d <? 0)%Z with false by (symmetry; apply Z.ltb_ge; lia).
  apply IH; assumption.
Qed.

Lemma depthLoop_parenthesized body d :
  (0 <= d)%Z -> Forall (fun c => isParen c = false) body ->
  depthLoop d ([LPAREN] ++ body ++ [RPAREN]) = Some d.
Proof.
  intros Hd Hbody. simpl.
  replace (d + 1 <? 0)%Z with false by (symmetry; apply Z.ltb_ge; lia).
  rewrite depthLoop_app, depthLoop_no_paren by (assumption || lia). simpl.
  replace (d + 1 - 1 <? 0)%Z with false by (symmetry; apply Z.ltb_ge; lia).
  f_equal. lia.
Qed.

Lemma Forall_join (P : char16 -> Prop) sep pieces :
  Forall P sep -> Forall (Forall P) pieces -> Forall P (join sep pieces).
Proof.
  intros Hsep. induction 1 as [|p ps Hp Hps IH]; [constructor|].
  destruct ps as [|q ps]; [exact Hp|].
  change (join sep (p :: q :: ps)) with (p ++ sep ++ join sep (q :: ps)).
  rewrite !Forall_app. auto.
Qed.

Lemma opsSpaced_app a b :
  opsSpaced a = true -> opsSpaced b = true -> opsSpaced (a ++ b) = true.
Proof.
  intros Ha Hb. induction a as [|c t IH]; [exact Hb|].
  simpl in *. apply andb_true_iff in Ha. destruct Ha as [Hc Ht].
  rewrite (IH Ht), andb_true_r.
  destruct (isBinary c); [|reflexivity].
  destruct t as [|d t']; [discriminate | exact Hc].
Qed.

Lemma opsSpaced_plain s :
  Forall (fun c => isBinary c = false) s -> opsSpaced s = true.
Proof.
  induction 1 as [|c s Hc Hs IH]; [reflexivity|]. simpl. rewrite Hc, IH.
  reflexivity.
Qed.

Lemma opsSpaced_join sep pieces :
  opsSpaced sep = true -> Forall (fun p => opsSpaced p = true) pieces ->
  opsSpaced (join sep pieces) = true.
Proof.
  intros Hsep. induction 1 as [|p ps Hp Hps IH]; [reflexivity|].
  destruct ps as [|q ps]; [exact Hp|].
  change (join sep (p :: q :: ps)) with (p ++ sep ++ join sep (q :: ps)).
  auto using opsSpaced_app.
Qed.

Lemma opsSpaced_no_double x s :
  isBinary x = true -> opsSpaced s = true -> includes [x; x] s = false.
Proof.
  intros Hx. induction s as [|c t IH]; intros Hs; [reflexivity|].
  simpl in Hs. apply andb_true_iff in Hs. destruct Hs as [Hc Ht].
  cbn [includes]. rewrite (IH Ht), orb_false_r.
  simpl. destruct (N.eqb_spec c x) as [-> | Hne]; [|reflexivity].
  rewrite Hx in Hc. destruct t as [|d t']; [reflexivity|].
  apply N.eqb_eq in Hc. subst d.
  change (((SPACE =? x)%N && true) = false).
  destruct (N.eqb_spec SPACE x) as [<- | _]; [discriminate Hx | reflexivity].
Qed.

Section RenderedSymbols.

Variable c : Clause.
Hypothesis Hc : Forall (fun l => SymbolChars (variable l)) c.

Lemma symbol_chars l x :
  In l c -> In x (literalToString l) -> isAlnum x = true \/ x = NOT.
Proof.
  intros Hl. unfold literalToString. rewrite in_app_iff. intros [H | H].
  - destruct (negated l); [|contradiction]. destruct H as [<- | []]. auto.
  - rewrite Forall_forall in Hc. specialize (Hc l Hl). unfold SymbolChars in Hc.
    rewrite Forall_forall in Hc. auto.
Qed.

Lemma clause_body_all (P : char16 -> Prop) :
  P SPACE -> P OR -> P NOT -> (forall x, isAlnum x = true -> P x) ->
  Forall P (join [SPACE; OR; SPACE] (map literalToString c)).
Proof.
  intros Hs Ho Hn Ha. apply Forall_join; [repeat constructor; assumption|].
  apply Forall_forall. intros p Hp. apply in_map_iff in Hp.
  destruct Hp as (l & <- & Hl). apply Forall_forall. intros x Hx.
  destruct (symbol_chars l x Hl Hx) as [H | ->]; auto.
Qed.

Lemma clauseToString_depth d :
  (0 <= d)%Z -> depthLoop d (clauseToString c) = Some d.
Proof.
  intros Hd. unfold clauseToString. apply depthLoop_parenthesized; [exact Hd|].
  apply clause_body_all; try reflexivity. apply alnum_not_paren.
Qed.

Lemma clauseToString_valid : forallb isValidChar (clauseToString c) = true.
Proof.
  apply forallb_forall. intros x. unfold clauseToString.
  rewrite !in_app_iff. intros [[<- | []] | [H | [<- | []]]]; try reflexivity.
  revert x H. apply Forall_forall.
  apply clause_body_all; try reflexivity.
  intros x Hx. unfold isValidChar. unfold isAlnum in Hx.
  apply orb_true_iff in Hx. destruct Hx as [-> | ->]; simpl;
    rewrite ?orb_true_r; reflexivity.
Qed.

Lemma clauseToString_spaced : opsSpaced (clauseToString c) = true.
Proof.
  unfold clauseToString. apply opsSpaced_app; [reflexivity|].
  apply opsSpaced_app; [|reflexivity].
  apply opsSpaced_join; [reflexivity|].
  apply Forall_forall. intros p Hp. apply in_map_iff in Hp.
  destruct Hp as (l & <- & Hl). apply opsSpaced_plain, Forall_forall.
  intros x Hx. destruct (symbol_chars l x Hl Hx) as [H | ->]; [|reflexivity].
  destruct (alnum_not_connective _ H) as (Ha & Ho & _).
  unfold isBinary. apply orb_false_iff. split; apply N.eqb_neq; assumption.
Qed.

End RenderedSymbols.

Lemma join_depth sep pieces : forall d,
  (0 <= d)%Z ->
  (forall d', (0 <= d')%Z -> depthLoop d' sep = Some d') ->
  Forall (fun p => forall d', (0 <= d')%Z -> depthLoop d' p = Some d') pieces ->
  depthLoop d (join sep pieces) = Some d.
Proof.
  intros d Hd Hsep. induction 1 as [|p ps Hp Hps IH]; [reflexivity|].
  destruct ps as [|q ps]; [apply Hp, Hd|].
  change (join sep (p :: q :: ps)) with (p ++ sep ++ join sep (q :: ps)).
  rewrite depthLoop_app, (Hp d Hd), depthLoop_app, (Hsep d Hd). exact IH.
Qed.

Lemma forallb_join (keep : char16 -> bool) sep pieces :
  forallb keep sep = true -> Forall (fun p => forallb keep p = true) pieces ->
  forallb keep (join sep pieces) = true.
Proof.
  intros Hsep. induction 1 as [|p ps Hp Hps IH]; [reflexivity|].
  destruct ps as [|q ps]; [exact Hp|].
  change (join sep (p :: q :: ps)) with (p ++ sep ++ join sep (q :: ps)).
  rewrite !forallb_app, Hp, Hsep, IH. reflexivity.
Qed.

(** The rendered text of a formula with at least one clause and names of
    letters, digits and NOT symbols passes the four checks. *)
Lemma rendered_valid f :
  f <> [] -> Forall (Forall (fun l => SymbolChars (variable l))) f ->
  validateFormula (formulaToString f) = mkValidation true None.
Proof.
  intros Hne Hf. rewrite validate_unfold.
  assert (Hhead : exists rest, formulaToString f = LPAREN :: rest).
  { destruct f as [|c [|c' f']]; [congruence | |]; eexists; reflexivity. }
  destruct Hhead as (rest & Hhead).
  rewrite not_blank_truthy
    by (rewrite Hhead; intros H; inversion H; discriminate).
  assert (Hdepth : depthLoop 0 (formulaToString f) = Some 0%Z).
  { apply join_depth; [lia | intros; apply depthLoop_no_paren; auto;
                              repeat constructor |].
    apply Forall_forall. intros p Hp. apply in_map_iff in Hp.
    destruct Hp as (c & <- & Hc). intros d' Hd'.
    apply clauseToString_depth; [|exact Hd'].
    rewrite Forall_forall in Hf. auto. }
  assert (Hvalid : validChars (formulaToString f) = true).
  { unfold validChars. apply andb_true_iff. split; [rewrite Hhead; reflexivity|].
    apply forallb_join; [reflexivity|].
    apply Forall_forall. intros p Hp. apply in_map_iff in Hp.
    destruct Hp as (c & <- & Hc). apply clauseToString_valid.
    rewrite Forall_forall in Hf. auto. }
  assert (Hspaced : opsSpaced (formulaToString f) = true).
  { apply opsSpaced_join; [reflexivity|].
    apply Forall_forall. intros p Hp. apply in_map_iff in Hp.
    destruct Hp as (c & <- & Hc). apply clauseToString_spaced.
    rewrite Forall_forall in Hf. auto. }
  rewrite Hdepth, Hvalid. simpl.
  rewrite !opsSpaced_no_double by (reflexivity || assumption). reflexivity.
Qed.

(** X13. The validator accepts the rendered text of every formula that has a
    clause and whose variable names are made of letters, digits and NOT
    symbols. *)
Theorem render_validates (f : CNFFormula) :
  f <> [] -> Forall (Forall (fun l => SymbolChars (variable l))) f ->
  validateFormula (formulaToString f) = mkValidation true None.
Proof. apply rendered_valid. Qed.
(** ** The custom-formula panel *)

Lemma parseFormula_names (P : char16 -> Prop) input :
  Forall P input ->
  Forall (Forall (fun l => Forall P (variable l))) (parseFormula input).
Proof.
  intros Hin. rewrite Forall_forall in Hin.
  rewrite parseFormula_eq. apply Forall_forall. intros c Hc.
  apply filter_In in Hc. destruct Hc as [Hc _].
  apply in_map_iff in Hc. destruct Hc as (clauseStr & <- & Hcl).
  apply Forall_forall. intros l Hl. unfold clauseOf in Hl.
  apply in_map_iff in Hl. destruct Hl as (litStr & <- & Hlit).
  apply filter_In in Hlit. destruct Hlit as [Hlit _].
  destruct (split_pieces _ _ _ Hcl) as [_ Hsub].
  destruct (split_pieces _ _ _ Hlit) as [_ Hsub'].
  assert (Hall : forall x, In x litStr -> P x).
  { intros x Hx. destruct (in_removeParens _ _ (Hsub' x Hx)) as [_ Hx'].
    pose proof (Hsub x Hx') as Hx''. unfold removeWhiteSpace in Hx''.
    apply filter_In in Hx''. apply Hin, Hx''. }
  apply Forall_forall. intros x Hx. apply Hall.
  unfold literalOf in Hx. cbn [variable] in Hx.
  destruct (startsWith [NOT] litStr); [|exact Hx].
  destruct litStr; [destruct Hx | right; exact Hx].
Qed.

Lemma valid_chars input :
  valid (validateFormula input) = true -> Forall Allowed input.
Proof.
  rewrite validate_unfold. intros H.
  destruct (negb (truthy (trim input))); [discriminate|].
  destruct (depthLoop 0 input) as [d|]; [|discriminate].
  destruct (negb (d =? 0)%Z); [discriminate|].
  destruct (validChars input) eqn:Hv; [|discriminate].
  apply validChars_allowed in Hv. apply Hv.
Qed.

Lemma allowed_plain_symbol c :
  Allowed c -> plainChar c -> isAlnum c = true \/ c = NOT.
Proof.
  unfold Allowed, plainChar, isAlnum, isParen.
  intros H (Hws & Hp & Ha & Ho). apply orb_false_iff in Hp.
  destruct Hp as [Hl Hr]. apply N.eqb_neq in Hl, Hr.
  destruct H as [H | [H | [H | [H | [H | [H | [H | H]]]]]]];
    try congruence; try (left; rewrite H; rewrite ?orb_true_r; reflexivity).
  right. exact H.
Qed.

(** The names in the parse of an accepted text. *)
Lemma valid_parse_symbols input :
  valid (validateFormula input) = true ->
  Forall (Forall (fun l => SymbolChars (variable l))) (parseFormula input).
Proof.
  intros Hv. pose proof (valid_chars _ Hv) as Hallowed.
  pose proof (parseFormula_names Hallowed) as H1.
  pose proof (parseFormula_parsed input) as H2.
  rewrite Forall_forall in H1, H2. apply Forall_forall. intros c Hc.
  specialize (H1 c Hc). destruct (H2 c Hc) as [_ H3].
  rewrite Forall_forall in H1, H3. apply Forall_forall. intros l Hl.
  specialize (H1 l Hl). destruct (H3 l Hl) as [H4 _].
  unfold SymbolChars. rewrite Forall_forall in *. intros x Hx.
  apply allowed_plain_symbol; auto.
Qed.
Lemma chainLength_pos c : 1 <= chainLength c.
Proof.
  unfold chainLength. destruct (Nat.leb_spec (length c) 3); lia.
Qed.

Lemma transform_not_empty f m :
  f <> [] -> formula (transformTo3CNF f m) <> [].
Proof.
  intros Hne.
  assert (Hcases : m = Method.padding \/ m <> Method.padding)
    by (destruct m; [right | left | right]; congruence).
  destruct Hcases as [-> | Hm].
  - pose proof (Forall2_length (paddingRun_spec f)) as H.
    destruct f; [congruence|].
    destruct (formula (transformTo3CNF (c :: f) Method.padding));
      [discriminate H | discriminate].
  - destruct (@splitRun_spec f m Hm) as (ns & ms & mid & Hch & Hp & _).
    apply PaddedAll_length in Hp. apply ChainsOf_length in Hch.
    destruct f as [|c f]; [congruence|]. simpl in Hch.
    pose proof (chainLength_pos c).
    destruct (formula (transformTo3CNF (c :: f) m)); [simpl in Hp; lia | discriminate].
Qed.

Lemma transform_symbols f m :
  Forall (Forall (fun l => SymbolChars (variable l))) f ->
  Forall (Forall (fun l => SymbolChars (variable l)))
         (formula (transformTo3CNF f m)).
Proof.
  apply (@transform_all (fun l => SymbolChars (variable l))).
  intros v b Hv. destruct (helperShaped_chars Hv) as [Hall _]. simpl.
  eapply Forall_impl; [|exact Hall]. simpl. auto.
Qed.

(** X15. When the validator accepts the text of the panel, the handler shows
    the success message for the transformed parse, closes the input and
    goes back to step 0; for every path, each clause of the formula shown
    has exactly three literals, and the text shown for it parses back to
    it. *)
Theorem submit_shows_three_cnf (p : Panel.t) :
  valid (validateFormula (Panel.customFormula p)) = true ->
  handleCustomFormulaSubmit p
  = (resultMessage (Panel.customFormula p) (shown p)
       (steps (transformTo3CNF (parseFormula (Panel.customFormula p))
                               (methodMap (Panel.selectedPath p))))
       (Panel.selectedPath p),
     Panel.mk 0 (Panel.selectedPath p) (Panel.isAutoPlaying p) false
              (Panel.customFormula p) (Panel.showGadgetGraph p))
  /\ Forall (fun c => length c = 3) (shown p)
  /\ parseFormula (formulaToString (shown p)) = shown p.
Proof.
  intros Hv. split; [|split].
  - unfold handleCustomFormulaSubmit. rewrite Hv. reflexivity.
  - apply transform_arity. intros _. apply parseFormula_clauses_not_empty.
  - apply roundtrip_parsed, transform_parsed, parseFormula_parsed.
Qed.

(** X16. The result of a submission is a fixed point of the panel: when an
    accepted text has at least one clause, the text shown for its
    transformed formula is accepted again, and submitting it, with any of
    the three paths, shows the same formula. *)
Theorem submit_shown_again (p p' : Panel.t) :
  valid (validateFormula (Panel.customFormula p)) = true ->
  parseFormula (Panel.customFormula p) <> [] ->
  Panel.customFormula p' = formulaToString (shown p) ->
  validateFormula (Panel.customFormula p') = mkValidation true None
  /\ shown p' = shown p.
Proof.
  intros Hv Hne Htext. split.
  - rewrite Htext. apply rendered_valid; [apply transform_not_empty, Hne|].
    apply transform_symbols, valid_parse_symbols, Hv.
  - unfold shown at 1. rewrite Htext.
    rewrite roundtrip_parsed
      by (apply transform_parsed, parseFormula_parsed).
    assert (H3 : Forall (fun c => length c = 3) (shown p))
      by (apply transform_arity; intros _; apply parseFormula_clauses_not_empty).
    set (m := methodMap (Panel.selectedPath p')). clearbody m.
    assert (Hcases : m = Method.padding \/ m <> Method.padding)
      by (destruct m; [right | left | right]; congruence).
    destruct Hcases as [-> | Hm].
    + pose proof (paddingRun_spec (shown p)) as H.
      revert H3 H. generalize (formula (transformTo3CNF (shown p) Method.padding)).
      generalize (freshNames (shown p) Method.padding).
      generalize (shown p). intros g fr out H3 H.
      induction H as [|c c' g out Hc Hg IH]; [reflexivity|].
      inversion H3; subst. f_equal; [|apply IH; assumption].
      inversion Hc; subst; [lia|].
      destruct pad; [apply app_nil_r | rewrite length_app in *; simpl in *; lia].
    + destruct (@splitRun_spec (shown p) m Hm) as (ns & ms & mid & Hch & Hp & _).
      destruct (ChainsOf_short Hch) as [-> _];
        [eapply Forall_impl; [|exact H3]; simpl; intros; lia|].
      destruct (PaddedAll_three Hp H3) as [-> _]. reflexivity.
Qed.
(** ** Clique search and satisfiability *)

(** The search finds something exactly when three vertices of clauses 0, 1
    and 2 are joined two by two. *)
Lemma findClique_found g :
  Graph.findClique g <> [] <->
  exists l1 l2 l3,
    In l1 (Graph.literals g) /\ In l2 (Graph.literals g)
    /\ In l3 (Graph.literals g)
    /\ Graph.clauseIndex l1 = 0 /\ Graph.clauseIndex l2 = 1
    /\ Graph.clauseIndex l3 = 2
    /\ Joined g l1 l2 /\ Joined g l1 l3 /\ Joined g l2 l3.
Proof.
  unfold Graph.findClique.
  match goal with |- match ?search with _ => _ end <> _ <-> _ =>
    destruct search as [clique|] eqn:Hs end.
  - apply forOf_some in Hs. destruct Hs as (l1 & H1 & Hs).
    apply forOf_some in Hs. destruct Hs as (l2 & H2 & Hs).
    apply forOf_some in Hs. destruct Hs as (l3 & H3 & Hs).
    apply in_clauseGroup in H1, H2, H3.
    destruct H1 as [H1 C1], H2 as [H2 C2], H3 as [H3 C3].
    cbv zeta in Hs.
    destruct (Graph.hasEdge (Graph.edges g) (Graph.id l1) (Graph.id l2)) eqn:E12;
      [|discriminate].
    destruct (Graph.hasEdge (Graph.edges g) (Graph.id l1) (Graph.id l3)) eqn:E13;
      [|discriminate].
    destruct (Graph.hasEdge (Graph.edges g) (Graph.id l2) (Graph.id l3)) eqn:E23;
      [|discriminate].
    injection Hs as <-.
    apply hasEdge_joined in E12, E13, E23.
    split; [|discriminate]. intros _. exists l1, l2, l3. tauto.
  - split; [congruence|].
    intros (l1 & l2 & l3 & H1 & H2 & H3 & C1 & C2 & C3 & J12 & J13 & J23).
    apply hasEdge_joined in J12, J13, J23.
    assert (G1 : In l1 (Graph.clauseGroup (Graph.literals g) 0))
      by (apply in_clauseGroup; auto).
    assert (G2 : In l2 (Graph.clauseGroup (Graph.literals g) 1))
      by (apply in_clauseGroup; auto).
    assert (G3 : In l3 (Graph.clauseGroup (Graph.literals g) 2))
      by (apply in_clauseGroup; auto).
    pose proof (forOf_none _ _ Hs l1 G1) as Hs1. cbv beta in Hs1.
    pose proof (forOf_none _ _ Hs1 l2 G2) as Hs2. cbv beta in Hs2.
    pose proof (forOf_none _ _ Hs2 l3 G3) as Hs3. cbv beta zeta in Hs3.
    rewrite J12, J13, J23 in Hs3. discriminate Hs3.
Qed.

(** The vertices of a rendered formula and the literals they stand for. *)
Lemma in_vertices f v :
  In v (concat (mapi verticesOfClause f 0)) ->
  exists l, StandsFor f v (Graph.clauseIndex v) l.
Proof.
  intros H. apply in_concat in H. destruct H as (vs & Hvs & Hv).
  apply in_mapi in Hvs. destruct Hvs as (ci & c & Hc & ->).
  unfold verticesOfClause in Hv. apply in_mapi in Hv.
  destruct Hv as (li & l & Hl & ->). simpl.
  exists l, c. repeat split; eauto using nth_error_In.
Qed.

Lemma vertex_of_literal f ci c l :
  nth_error f ci = Some c -> In l c ->
  exists v, In v (concat (mapi verticesOfClause f 0)) /\ StandsFor f v ci l.
Proof.
  intros Hc Hl. apply In_nth_error in Hl. destruct Hl as (li & Hl).
  exists (Graph.mkLiteral (Graph.vertexId ci li) (variable l) (negated l) ci
                          (Graph.positionOf ci li)).
  split.
  - apply in_concat. exists (verticesOfClause ci c). split.
    + apply in_mapi. exists ci, c. auto.
    + unfold verticesOfClause. apply in_mapi. exists li, l. auto.
  - exists c. simpl. repeat split; eauto using nth_error_In.
Qed.

Lemma holds_not_complementary a f v1 v2 c1 c2 l1 l2 :
  StandsFor f v1 c1 l1 -> StandsFor f v2 c2 l2 ->
  holds a l1 = true -> holds a l2 = true -> ~ Complementary v1 v2.
Proof.
  intros (_ & _ & _ & _ & V1 & N1) (_ & _ & _ & _ & V2 & N2) H1 H2 [Hv Hn].
  rewrite V1, V2 in Hv. rewrite N1, N2 in Hn. unfold holds in *.
  rewrite Hv in H1.
  destruct (negated l1), (negated l2), (a (variable l2));
    simpl in *; congruence.
Qed.

Lemma chosenTrue_holds chosen l :
  In l chosen ->
  (forall l', In l' chosen ->
     variable l' = variable l -> negated l' = negated l) ->
  holds (chosenTrue chosen) l = true.
Proof.
  intros Hin Hsame. unfold holds, chosenTrue.
  destruct (negated l) eqn:Hn.
  - apply negb_true_iff. apply not_true_is_false. intros H.
    apply existsb_exists in H. destruct H as (l' & Hl' & H).
    apply andb_true_iff in H. destruct H as [Hv Hp].
    apply eqb_eq in Hv. rewrite (Hsame l' Hl' Hv) in Hp. discriminate.
  - apply existsb_exists. exists l. rewrite eqb_refl, Hn. auto.
Qed.
Lemma chosen_consistent f v1 v2 c1 c2 l1 l2 :
  StandsFor f v1 c1 l1 -> StandsFor f v2 c2 l2 ->
  ~ Complementary v1 v2 ->
  variable l1 = variable l2 -> negated l1 = negated l2.
Proof.
  intros (_ & _ & _ & _ & V1 & N1) (_ & _ & _ & _ & V2 & N2) Hc Hv.
  destruct (Bool.bool_dec (negated l1) (negated l2)) as [E | E]; [exact E|].
  exfalso. apply Hc. split; congruence.
Qed.

(** X17. The reduction is correct on the first three clauses: for a formula
    of at least three clauses, none empty and all names of letters and
    digits, the clique search on the graph of its rendered text finds
    something exactly when the first three clauses are satisfiable
    together. *)
Theorem clique_iff_satisfiable (f : CNFFormula) :
  3 <= length f ->
  Forall (fun c => c <> [] /\ Forall (fun l => NameChars (variable l)) c) f ->
  Graph.findClique (Graph.parseFormulaToGraph (formulaToString f)) <> []
  <-> exists a, satisfies a (firstn 3 f) = true.
Proof.
  intros Hlen Hf.
  destruct f as [|c0 [|c1 [|c2 rest]]]; simpl in Hlen; try lia.
  set (f := c0 :: c1 :: c2 :: rest) in *.
  destruct (@lowering_of_rendered f ltac:(discriminate) Hf) as [_ Hlits].
  rewrite findClique_found. rewrite Hlits. split.
  - intros (v1 & v2 & v3 & H1 & H2 & H3 & C1 & C2 & C3 & J12 & J13 & J23).
    rewrite <- Hlits in H1, H2, H3.
    destruct (joined_sound H1 H2 J12) as [_ N12].
    destruct (joined_sound H1 H3 J13) as [_ N13].
    destruct (joined_sound H2 H3 J23) as [_ N23].
    rewrite Hlits in H1, H2, H3.
    destruct (in_vertices f v1 H1) as (x1 & S1).
    destruct (in_vertices f v2 H2) as (x2 & S2).
    destruct (in_vertices f v3 H3) as (x3 & S3).
    rewrite C1 in S1. rewrite C2 in S2. rewrite C3 in S3.
    assert (N21 : ~ Complementary v2 v1)
      by (intros H; apply N12, Complementary_sym, H).
    assert (N31 : ~ Complementary v3 v1)
      by (intros H; apply N13, Complementary_sym, H).
    assert (N32 : ~ Complementary v3 v2)
      by (intros H; apply N23, Complementary_sym, H).
    exists (chosenTrue [x1; x2; x3]).
    assert (A1 : holds (chosenTrue [x1; x2; x3]) x1 = true).
    { apply chosenTrue_holds; [simpl; auto|].
      intros l' [<- | [<- | [<- | []]]]; eauto using chosen_consistent. }
    assert (A2 : holds (chosenTrue [x1; x2; x3]) x2 = true).
    { apply chosenTrue_holds; [simpl; auto|].
      intros l' [<- | [<- | [<- | []]]]; eauto using chosen_consistent. }
    assert (A3 : holds (chosenTrue [x1; x2; x3]) x3 = true).
    { apply chosenTrue_holds; [simpl; auto|].
      intros l' [<- | [<- | [<- | []]]]; eauto using chosen_consistent. }
    destruct S1 as (d0 & E0 & I0 & _), S2 as (d1 & E1 & I1 & _),
             S3 as (d2 & E2 & I2 & _).
    simpl in E0, E1, E2.
    injection E0 as <-. injection E1 as <-. injection E2 as <-.
    change (satisfies (chosenTrue [x1; x2; x3]) [c0; c1; c2] = true).
    apply satisfies_iff. intros c [<- | [<- | [<- | []]]];
      apply satisfiesClause_iff; eauto.
  - intros (a & Ha).
    change (satisfies a [c0; c1; c2] = true) in Ha.
    rewrite satisfies_iff in Ha.
    destruct (proj1 (satisfiesClause_iff a c0) (Ha c0 ltac:(simpl; auto)))
      as (x1 & I1 & A1).
    destruct (proj1 (satisfiesClause_iff a c1) (Ha c1 ltac:(simpl; auto)))
      as (x2 & I2 & A2).
    destruct (proj1 (satisfiesClause_iff a c2) (Ha c2 ltac:(simpl; auto)))
      as (x3 & I3 & A3).
    destruct (@vertex_of_literal f 0 c0 x1 eq_refl I1) as (v1 & H1 & S1).
    destruct (@vertex_of_literal f 1 c1 x2 eq_refl I2) as (v2 & H2 & S2).
    destruct (@vertex_of_literal f 2 c2 x3 eq_refl I3) as (v3 & H3 & S3).
    pose proof S1 as (_ & _ & _ & C1 & _).
    pose proof S2 as (_ & _ & _ & C2 & _).
    pose proof S3 as (_ & _ & _ & C3 & _).
    exists v1, v2, v3.
    rewrite <- Hlits in H1, H2, H3.
    repeat (split; [first [rewrite <- Hlits; assumption | assumption]|]).
    split; [|split]; apply joined_complete; try assumption; try lia;
      eauto using holds_not_complementary.
Qed.
(** ** What the clique animation draws *)

Lemma findById_found formula v :
  In v (Graph.literals (Graph.parseFormulaToGraph formula)) ->
  findById (Graph.literals (Graph.parseFormulaToGraph formula)) (Graph.id v)
  = Some v.
Proof.
  intros Hv. unfold findById.
  destruct (find _ _) as [w|] eqn:Hfind.
  - apply find_some in Hfind. destruct Hfind as [Hw Hid].
    apply eqb_eq in Hid. f_equal. eapply vertex_of_id; eauto.
  - pose proof (find_none _ _ Hfind v Hv) as H. cbv beta in H.
    rewrite eqb_refl in H. discriminate.
Qed.

(** What the search returns: nothing, or the identifiers of three vertices
    of clauses 0, 1 and 2 joined two by two. *)
Lemma findClique_cases g :
  Graph.findClique g = []
  \/ exists l1 l2 l3,
       Graph.findClique g = [Graph.id l1; Graph.id l2; Graph.id l3]
       /\ In l1 (Graph.literals g) /\ In l2 (Graph.literals g)
       /\ In l3 (Graph.literals g)
       /\ Graph.clauseIndex l1 = 0 /\ Graph.clauseIndex l2 = 1
       /\ Graph.clauseIndex l3 = 2
       /\ Joined g l1 l2 /\ Joined g l1 l3 /\ Joined g l2 l3.
Proof.
  unfold Graph.findClique.
  match goal with |- match ?search with _ => _ end = _ \/ _ =>
    destruct search as [clique|] eqn:Hs end; [right | left; reflexivity].
  apply forOf_some in Hs. destruct Hs as (l1 & H1 & Hs).
  apply forOf_some in Hs. destruct Hs as (l2 & H2 & Hs).
  apply forOf_some in Hs. destruct Hs as (l3 & H3 & Hs).
  apply in_clauseGroup in H1, H2, H3.
  destruct H1 as [H1 C1], H2 as [H2 C2], H3 as [H3 C3].
  cbv zeta in Hs.
  destruct (Graph.hasEdge (Graph.edges g) (Graph.id l1) (Graph.id l2)) eqn:E12;
    [|discriminate].
  destruct (Graph.hasEdge (Graph.edges g) (Graph.id l1) (Graph.id l3)) eqn:E13;
    [|discriminate].
  destruct (Graph.hasEdge (Graph.edges g) (Graph.id l2) (Graph.id l3)) eqn:E23;
    [|discriminate].
  injection Hs as <-.
  apply hasEdge_joined in E12, E13, E23.
  exists l1, l2, l3. tauto.
Qed.

(** X19. Every edge of the graph of a text is drawn: both of its ends are
    found among the vertices, so the callback never returns null; the line
    joins the positions of two vertices of different clauses that are not
    complementary. *)
Theorem every_edge_is_drawn (formula : jsstring) (highlightClique : bool)
    (cliqueNodes : list jsstring) (edge : Graph.Edge) :
  In edge (Graph.edges (Graph.parseFormulaToGraph formula)) ->
  exists v1 v2 flag,
    edgeLine (Graph.parseFormulaToGraph formula) highlightClique cliqueNodes edge
    = Some (mkLine (Graph.position v1) (Graph.position v2) flag)
    /\ In v1 (Graph.literals (Graph.parseFormulaToGraph formula))
    /\ In v2 (Graph.literals (Graph.parseFormulaToGraph formula))
    /\ Graph.from edge = Graph.id v1 /\ Graph.to edge = Graph.id v2
    /\ Graph.clauseIndex v1 <> Graph.clauseIndex v2
    /\ ~ Complementary v1 v2.
Proof.
  intros He. destruct (edge_ends _ _ He) as (v1 & v2 & H1 & H2 & F & T & Hc & Hn).
  exists v1, v2. eexists. unfold edgeLine.
  rewrite F, T, !findById_found by assumption.
  repeat split; auto.
Qed.
Lemma literalLabel_stands f v ci l :
  StandsFor f v ci l -> literalLabel v = literalToString l.
Proof.
  intros (_ & _ & _ & _ & V & N). unfold literalLabel, literalToString.
  rewrite V, N. reflexivity.
Qed.

Lemma StandsFor_nth f v ci l : StandsFor f v ci l -> In l (nth ci f []).
Proof.
  intros (c & Hc & Hl & _). rewrite (nth_error_nth _ _ _ Hc). exact Hl.
Qed.

(** X18. The clique legend names a satisfying choice: for a formula of at
    least three clauses, none empty and all names of letters and digits,
    when the search on the graph of its rendered text finds something, the
    legend lists one literal of clause 0, one of clause 1 and one of
    clause 2, in this order, and one assignment makes the three of them
    true. *)
Theorem clique_label_satisfies (f : CNFFormula) :
  3 <= length f ->
  Forall (fun c => c <> [] /\ Forall (fun l => NameChars (variable l)) c) f ->
  Graph.findClique (Graph.parseFormulaToGraph (formulaToString f)) <> [] ->
  exists x1 x2 x3 a,
    cliqueLabel (Graph.parseFormulaToGraph (formulaToString f))
                (Graph.findClique (Graph.parseFormulaToGraph (formulaToString f)))
    = join (lit ", ")
           [literalToString x1; literalToString x2; literalToString x3]
    /\ In x1 (nth 0 f []) /\ In x2 (nth 1 f []) /\ In x3 (nth 2 f [])
    /\ holds a x1 = true /\ holds a x2 = true /\ holds a x3 = true.
Proof.
  intros Hlen Hf Hfound.
  assert (Hne : f <> []) by (intros ->; simpl in Hlen; lia).
  destruct (@lowering_of_rendered f Hne Hf) as [_ Hlits].
  destruct (findClique_cases (Graph.parseFormulaToGraph (formulaToString f)))
    as [E | (v1 & v2 & v3 & E & H1 & H2 & H3 & C1 & C2 & C3 & J12 & J13 & J23)];
    [congruence|].
  destruct (joined_sound H1 H2 J12) as [_ N12].
  destruct (joined_sound H1 H3 J13) as [_ N13].
  destruct (joined_sound H2 H3 J23) as [_ N23].
  assert (N21 : ~ Complementary v2 v1)
    by (intros H; apply N12, Complementary_sym, H).
  assert (N31 : ~ Complementary v3 v1)
    by (intros H; apply N13, Complementary_sym, H).
  assert (N32 : ~ Complementary v3 v2)
    by (intros H; apply N23, Complementary_sym, H).
  pose proof H1 as H1'. pose proof H2 as H2'. pose proof H3 as H3'.
  rewrite Hlits in H1', H2', H3'.
  destruct (in_vertices f v1 H1') as (x1 & S1).
  destruct (in_vertices f v2 H2') as (x2 & S2).
  destruct (in_vertices f v3 H3') as (x3 & S3).
  rewrite C1 in S1. rewrite C2 in S2. rewrite C3 in S3.
  exists x1, x2, x3, (chosenTrue [x1; x2; x3]).
  split; [|split; [|split; [|split; [|split; [|split]]]]];
    eauto using StandsFor_nth.
  - rewrite E. unfold cliqueLabel. cbn [map].
    rewrite !findById_found by assumption.
    rewrite (literalLabel_stands S1), (literalLabel_stands S2),
            (literalLabel_stands S3). reflexivity.
  - apply chosenTrue_holds; [simpl; auto|].
    intros l' [<- | [<- | [<- | []]]]; eauto using chosen_consistent.
  - apply chosenTrue_holds; [simpl; auto|].
    intros l' [<- | [<- | [<- | []]]]; eauto using chosen_consistent.
  - apply chosenTrue_holds; [simpl; auto|].
    intros l' [<- | [<- | [<- | []]]]; eauto using chosen_consistent.
Qed.
(** ** When the result has three literals in every clause *)

Lemma ChainsOf_empty ns f out : ChainsOf ns f out -> In [] f -> In [] out.
Proof.
  induction 1 as [|ns c cs ms f out Hc Hf IH]; intros Hin; [contradiction|].
  apply in_or_app. destruct Hin as [-> | Hin]; [left | right; auto].
  inversion Hc; subst. left. reflexivity.
Qed.

Lemma PaddedAll_empty ms cs cs' : PaddedAll ms cs cs' -> In [] cs -> In [] cs'.
Proof.
  induction 1 as [|ns c c' ms cs cs' Hp Hall IH]; intros Hin; [contradiction|].
  destruct Hin as [-> | Hin]; [left | right; auto].
  inversion Hp; subst. reflexivity.
Qed.

(** X4. The splitting strategy gives three literals to every clause exactly
    when no clause of the input is empty: an empty clause goes through both
    passes as it is. *)
Theorem splitting_three_iff_no_empty (f : CNFFormula) (m : Method.t) :
  m <> Method.padding ->
  Forall (fun c => length c = 3) (formula (transformTo3CNF f m))
  <-> Forall (fun c => c <> []) f.
Proof.
  intros Hm. split.
  - intros H3. apply Forall_forall. intros c Hc ->.
    destruct (@splitRun_spec f m Hm) as (ns & ms & mid & Hch & Hp & _).
    pose proof (PaddedAll_empty Hp (ChainsOf_empty Hch Hc)) as Hout.
    rewrite Forall_forall in H3. specialize (H3 _ Hout). discriminate H3.
  - intros Hne. apply transform_arity. intros _. exact Hne.
Qed.

(** X14. The names in the parse of an accepted text are made of letters,
    digits and NOT symbols only. *)
Theorem accepted_names (input : jsstring) :
  valid (validateFormula input) = true ->
  Forall (Forall (fun l => SymbolChars (variable l))) (parseFormula input).
Proof. apply valid_parse_symbols. Qed.
Lemma WellFormedClause_parsed cl : WellFormedClause cl -> ParsedClause cl.
Proof.
  intros [Hne Hall]. split; [exact Hne|].
  eapply Forall_impl; [|exact Hall]. intros l [Hv Hchars]. split.
  - eapply Forall_impl; [|exact Hchars]. apply alnum_plain.
  - intros _. destruct (variable l) as [|d v]; [congruence|].
    exists d, v. split; [reflexivity|]. inversion Hchars; subst.
    intros ->. discriminate.
Qed.

(** ** The scenarios of the specification, and instances of the theorems *)

Example scenarioA_text :
  validateFormula (removeWhiteSpace (formulaToString scenarioA))
  = mkValidation true None
  /\ parseFormula (removeWhiteSpace (formulaToString scenarioA)) = scenarioA.
Proof. split; reflexivity. Qed.

Example scenarioA_split :
  formula (transformTo3CNF scenarioA Method.split)
  = [ [pos (lit "A"); pos (lit "B"); pos (lit "z2")];
      [neg (lit "C"); pos (lit "D"); pos (lit "x1")];
      [neg (lit "x1"); pos (lit "E"); pos (lit "F")] ].
Proof. reflexivity. Qed.

Example scenarioB_padding :
  formula (transformTo3CNF scenarioB Method.padding)
  = [ [pos (lit "A"); pos (lit "p1"); pos (lit "p2")];
      [pos (lit "B"); pos (lit "C"); pos (lit "p3")] ].
Proof. reflexivity. Qed.

Example scenarioC_clique :
  Graph.findClique (Graph.parseFormulaToGraph (formulaToString scenarioC))
  = [Graph.vertexId 0 0; Graph.vertexId 1 0; Graph.vertexId 2 0].
Proof. reflexivity. Qed.

Example scenarioD_validate :
  validateFormula [AND; AND] = invalid ConsecutiveOperators
  /\ validateFormula (lit "(A" ++ [OR]) = invalid UnbalancedParens.
Proof. split; reflexivity. Qed.

(** A clause with no literal, which the parser never returns, goes through
    the splitting strategy as it is, and gets three fresh literals from the
    padding-only strategy. *)
Example empty_clause :
  formula (transformTo3CNF [[]] Method.split) = [[]]
  /\ formula (transformTo3CNF [[]] Method.padding)
     = [[pos (lit "p1"); pos (lit "p2"); pos (lit "p3")]].
Proof. split; reflexivity. Qed.

(** Two clauses only: the third group is empty and the search finds
    nothing, whatever the edges. *)
Example two_clauses_no_clique :
  Graph.findClique (Graph.parseFormulaToGraph (formulaToString scenarioB)) = [].
Proof. reflexivity. Qed.

(** A clause of five literals takes two links, [x1] and [x2]; the second
    pass then takes [y3] for the clause of one literal and [z4] for the
    clause of two. *)
Example mixedArities_split :
  formula (transformTo3CNF mixedArities Method.split)
  = [ [pos (lit "A"); pos (lit "y3"); neg (lit "y3")];
      [pos (lit "B"); neg (lit "C"); pos (lit "z4")];
      [pos (lit "D"); pos (lit "E"); pos (lit "x1")];
      [neg (lit "x1"); pos (lit "F"); pos (lit "x2")];
      [neg (lit "x2"); pos (lit "G"); pos (lit "H")] ]
  /\ freshNames mixedArities Method.split
     = [lit "x1"; lit "x2"; lit "y3"; lit "z4"].
Proof. split; reflexivity. Qed.

Lemma splitting_arity_three_witness :
  Method.split <> Method.padding
  /\ Forall (fun c => c <> []) mixedArities
  /\ Forall (fun c => length c = 3)
            (formula (transformTo3CNF mixedArities Method.split))
  /\ exists ns ms mid,
       ChainsOf ns mixedArities mid
       /\ PaddedAll ms mid (formula (transformTo3CNF mixedArities Method.split))
       /\ freshNames mixedArities Method.split = ns ++ ms
       /\ Numbered 1 (ns ++ ms)
       /\ NoDup (ns ++ ms).
Proof.
  assert (Hm : Method.split <> Method.padding) by discriminate.
  assert (Hne : Forall (fun c : Clause => c <> []) mixedArities) by well_formed.
  split; [exact Hm | split; [exact Hne|]].
  exact (splitting_arity_three Hm Hne).
Defined.

Lemma parse_render_roundtrip_witness :
  Forall WellFormedClause scenarioC
  /\ parseFormula (formulaToString scenarioC) = scenarioC.
Proof.
  assert (Hwf : Forall WellFormedClause scenarioC) by well_formed.
  split; [exact Hwf | exact (parse_render_roundtrip Hwf)].
Defined.

Lemma lowering_invariants_witness :
  scenarioC <> [] /\ ThreeCNF scenarioC
  /\ length (Graph.literals (Graph.parseFormulaToGraph (formulaToString scenarioC)))
     = 3 * length scenarioC.
Proof.
  assert (Hne : scenarioC <> []) by discriminate.
  assert (H3 : ThreeCNF scenarioC) by well_formed.
  split; [exact Hne | split; [exact H3|]].
  exact (proj1 (lowering_invariants Hne H3)).
Defined.

Lemma fresh_names_distinct_witness :
  In (lit "A") (variables scenarioA)
  /\ ~ helperShaped (lit "A")
  /\ NoDup (freshNames scenarioA Method.split)
  /\ ~ In (lit "A") (freshNames scenarioA Method.split).
Proof.
  assert (Hin : In (lit "A") (variables scenarioA)) by (left; reflexivity).
  assert (Hshape : ~ helperShaped (lit "A")).
  { intros (p & k & Hp & E). simpl in Hp.
    destruct Hp as [<- | [<- | [<- | [<- | []]]]]; discriminate E. }
  split; [exact Hin | split; [exact Hshape|]].
  destruct (fresh_names_distinct scenarioA Method.split) as (Hnd & _ & Hfresh).
  split; [exact Hnd | exact (Hfresh _ Hin Hshape)].
Defined.

Lemma findClique_deterministic_witness :
  map keyOf (Graph.literals (Graph.parseFormulaToGraph upperCase))
  = map keyOf (Graph.literals (Graph.parseFormulaToGraph lowerCase))
  /\ Graph.edges (Graph.parseFormulaToGraph upperCase)
     = Graph.edges (Graph.parseFormulaToGraph lowerCase)
  /\ Graph.findClique (Graph.parseFormulaToGraph upperCase)
     = Graph.findClique (Graph.parseFormulaToGraph lowerCase).
Proof.
  assert (Hv : map keyOf (Graph.literals (Graph.parseFormulaToGraph upperCase))
               = map keyOf (Graph.literals (Graph.parseFormulaToGraph lowerCase)))
    by reflexivity.
  assert (He : Graph.edges (Graph.parseFormulaToGraph upperCase)
               = Graph.edges (Graph.parseFormulaToGraph lowerCase))
    by reflexivity.
  split; [exact Hv | split; [exact He | exact (findClique_deterministic _ _ Hv He)]].
Defined.

(** ** Instances of the further properties *)

Lemma three_cnf_unchanged_witness :
  Forall (fun c => length c = 3) scenarioC
  /\ formula (transformTo3CNF scenarioC Method.tseitin) = scenarioC
  /\ freshNames scenarioC Method.tseitin = [].
Proof.
  assert (H3 : Forall (fun c : Clause => length c = 3) scenarioC) by well_formed.
  split; [exact H3 | exact (three_cnf_unchanged Method.tseitin H3)].
Defined.

Lemma transform_idempotent_witness :
  (Method.split <> Method.padding -> Forall (fun c => c <> []) scenarioA)
  /\ formula (transformTo3CNF (formula (transformTo3CNF scenarioA Method.split))
                              Method.padding)
     = formula (transformTo3CNF scenarioA Method.split).
Proof.
  assert (Hne : Method.split <> Method.padding ->
                Forall (fun c : Clause => c <> []) scenarioA)
    by (intros _; well_formed).
  split; [exact Hne | exact (transform_idempotent Method.padding Hne)].
Defined.

Lemma splitting_keeps_literals_witness :
  Method.split <> Method.padding
  /\ length (formula (transformTo3CNF scenarioA Method.split))
     = list_sum (map chainLength scenarioA).
Proof.
  assert (Hm : Method.split <> Method.padding) by discriminate.
  split; [exact Hm|].
  exact (proj1 (proj2 (splitting_keeps_literals scenarioA Hm))).
Defined.

Lemma splitting_sound_witness :
  Method.split <> Method.padding
  /\ Forall (fun c => 3 <= length c) longClause
  /\ satisfies allTrue (formula (transformTo3CNF longClause Method.split)) = true
  /\ satisfies allTrue longClause = true.
Proof.
  assert (Hm : Method.split <> Method.padding) by discriminate.
  assert (Hlen : Forall (fun c : Clause => 3 <= length c) longClause)
    by (repeat constructor).
  assert (Hsat : satisfies allTrue
                   (formula (transformTo3CNF longClause Method.split)) = true)
    by (vm_compute; reflexivity).
  split; [exact Hm | split; [exact Hlen | split; [exact Hsat|]]].
  exact (splitting_sound allTrue Hm Hlen Hsat).
Defined.

Lemma splitting_unit_clauses_witness :
  Method.split <> Method.padding
  /\ Forall (fun c => length c = 1) [[pos (lit "A")]]
  /\ satisfies allFalse
       (formula (transformTo3CNF [[pos (lit "A")]] Method.split)) = true.
Proof.
  assert (Hm : Method.split <> Method.padding) by discriminate.
  assert (H1 : Forall (fun c : Clause => length c = 1) [[pos (lit "A")]])
    by (repeat constructor).
  split; [exact Hm | split; [exact H1|]].
  exact (splitting_unit_clauses allFalse Hm H1).
Defined.

Lemma padding_only_semantics_witness :
  Forall (fun c => length c <= 3) scenarioB
  /\ satisfies allTrue scenarioB = true
  /\ satisfies allTrue (formula (transformTo3CNF scenarioB Method.padding)) = true.
Proof.
  assert (Hlen : Forall (fun c : Clause => length c <= 3) scenarioB)
    by (repeat constructor).
  assert (Hsat : satisfies allTrue scenarioB = true) by reflexivity.
  split; [exact Hlen | split; [exact Hsat|]].
  exact (proj1 (padding_only_semantics scenarioB allTrue) Hlen Hsat).
Defined.

Lemma splitting_complete_witness :
  Method.split <> Method.padding
  /\ (forall v, In v (variables longClause) -> ~ helperShaped v)
  /\ satisfies allTrue longClause = true
  /\ exists a',
       satisfies a' (formula (transformTo3CNF longClause Method.split)) = true
       /\ (forall v, ~ In v (freshNames longClause Method.split) ->
             a' v = allTrue v)
       /\ forall v, In v (variables longClause) -> a' v = allTrue v.
Proof.
  assert (Hm : Method.split <> Method.padding) by discriminate.
  assert (Hshape : forall v, In v (variables longClause) -> ~ helperShaped v).
  { intros v Hv (p & k & Hp & E). simpl in Hp, Hv.
    destruct Hv as [<- | [<- | [<- | [<- | []]]]];
      destruct Hp as [<- | [<- | [<- | [<- | []]]]]; discriminate E. }
  assert (Hsat : satisfies allTrue longClause = true) by reflexivity.
  split; [exact Hm | split; [exact Hshape | split; [exact Hsat|]]].
  exact (@splitting_complete longClause Method.split allTrue Hm Hshape Hsat).
Defined.

Lemma parse_ignores_space_and_parens_witness :
  erase spacedText = erase compactText
  /\ parseFormula spacedText = parseFormula compactText.
Proof.
  assert (He : erase spacedText = erase compactText) by reflexivity.
  split; [exact He | exact (parse_ignores_space_and_parens _ _ He)].
Defined.

Lemma transform_render_parse_witness :
  Forall ParsedClause scenarioA
  /\ parseFormula
       (formulaToString (formula (transformTo3CNF scenarioA Method.split)))
     = formula (transformTo3CNF scenarioA Method.split).
Proof.
  assert (Hp : Forall ParsedClause scenarioA).
  { eapply Forall_impl; [apply WellFormedClause_parsed|]. well_formed. }
  split; [exact Hp | exact (proj2 (transform_render_parse Method.split Hp))].
Defined.

Lemma render_validates_witness :
  scenarioA <> []
  /\ Forall (Forall (fun l => SymbolChars (variable l))) scenarioA
  /\ validateFormula (formulaToString scenarioA) = mkValidation true None.
Proof.
  assert (Hne : scenarioA <> []) by discriminate.
  assert (Hs : Forall (Forall (fun l => SymbolChars (variable l))) scenarioA)
    by (repeat constructor; left; reflexivity).
  split; [exact Hne | split; [exact Hs | exact (render_validates Hne Hs)]].
Defined.

Lemma submit_shows_three_cnf_witness :
  valid (validateFormula (Panel.customFormula openPanel)) = true
  /\ Forall (fun c => length c = 3) (shown openPanel)
  /\ parseFormula (formulaToString (shown openPanel)) = shown openPanel.
Proof.
  assert (Hv : valid (validateFormula (Panel.customFormula openPanel)) = true)
    by reflexivity.
  split; [exact Hv | exact (proj2 (submit_shows_three_cnf openPanel Hv))].
Defined.

Lemma submit_shown_again_witness :
  valid (validateFormula (Panel.customFormula openPanel)) = true
  /\ parseFormula (Panel.customFormula openPanel) <> []
  /\ Panel.customFormula againPanel = formulaToString (shown openPanel)
  /\ validateFormula (Panel.customFormula againPanel) = mkValidation true None
  /\ shown againPanel = shown openPanel.
Proof.
  assert (Hv : valid (validateFormula (Panel.customFormula openPanel)) = true)
    by reflexivity.
  assert (Hne : parseFormula (Panel.customFormula openPanel) <> [])
    by (vm_compute; discriminate).
  assert (Ht : Panel.customFormula againPanel
               = formulaToString (shown openPanel)) by reflexivity.
  split; [exact Hv | split; [exact Hne | split; [exact Ht|]]].
  exact (submit_shown_again openPanel againPanel Hv Hne Ht).
Defined.

Lemma clique_iff_satisfiable_witness :
  3 <= length scenarioC
  /\ Forall (fun c => c <> [] /\ Forall (fun l => NameChars (variable l)) c)
            scenarioC
  /\ (Graph.findClique (Graph.parseFormulaToGraph (formulaToString scenarioC))
      <> []
      <-> exists a, satisfies a (firstn 3 scenarioC) = true).
Proof.
  assert (Hlen : 3 <= length scenarioC) by (simpl; lia).
  assert (Hf : Forall (fun c => c <> []
                                /\ Forall (fun l => NameChars (variable l)) c)
                      scenarioC) by well_formed.
  split; [exact Hlen | split; [exact Hf|]].
  exact (clique_iff_satisfiable Hlen Hf).
Defined.

Lemma every_edge_is_drawn_witness :
  In (Graph.mkEdge (Graph.vertexId 0 0) (Graph.vertexId 1 0))
     (Graph.edges (Graph.parseFormulaToGraph upperCase))
  /\ edgeLine (Graph.parseFormulaToGraph upperCase) true []
              (Graph.mkEdge (Graph.vertexId 0 0) (Graph.vertexId 1 0))
     <> None.
Proof.
  assert (He : In (Graph.mkEdge (Graph.vertexId 0 0) (Graph.vertexId 1 0))
                  (Graph.edges (Graph.parseFormulaToGraph upperCase)))
    by (vm_compute; tauto).
  split; [exact He|].
  destruct (every_edge_is_drawn upperCase true [] _ He)
    as (v1 & v2 & flag & E & _).
  rewrite E. discriminate.
Defined.

Lemma clique_label_satisfies_witness :
  3 <= length scenarioC
  /\ Forall (fun c => c <> [] /\ Forall (fun l => NameChars (variable l)) c)
            scenarioC
  /\ Graph.findClique (Graph.parseFormulaToGraph (formulaToString scenarioC))
     <> []
  /\ exists x1 x2 x3 a,
       cliqueLabel (Graph.parseFormulaToGraph (formulaToString scenarioC))
         (Graph.findClique
            (Graph.parseFormulaToGraph (formulaToString scenarioC)))
       = join (lit ", ")
              [literalToString x1; literalToString x2; literalToString x3]
       /\ In x1 (nth 0 scenarioC []) /\ In x2 (nth 1 scenarioC [])
       /\ In x3 (nth 2 scenarioC [])
       /\ holds a x1 = true /\ holds a x2 = true /\ holds a x3 = true.
Proof.
  assert (Hlen : 3 <= length scenarioC) by (simpl; lia).
  assert (Hf : Forall (fun c => c <> []
                                /\ Forall (fun l => NameChars (variable l)) c)
                      scenarioC) by well_formed.
  assert (Hfound : Graph.findClique
                     (Graph.parseFormulaToGraph (formulaToString scenarioC))
                   <> []) by (vm_compute; discriminate).
  split; [exact Hlen | split; [exact Hf | split; [exact Hfound|]]].
  exact (clique_label_satisfies Hlen Hf Hfound).
Defined.

Lemma splitting_three_iff_no_empty_witness :
  Method.tseitin <> Method.padding
  /\ (Forall (fun c => length c = 3)
             (formula (transformTo3CNF scenarioA Method.tseitin))
      <-> Forall (fun c => c <> []) scenarioA).
Proof.
  assert (Hm : Method.tseitin <> Method.padding) by discriminate.
  split; [exact Hm | exact (splitting_three_iff_no_empty scenarioA Hm)].
Defined.

Lemma accepted_names_witness :
  valid (validateFormula (formulaToString scenarioA)) = true
  /\ Forall (Forall (fun l => SymbolChars (variable l)))
            (parseFormula (formulaToString scenarioA)).
Proof.
  assert (Hv : valid (validateFormula (formulaToString scenarioA)) = true)
    by reflexivity.
  split; [exact Hv | exact (accepted_names _ Hv)].
Defined.
